(** * llama-zip: arithmetic coder, byte/text codec, base64 ingestion
      and the compress/decompress driver

    A shallow embedding of [llama_zip.py] and the properties its
    specification states about it.  Python integers are [Z] (unbounded,
    two's complement bit operations, floor division), [bytes] and
    [bytearray] values are [list byte], NumPy [float32] values are
    [spec_float] at 24 bits of precision, exceptions are the [Err]
    branch of [result]. *)

From Stdlib Require Import ZArith List Lia Bool.
From Stdlib Require SpecFloat.
From Stdlib.Strings Require Import Byte.
Import ListNotations.

Open Scope Z_scope.

(** ** Exceptions and Python primitives *)

Inductive error : Type :=
| IndexError
| ZeroDivisionError
| ValueError
| OverflowError
| UnicodeDecodeError
| UnicodeEncodeError
| BinasciiError
| OutOfFuel.

Inductive result (A : Type) : Type :=
| Ok (a : A)
| Err (e : error).
Arguments Ok {A} a.
Arguments Err {A} e.

Definition bind {A B : Type} (r : result A) (k : A -> result B) : result B :=
  match r with
  | Ok a => k a
  | Err e => Err e
  end.

Notation "x <- r ;; k" := (bind r (fun x => k))
  (at level 61, r at next level, right associativity).
Notation "' p <- r ;; k" := (bind r (fun p => k))
  (at level 61, p pattern, r at next level, right associativity).

Lemma bind_Ok {A B : Type} (a : A) (k : A -> result B) : bind (Ok a) k = k a.
Proof. reflexivity. Qed.

Lemma bind_Err {A B : Type} (e : error) (k : A -> result B) : bind (Err e) k = Err e.
Proof. reflexivity. Qed.

Lemma bind_inv {A B : Type} (r : result A) (k : A -> result B) (b : B) :
  bind r k = Ok b -> exists a, r = Ok a /\ k a = Ok b.
Proof. destruct r as [a|e]; [eauto|discriminate]. Qed.

(** [xs[i]] on a Python sequence: negative indices count from the end,
    anything outside [-len, len) raises [IndexError]. *)
Definition py_index {A : Type} (d : A) (xs : list A) (i : Z) : result A :=
  let n := Z.of_nat (length xs) in
  if (0 <=? i) && (i <? n) then Ok (nth (Z.to_nat i) xs d)
  else if (- n <=? i) && (i <? 0) then Ok (nth (Z.to_nat (n + i)) xs d)
  else Err IndexError.

(** [a // b]: floor division, [ZeroDivisionError] on a zero divisor. *)
Definition py_floordiv (a b : Z) : result Z :=
  if b =? 0 then Err ZeroDivisionError else Ok (a / b).

(** [a << n] and [a >> n]: a negative shift count raises [ValueError]. *)
Definition py_shiftl (a n : Z) : result Z :=
  if n <? 0 then Err ValueError else Ok (Z.shiftl a n).

Definition py_shiftr (a n : Z) : result Z :=
  if n <? 0 then Err ValueError else Ok (Z.shiftr a n).

(** Bytes as numbers. *)
Definition byte_to_Z (b : byte) : Z := Z.of_N (Byte.to_N b).

(** Storing an integer into a [bytearray] cell: values outside
    [range(256)] raise [ValueError]. *)
Definition byte_of_Z (z : Z) : result byte :=
  if z <? 0 then Err ValueError
  else match Byte.of_N (Z.to_N z) with
       | Some b => Ok b
       | None => Err ValueError
       end.

(** ** Constants *)

Definition PUA_START : Z := 0xE000.
Definition NUM_STATE_BITS : Z := 64.
Definition FREQ_SCALE_FACTOR : Z := Z.shiftl 1 32.

Module Coder.

(** ** ArithmeticCoderBase *)

Definition full_range : Z := Z.shiftl 1 NUM_STATE_BITS.
Definition half_range : Z := Z.shiftr full_range 1.
Definition quarter_range : Z := Z.shiftr half_range 1.
Definition state_mask : Z := full_range - 1.

Record Coder : Type := mkCoder { low : Z; high : Z }.

(** [ArithmeticCoderBase.__init__] *)
Definition Coder_init : Coder := {| low := 0; high := state_mask |}.

(** The two hooks a subclass supplies.  They receive the interval (the
    encoder reads [self.low]) and act on the subclass's own fields. *)
Class CoderHooks (X : Type) : Type := {
  shift : Coder -> X -> result X;
  underflow : Coder -> X -> result X
}.

(** Upper bound on the number of iterations of either renormalisation
    loop (see [shift_loop_total] and [underflow_loop_total]). *)
Definition loop_fuel : nat := 65.

Section Update.
Context {X : Type} `{CoderHooks X}.

(** [while ((self.low ^ self.high) & self.half_range) == 0: ...] *)
Fixpoint shift_loop (fuel : nat) (c : Coder) (x : X) : result (Coder * X) :=
  match fuel with
  | O => Err OutOfFuel
  | S fuel' =>
      if Z.land (Z.lxor (low c) (high c)) half_range =? 0 then
        x' <- shift c x ;;
        shift_loop fuel'
          {| low := Z.land (Z.shiftl (low c) 1) state_mask;
             high := Z.lor (Z.land (Z.shiftl (high c) 1) state_mask) 1 |} x'
      else Ok (c, x)
  end.

(** [while (self.low & ~self.high & self.quarter_range) != 0: ...] *)
Fixpoint underflow_loop (fuel : nat) (c : Coder) (x : X) : result (Coder * X) :=
  match fuel with
  | O => Err OutOfFuel
  | S fuel' =>
      if negb (Z.land (Z.land (low c) (Z.lnot (high c))) quarter_range =? 0) then
        x' <- underflow c x ;;
        underflow_loop fuel'
          {| low := Z.lxor (Z.shiftl (low c) 1) half_range;
             high := Z.lor (Z.lor (Z.shiftl (Z.lxor (high c) half_range) 1)
                                  half_range) 1 |} x'
      else Ok (c, x)
  end.

(** The interval narrowing at the head of [update]. *)
Definition narrow (cum_freqs : list Z) (symbol : Z) (c : Coder) : result Coder :=
  total <- py_index 0 cum_freqs (-1) ;;
  let range := high c - low c + 1 in
  symhigh <- py_index 0 cum_freqs symbol ;;
  qh <- py_floordiv (symhigh * range) total ;;
  let new_high := low c + qh - 1 in
  symlow <- (if symbol >? 0 then py_index 0 cum_freqs (symbol - 1) else Ok 0) ;;
  ql <- py_floordiv (symlow * range) total ;;
  Ok {| low := low c + ql; high := new_high |}.

(** [ArithmeticCoderBase.update] *)
Definition update (cum_freqs : list Z) (symbol : Z) (s : Coder * X)
  : result (Coder * X) :=
  c1 <- narrow cum_freqs symbol (fst s) ;;
  '(c2, x2) <- shift_loop loop_fuel c1 (snd s) ;;
  underflow_loop loop_fuel c2 x2.
End Update.

(** ** Encoder *)

Record EncoderState : Type := mkEnc {
  encoded_data : list byte;
  enc_bit_index : Z;
  num_underflow : Z
}.

Definition Encoder : Type := (Coder * EncoderState)%type.

(** [Encoder.__init__] *)
Definition Encoder_init : Encoder :=
  (Coder_init, {| encoded_data := []; enc_bit_index := 8; num_underflow := 0 |}).

(** [Encoder.get_encoded] *)
Definition get_encoded (e : Encoder) : list byte := encoded_data (snd e).

(** [Encoder.append_bit] *)
Definition append_bit (bit : Z) (e : EncoderState) : result EncoderState :=
  let '(data, idx) :=
    if enc_bit_index e =? 8 then (encoded_data e ++ [x00], 0)
    else (encoded_data e, enc_bit_index e) in
  last_byte <- py_index x00 data (-1) ;;
  sh <- py_shiftl bit (7 - idx) ;;
  new_byte <- byte_of_Z (Z.lor (byte_to_Z last_byte) sh) ;;
  Ok {| encoded_data := removelast data ++ [new_byte];
        enc_bit_index := idx + 1;
        num_underflow := num_underflow e |}.

(** [for _ in range(n): self.append_bit(bit)] *)
Fixpoint append_bits (n : nat) (bit : Z) (e : EncoderState) : result EncoderState :=
  match n with
  | O => Ok e
  | S n' => e' <- append_bit bit e ;; append_bits n' bit e'
  end.

(** [Encoder.shift] *)
Definition Encoder_shift (c : Coder) (e : EncoderState) : result EncoderState :=
  let bit := Z.shiftr (low c) (NUM_STATE_BITS - 1) in
  e1 <- append_bit bit e ;;
  e2 <- append_bits (Z.to_nat (num_underflow e1)) (Z.lxor bit 1) e1 ;;
  Ok {| encoded_data := encoded_data e2;
        enc_bit_index := enc_bit_index e2;
        num_underflow := 0 |}.

(** [Encoder.underflow] *)
Definition Encoder_underflow (c : Coder) (e : EncoderState) : result EncoderState :=
  Ok {| encoded_data := encoded_data e;
        enc_bit_index := enc_bit_index e;
        num_underflow := num_underflow e + 1 |}.

#[export] Instance Encoder_hooks : CoderHooks EncoderState :=
  {| shift := Encoder_shift; underflow := Encoder_underflow |}.

(** [Encoder.encode_symbol] *)
Definition encode_symbol (cum_freqs : list Z) (symbol : Z) (e : Encoder)
  : result Encoder :=
  update cum_freqs symbol e.

(** [Encoder.finish] *)
Definition finish (e : Encoder) : result Encoder :=
  x <- append_bit 1 (snd e) ;; Ok (fst e, x).

(** ** Decoder *)

Record DecoderState : Type := mkDec {
  input : list byte;
  byte_index : Z;
  dec_bit_index : Z;
  code : Z
}.

Definition Decoder : Type := (Coder * DecoderState)%type.

(** [Decoder.read_code_bit]: the bit read and the advanced cursor. *)
Definition read_code_bit (d : DecoderState) : result (Z * DecoderState) :=
  if byte_index d >=? Z.of_nat (length (input d)) then Ok (0, d)
  else
    cur <- py_index x00 (input d) (byte_index d) ;;
    sh <- py_shiftr (byte_to_Z cur) (7 - dec_bit_index d) ;;
    let bit := Z.land sh 1 in
    let bit_index' := (dec_bit_index d + 1) mod 8 in
    let byte_index' := if bit_index' =? 0 then byte_index d + 1 else byte_index d in
    Ok (bit, {| input := input d; byte_index := byte_index';
                dec_bit_index := bit_index'; code := code d |}).

(** [sum(self.read_code_bit() << i for i in range(NUM_STATE_BITS - 1, -1, -1))]:
    [exps] lists the exponents in the order the generator visits them. *)
Fixpoint read_code (exps : list Z) (acc : Z) (d : DecoderState)
  : result (Z * DecoderState) :=
  match exps with
  | [] => Ok (acc, d)
  | i :: exps' =>
      '(bit, d') <- read_code_bit d ;;
      read_code exps' (acc + Z.shiftl bit i) d'
  end.

(** [range(NUM_STATE_BITS - 1, -1, -1)] *)
Definition code_exponents : list Z :=
  map (fun k => NUM_STATE_BITS - 1 - Z.of_nat k) (seq 0 (Z.to_nat NUM_STATE_BITS)).

(** [Decoder.__init__] *)
Definition Decoder_init (data : list byte) : result Decoder :=
  let d0 := {| input := data; byte_index := 0; dec_bit_index := 0; code := 0 |} in
  '(v, d1) <- read_code code_exponents 0 d0 ;;
  Ok (Coder_init, {| input := input d1; byte_index := byte_index d1;
                     dec_bit_index := dec_bit_index d1; code := v |}).

(** [Decoder.shift] *)
Definition Decoder_shift (c : Coder) (d : DecoderState) : result DecoderState :=
  '(bit, d') <- read_code_bit d ;;
  Ok {| input := input d'; byte_index := byte_index d';
        dec_bit_index := dec_bit_index d';
        code := Z.lor (Z.land (Z.shiftl (code d) 1) state_mask) bit |}.

(** [Decoder.underflow] *)
Definition Decoder_underflow (c : Coder) (d : DecoderState) : result DecoderState :=
  '(bit, d') <- read_code_bit d ;;
  Ok {| input := input d'; byte_index := byte_index d';
        dec_bit_index := dec_bit_index d';
        code := Z.lor (Z.lor (Z.land (code d) half_range)
                             (Z.land (Z.shiftl (code d) 1) (Z.shiftr state_mask 1)))
                      bit |}.

#[export] Instance Decoder_hooks : CoderHooks DecoderState :=
  {| shift := Decoder_shift; underflow := Decoder_underflow |}.

(** *** NumPy's view of Python ints

    [np.searchsorted] is given the sequence [cum_freqs] and the Python
    int [value], and turns both into arrays of one common dtype before
    it searches.  A Python int is [int64] when it fits, else [uint64]
    when it fits, else a Python object; [int64] and [uint64] together
    promote to [float64], an object with anything stays an object. *)
Inductive np_dtype : Type :=
| np_int64
| np_uint64
| np_float64
| np_object.

Definition pyint_dtype (x : Z) : np_dtype :=
  if (- 2 ^ 63 <=? x) && (x <? 2 ^ 63) then np_int64
  else if (0 <=? x) && (x <? 2 ^ 64) then np_uint64
  else np_object.

(** [np.promote_types] on these four. *)
Definition promote_types (a b : np_dtype) : np_dtype :=
  match a, b with
  | np_object, _ | _, np_object => np_object
  | np_float64, _ | _, np_float64 => np_float64
  | np_int64, np_int64 => np_int64
  | np_uint64, np_uint64 => np_uint64
  | np_int64, np_uint64 | np_uint64, np_int64 => np_float64
  end.

(** The dtype of [np.asarray(a)]; the empty array is [float64]. *)
Definition array_dtype (a : list Z) : np_dtype :=
  match a with
  | [] => np_float64
  | x :: a' => fold_left (fun d y => promote_types d (pyint_dtype y)) a' (pyint_dtype x)
  end.

(** The [float64] nearest to an integer: 53 significant bits, ties to
    even (the integers met here are below [2^64] in size, far from
    overflow). *)
Definition round_float64 (x : Z) : Z :=
  let n := Z.abs x in
  let k := Z.log2 n - 52 in
  if k <=? 0 then x
  else
    let q := n / 2 ^ k in
    let r := n mod 2 ^ k in
    let q' := if 2 * r <? 2 ^ k then q
              else if 2 * r =? 2 ^ k then (if Z.even q then q else q + 1)
              else q + 1 in
    Z.sgn x * (q' * 2 ^ k).

(** The value an integer has once it is stored with a dtype. *)
Definition np_cast (d : np_dtype) (x : Z) : Z :=
  match d with
  | np_float64 => round_float64 x
  | _ => x
  end.

(** NumPy's binary search for [side="right"] on a one-dimensional array
    and one key: it keeps [lo <= hi] and halves the window until it is
    empty. *)
Fixpoint binsearch_right (fuel : nat) (a : list Z) (v : Z) (lo hi : nat) : result nat :=
  if (lo <? hi)%nat then
    match fuel with
    | O => Err OutOfFuel
    | S fuel' =>
        let mid := (lo + Nat.div2 (hi - lo))%nat in
        if nth mid a 0 <=? v then binsearch_right fuel' a v (S mid) hi
        else binsearch_right fuel' a v lo mid
    end
  else Ok lo.

(** [np.searchsorted(a, v, side="right")] for a sequence of Python ints
    and a Python int key: the array is built with its own dtype, array
    and key are cast to the common dtype, and the search compares the
    cast values. *)
Definition searchsorted_right (a : list Z) (v : Z) : result Z :=
  let dtype := array_dtype a in
  let common := promote_types dtype (pyint_dtype v) in
  let arr := map (fun x => np_cast common (np_cast dtype x)) a in
  let key := np_cast common v in
  i <- binsearch_right (length arr) arr key 0%nat (length arr) ;; Ok (Z.of_nat i).

(** [Decoder.decode_symbol] *)
Definition decode_symbol (cum_freqs : list Z) (d : Decoder) : result (Z * Decoder) :=
  total <- py_index 0 cum_freqs (-1) ;;
  let range := high (fst d) - low (fst d) + 1 in
  let offset := code (snd d) - low (fst d) in
  value <- py_floordiv ((offset + 1) * total - 1) range ;;
  symbol <- searchsorted_right cum_freqs value ;;
  d' <- update cum_freqs symbol d ;;
  Ok (symbol, d').

(** ** Driving the coder over a whole sequence *)

Fixpoint encode_symbols (l : list (list Z * Z)) (e : Encoder) : result Encoder :=
  match l with
  | [] => Ok e
  | (cum_freqs, symbol) :: l' =>
      e' <- encode_symbol cum_freqs symbol e ;; encode_symbols l' e'
  end.

(** The same loop over [update] for any set of hooks. *)
Fixpoint update_all {X : Type} `{CoderHooks X} (l : list (list Z * Z))
         (s : Coder * X) : result (Coder * X) :=
  match l with
  | [] => Ok s
  | (cum_freqs, symbol) :: l' =>
      s' <- update cum_freqs symbol s ;; update_all l' s'
  end.

(** [Encoder()], one [encode_symbol] per pair, [finish], [get_encoded]. *)
Definition encode (l : list (list Z * Z)) : result (list byte) :=
  e <- encode_symbols l Encoder_init ;;
  e' <- finish e ;;
  Ok (get_encoded e').

Fixpoint decode_symbols (cdfs : list (list Z)) (d : Decoder)
  : result (list Z * Decoder) :=
  match cdfs with
  | [] => Ok ([], d)
  | cum_freqs :: cdfs' =>
      '(s, d') <- decode_symbol cum_freqs d ;;
      '(ss, d'') <- decode_symbols cdfs' d' ;;
      Ok (s :: ss, d'')
  end.

(** [Decoder(data)], then one [decode_symbol] per CDF. *)
Definition decode (data : list byte) (cdfs : list (list Z)) : result (list Z) :=
  d <- Decoder_init data ;;
  '(ss, _) <- decode_symbols cdfs d ;;
  Ok ss.



(** ** Bit operations on 64-bit values as arithmetic *)

Lemma half_range_eq : half_range = 2 ^ 63.
Proof. reflexivity. Qed.

Lemma quarter_range_eq : quarter_range = 2 ^ 62.
Proof. reflexivity. Qed.

Lemma state_mask_eq : state_mask = Z.ones 64.
Proof. reflexivity. Qed.

Lemma land_pow2 (x n : Z) :
  0 <= n -> Z.land x (2 ^ n) = if Z.testbit x n then 2 ^ n else 0.
Proof.
  intros Hn. apply Z.bits_inj'. intros m Hm.
  rewrite Z.land_spec, Z.pow2_bits_eqb by assumption.
  destruct (Z.eqb_spec n m) as [->|Hne].
  - destruct (Z.testbit x m); simpl.
    + now rewrite Z.pow2_bits_eqb, Z.eqb_refl.
    + now rewrite Z.bits_0.
  - rewrite andb_false_r. destruct (Z.testbit x n).
    + rewrite Z.pow2_bits_eqb by assumption.
      symmetry. now apply Z.eqb_neq.
    + now rewrite Z.bits_0.
Qed.

Lemma testbit_small (x n : Z) : 0 <= n -> 0 <= x < 2 ^ n -> Z.testbit x n = false.
Proof.
  intros Hn Hx. apply Z.testbit_false; [assumption|].
  now rewrite Z.div_small.
Qed.

Lemma testbit_large (x n : Z) :
  0 <= n -> 2 ^ n <= x < 2 ^ (n + 1) -> Z.testbit x n = true.
Proof.
  intros Hn Hx. apply Z.testbit_true; [assumption|].
  rewrite Z.pow_add_r, Z.pow_1_r in Hx by lia.
  assert (Hp : 0 < 2 ^ n) by (apply Z.pow_pos_nonneg; lia).
  assert (Hq : x / 2 ^ n = 1).
  { symmetry. apply (Z.div_unique x (2 ^ n) 1 (x - 2 ^ n)); lia. }
  now rewrite Hq.
Qed.

Lemma lor_pow2 (x n : Z) : 0 <= n -> 0 <= x < 2 ^ n -> Z.lor x (2 ^ n) = x + 2 ^ n.
Proof.
  intros Hn Hx.
  assert (H0 : Z.land x (2 ^ n) = 0).
  { rewrite land_pow2 by assumption. now rewrite testbit_small. }
  now rewrite <- Z.lxor_lor, <- Z.add_nocarry_lxor.
Qed.

Lemma lxor_pow2_clear (x n : Z) :
  0 <= n -> 0 <= x < 2 ^ n -> Z.lxor x (2 ^ n) = x + 2 ^ n.
Proof.
  intros Hn Hx.
  assert (H0 : Z.land x (2 ^ n) = 0).
  { rewrite land_pow2 by assumption. now rewrite testbit_small. }
  now rewrite <- Z.add_nocarry_lxor.
Qed.

Lemma lxor_pow2_set (x n : Z) :
  0 <= n -> 2 ^ n <= x < 2 ^ (n + 1) -> Z.lxor x (2 ^ n) = x - 2 ^ n.
Proof.
  intros Hn Hx.
  rewrite Z.pow_add_r, Z.pow_1_r in Hx by lia.
  replace x with (Z.lxor (x - 2 ^ n) (2 ^ n)) at 1
    by (rewrite lxor_pow2_clear by lia; lia).
  now rewrite Z.lxor_assoc, Z.lxor_nilpotent, Z.lxor_0_r.
Qed.

Lemma lor_one_even (x : Z) : x mod 2 = 0 -> Z.lor x 1 = x + 1.
Proof.
  intros Hx.
  assert (H0 : Z.land x 1 = 0).
  { change 1 with (Z.ones 1). rewrite Z.land_ones by lia. exact Hx. }
  now rewrite <- Z.lxor_lor, <- Z.add_nocarry_lxor.
Qed.

Lemma lor_bit_even (x b : Z) : x mod 2 = 0 -> 0 <= b <= 1 -> Z.lor x b = x + b.
Proof.
  intros Hx Hb. assert (Hc : b = 0 \/ b = 1) by lia.
  destruct Hc as [-> | ->].
  - rewrite Z.lor_0_r. lia.
  - now apply lor_one_even.
Qed.

(** The two loop guards, read off the top two bits. *)
Definition top_equal (c : Coder) : bool :=
  Z.land (Z.lxor (low c) (high c)) half_range =? 0.

Definition straddles (c : Coder) : bool :=
  negb (Z.land (Z.land (low c) (Z.lnot (high c))) quarter_range =? 0).

Definition shift_step (c : Coder) : Coder :=
  {| low := Z.land (Z.shiftl (low c) 1) state_mask;
     high := Z.lor (Z.land (Z.shiftl (high c) 1) state_mask) 1 |}.

Definition underflow_step (c : Coder) : Coder :=
  {| low := Z.lxor (Z.shiftl (low c) 1) half_range;
     high := Z.lor (Z.lor (Z.shiftl (Z.lxor (high c) half_range) 1) half_range) 1 |}.

Lemma top_equal_bits (c : Coder) :
  top_equal c = Bool.eqb (Z.testbit (low c) 63) (Z.testbit (high c) 63).
Proof.
  unfold top_equal. rewrite half_range_eq, land_pow2 by lia.
  rewrite Z.lxor_spec.
  destruct (Z.testbit (low c) 63), (Z.testbit (high c) 63); reflexivity.
Qed.

Lemma straddles_bits (c : Coder) :
  straddles c = Z.testbit (low c) 62 && negb (Z.testbit (high c) 62).
Proof.
  unfold straddles. rewrite quarter_range_eq, land_pow2 by lia.
  rewrite Z.land_spec, Z.lnot_spec by lia.
  destruct (Z.testbit (low c) 62), (Z.testbit (high c) 62); reflexivity.
Qed.

Lemma testbit_63 (x : Z) : 0 <= x < 2 ^ 64 -> Z.testbit x 63 = (2 ^ 63 <=? x).
Proof.
  intros Hx. destruct (Z.leb_spec (2 ^ 63) x).
  - apply testbit_large; lia.
  - apply testbit_small; lia.
Qed.

Lemma testbit_62_low (x : Z) : 0 <= x < 2 ^ 63 -> Z.testbit x 62 = (2 ^ 62 <=? x).
Proof.
  intros Hx. destruct (Z.leb_spec (2 ^ 62) x).
  - apply testbit_large; lia.
  - apply testbit_small; lia.
Qed.

Lemma testbit_62_high (x : Z) :
  2 ^ 63 <= x < 2 ^ 64 -> Z.testbit x 62 = (2 ^ 63 + 2 ^ 62 <=? x).
Proof.
  intros Hx.
  replace x with (Z.lxor (x - 2 ^ 63) (2 ^ 63))
    by (rewrite lxor_pow2_clear by lia; lia).
  rewrite Z.lxor_spec, Z.pow2_bits_eqb by lia. simpl (63 =? 62).
  rewrite xorb_false_r, lxor_pow2_clear by lia.
  destruct (Z.leb_spec (2 ^ 63 + 2 ^ 62) (x - 2 ^ 63 + 2 ^ 63)).
  - apply testbit_large; lia.
  - apply testbit_small; lia.
Qed.

Lemma shl1_mask (x : Z) : Z.land (Z.shiftl x 1) state_mask = (2 * x) mod 2 ^ 64.
Proof.
  rewrite state_mask_eq, Z.land_ones, Z.shiftl_mul_pow2 by lia.
  f_equal. lia.
Qed.

(** ** The interval invariants *)

(** Registers hold 64-bit values and the interval is not empty. *)
Definition in_range (c : Coder) : Prop :=
  0 <= low c /\ low c <= high c /\ high c < 2 ^ 64.

(** The interval contains the midpoint: the top bits differ. *)
Definition split (c : Coder) : Prop := 0 <= low c < 2 ^ 63 /\ 2 ^ 63 <= high c < 2 ^ 64.

(** What holds between two calls of [update]. *)
Definition normalized (c : Coder) : Prop :=
  split c /\ (low c < 2 ^ 62 \/ 2 ^ 63 + 2 ^ 62 <= high c).

Lemma top_equal_in_range (c : Coder) :
  in_range c -> top_equal c = (high c <? 2 ^ 63) || (2 ^ 63 <=? low c).
Proof.
  unfold in_range. intros Hc. rewrite top_equal_bits, !testbit_63 by lia.
  destruct (Z.leb_spec (2 ^ 63) (low c)), (Z.leb_spec (2 ^ 63) (high c)),
    (Z.ltb_spec (high c) (2 ^ 63)); simpl; try reflexivity; lia.
Qed.

Lemma shift_step_in_range (c : Coder) :
  in_range c -> top_equal c = true ->
  (high c < 2 ^ 63 /\ low (shift_step c) = 2 * low c
   /\ high (shift_step c) = 2 * high c + 1)
  \/ (2 ^ 63 <= low c /\ low (shift_step c) = 2 * low c - 2 ^ 64
      /\ high (shift_step c) = 2 * high c - 2 ^ 64 + 1).
Proof.
  intros Hc Ht. rewrite top_equal_in_range in Ht by assumption.
  unfold in_range in Hc. unfold shift_step; cbn [low high]. rewrite !shl1_mask.
  assert (He : forall y, ((2 * y) mod 2 ^ 64) mod 2 = 0).
  { intros y. change (2 ^ 64) with (2 * 2 ^ 63).
    rewrite Z.mul_mod_distr_l by lia.
    rewrite Z.mul_comm. apply Z.mod_mul. lia. }
  rewrite lor_one_even by apply He.
  apply orb_true_iff in Ht. destruct Ht as [Ht|Ht]; [left|right].
  - apply Z.ltb_lt in Ht. rewrite !Z.mod_small by lia. lia.
  - apply Z.leb_le in Ht. split; [assumption|].
    rewrite <- (Z.mod_unique (2 * low c) (2 ^ 64) 1 (2 * low c - 2 ^ 64)) by lia.
    rewrite <- (Z.mod_unique (2 * high c) (2 ^ 64) 1 (2 * high c - 2 ^ 64)) by lia.
    lia.
Qed.

Lemma straddles_split (c : Coder) :
  split c -> straddles c = (2 ^ 62 <=? low c) && (high c <? 2 ^ 63 + 2 ^ 62).
Proof.
  unfold split. intros Hc.
  rewrite straddles_bits, testbit_62_low, testbit_62_high by lia.
  f_equal. destruct (Z.leb_spec (2 ^ 63 + 2 ^ 62) (high c)),
    (Z.ltb_spec (high c) (2 ^ 63 + 2 ^ 62)); simpl; try reflexivity; lia.
Qed.

Lemma underflow_step_split (c : Coder) :
  split c -> straddles c = true ->
  2 ^ 62 <= low c /\ high c < 2 ^ 63 + 2 ^ 62
  /\ low (underflow_step c) = 2 * low c - 2 ^ 63
  /\ high (underflow_step c) = 2 * high c - 2 ^ 63 + 1.
Proof.
  intros Hc Hs. rewrite straddles_split in Hs by assumption.
  unfold split in Hc. apply andb_true_iff in Hs. destruct Hs as [Hl Hh].
  apply Z.leb_le in Hl. apply Z.ltb_lt in Hh.
  unfold underflow_step; cbn [low high]. rewrite half_range_eq.
  rewrite !Z.shiftl_mul_pow2 by lia. rewrite Z.pow_1_r.
  repeat split; try assumption.
  - rewrite lxor_pow2_set by lia. lia.
  - rewrite lxor_pow2_set by lia. rewrite lor_pow2 by lia.
    rewrite lor_one_even; [lia|].
    replace ((high c - 2 ^ 63) * 2 + 2 ^ 63) with ((high c - 2 ^ 63 + 2 ^ 62) * 2) by lia.
    apply Z.mod_mul. lia.
Qed.

Lemma shift_step_preserves (c : Coder) :
  in_range c -> top_equal c = true ->
  in_range (shift_step c)
  /\ high (shift_step c) - low (shift_step c) + 1 = 2 * (high c - low c + 1).
Proof.
  intros Hc Ht. destruct (shift_step_in_range c Hc Ht) as [H|H];
    unfold in_range in *; lia.
Qed.

Lemma underflow_step_preserves (c : Coder) :
  split c -> straddles c = true ->
  split (underflow_step c)
  /\ high (underflow_step c) - low (underflow_step c) + 1 = 2 * (high c - low c + 1).
Proof.
  intros Hc Hs. destruct (underflow_step_split c Hc Hs) as (H1 & H2 & H3 & H4).
  unfold split in *. lia.
Qed.

Lemma in_range_split (c : Coder) : in_range c -> top_equal c = false -> split c.
Proof.
  intros Hc Ht. rewrite top_equal_in_range in Ht by assumption.
  apply orb_false_iff in Ht. destruct Ht as [H1 H2].
  apply Z.ltb_ge in H1. apply Z.leb_gt in H2.
  unfold in_range in Hc. unfold split. lia.
Qed.

Lemma split_normalized (c : Coder) : split c -> straddles c = false -> normalized c.
Proof.
  intros Hc Hs. split; [assumption|].
  rewrite straddles_split in Hs by assumption.
  apply andb_false_iff in Hs. destruct Hs as [Hs|Hs].
  - apply Z.leb_gt in Hs. now left.
  - apply Z.ltb_ge in Hs. now right.
Qed.

Lemma split_in_range (c : Coder) : split c -> in_range c.
Proof. unfold split, in_range. lia. Qed.

Lemma normalized_range (c : Coder) :
  normalized c -> 2 ^ 62 + 2 <= high c - low c + 1.
Proof. unfold normalized, split. lia. Qed.

Lemma Coder_init_normalized : normalized Coder_init.
Proof.
  unfold normalized, split, Coder_init; cbn [low high].
  change state_mask with (2 ^ 64 - 1). lia.
Qed.

(** ** Loop rules: both loops terminate within [loop_fuel] iterations *)

Section LoopRules.
Context {X : Type} `{CoderHooks X}.
Variable P : Coder -> X -> Prop.

Lemma shift_loop_S (fuel : nat) (c : Coder) (x : X) :
  shift_loop (S fuel) c x =
  if top_equal c then x' <- shift c x ;; shift_loop fuel (shift_step c) x'
  else Ok (c, x).
Proof. reflexivity. Qed.

Lemma underflow_loop_S (fuel : nat) (c : Coder) (x : X) :
  underflow_loop (S fuel) c x =
  if straddles c then x' <- underflow c x ;; underflow_loop fuel (underflow_step c) x'
  else Ok (c, x).
Proof. reflexivity. Qed.

Lemma update_eq (cum_freqs : list Z) (symbol : Z) (c : Coder) (x : X) :
  update cum_freqs symbol (c, x) =
  (c1 <- narrow cum_freqs symbol c ;;
   '(c2, x2) <- shift_loop loop_fuel c1 x ;;
   underflow_loop loop_fuel c2 x2).
Proof. reflexivity. Qed.

Hypothesis shift_ok : forall c x,
  in_range c -> top_equal c = true -> P c x ->
  exists x', shift c x = Ok x' /\ P (shift_step c) x'.

Lemma shift_loop_rule_aux (n : nat) : forall c x,
  in_range c -> 2 ^ 64 <= (high c - low c + 1) * 2 ^ Z.of_nat n -> P c x ->
  exists c' x', shift_loop (S n) c x = Ok (c', x')
                /\ in_range c' /\ top_equal c' = false /\ P c' x'.
Proof.
  induction n as [|n IH]; intros c x Hc Hfuel HP; rewrite shift_loop_S.
  - destruct (top_equal c) eqn:Ht.
    + exfalso. rewrite top_equal_in_range in Ht by assumption.
      unfold in_range in Hc. simpl in Hfuel.
      apply orb_true_iff in Ht. destruct Ht as [Ht|Ht];
        [apply Z.ltb_lt in Ht | apply Z.leb_le in Ht]; lia.
    + exists c, x. auto.
  - destruct (top_equal c) eqn:Ht.
    + destruct (shift_ok c x Hc Ht HP) as (x' & Hx' & HP').
      rewrite Hx', bind_Ok.
      destruct (shift_step_preserves c Hc Ht) as [Hc' Hr].
      apply IH; try assumption.
      rewrite Hr. rewrite Nat2Z.inj_succ, Z.pow_succ_r in Hfuel by lia. lia.
    + exists c, x. auto.
Qed.

Lemma shift_loop_rule (c : Coder) (x : X) :
  in_range c -> P c x ->
  exists c' x', shift_loop loop_fuel c x = Ok (c', x')
                /\ split c' /\ P c' x'.
Proof.
  intros Hc HP.
  destruct (shift_loop_rule_aux 64 c x Hc) as (c' & x' & Hrun & Hc' & Ht & HP');
    [unfold in_range in Hc; change (2 ^ Z.of_nat 64) with (2 ^ 64); lia
    |assumption|].
  exists c', x'. auto using in_range_split.
Qed.

Variable Q : Coder -> X -> Prop.

Hypothesis underflow_ok : forall c x,
  split c -> straddles c = true -> Q c x ->
  exists x', underflow c x = Ok x' /\ Q (underflow_step c) x'.

Lemma underflow_loop_rule_aux (n : nat) : forall c x,
  split c -> 2 ^ 64 <= (high c - low c + 1) * 2 ^ Z.of_nat n -> Q c x ->
  exists c' x', underflow_loop (S n) c x = Ok (c', x')
                /\ split c' /\ straddles c' = false /\ Q c' x'.
Proof.
  induction n as [|n IH]; intros c x Hc Hfuel HP; rewrite underflow_loop_S.
  - destruct (straddles c) eqn:Ht.
    + exfalso. rewrite straddles_split in Ht by assumption.
      unfold split in Hc. simpl in Hfuel.
      apply andb_true_iff in Ht. destruct Ht as [Ht1 Ht2].
      apply Z.ltb_lt in Ht2. apply Z.leb_le in Ht1. lia.
    + exists c, x. auto.
  - destruct (straddles c) eqn:Ht.
    + destruct (underflow_ok c x Hc Ht HP) as (x' & Hx' & HP').
      rewrite Hx', bind_Ok.
      destruct (underflow_step_preserves c Hc Ht) as [Hc' Hr].
      apply IH; try assumption.
      rewrite Hr. rewrite Nat2Z.inj_succ, Z.pow_succ_r in Hfuel by lia. lia.
    + exists c, x. auto.
Qed.

Lemma underflow_loop_rule (c : Coder) (x : X) :
  split c -> Q c x ->
  exists c' x', underflow_loop loop_fuel c x = Ok (c', x')
                /\ normalized c' /\ Q c' x'.
Proof.
  intros Hc HP.
  destruct (underflow_loop_rule_aux 64 c x Hc) as (c' & x' & Hrun & Hc' & Ht & HP');
    [unfold split in Hc; change (2 ^ Z.of_nat 64) with (2 ^ 64); lia
    |assumption|].
  exists c', x'. auto using split_normalized.
Qed.
End LoopRules.

(** ** Cumulative frequency vectors *)

(** [c[0] <= c[1] <= ...], every entry at least [prev]. *)
Fixpoint nondecreasing_from (prev : Z) (c : list Z) : bool :=
  match c with
  | [] => true
  | x :: c' => (prev <=? x) && nondecreasing_from x c'
  end.

(** A CDF as the data model has it: non-negative, non-decreasing, with a
    positive last entry (so it is not empty). *)
Definition cdf_wf (c : list Z) : Prop :=
  nondecreasing_from 0 c = true /\ 0 < last c 0.

(** [c[i]] with the convention [c[-1] = 0]. *)
Definition cum (c : list Z) (i : Z) : Z :=
  if i <? 0 then 0 else nth (Z.to_nat i) c 0.

(** The symbol has a non-empty interval [c[s-1], c[s]). *)
Definition in_support (c : list Z) (s : Z) : Prop :=
  (0 <= s /\ s < Z.of_nat (length c)) /\ cum c (s - 1) < cum c s.

Lemma nondecreasing_from_nth (c : list Z) : forall prev i j,
  nondecreasing_from prev c = true -> (i <= j < length c)%nat ->
  prev <= nth i c 0 /\ nth i c 0 <= nth j c 0.
Proof.
  induction c as [|x c IH]; intros prev i j Hc Hij; simpl in *; [lia|].
  apply andb_true_iff in Hc. destruct Hc as [Hx Hc]. apply Z.leb_le in Hx.
  destruct i as [|i], j as [|j]; try lia.
  - destruct (IH x 0%nat j Hc) as [H1 H2]; [lia|].
    destruct c; simpl in *; lia.
  - destruct (IH x i j Hc); lia.
Qed.

Lemma last_nth_pred (c : list Z) : last c 0 = nth (length c - 1) c 0.
Proof.
  induction c as [|x c IH]; [reflexivity|].
  destruct c as [|y c]; [reflexivity|].
  change (last (x :: y :: c) 0) with (last (y :: c) 0). rewrite IH.
  simpl. now rewrite Nat.sub_0_r.
Qed.

Lemma cdf_wf_length (c : list Z) : cdf_wf c -> (0 < length c)%nat.
Proof. intros [_ H]. destruct c; simpl in *; lia. Qed.

Lemma cum_last (c : list Z) :
  (0 < length c)%nat -> cum c (Z.of_nat (length c) - 1) = last c 0.
Proof.
  intros Hl. unfold cum. destruct (Z.ltb_spec (Z.of_nat (length c) - 1) 0); [lia|].
  rewrite last_nth_pred. f_equal. lia.
Qed.

Lemma cum_mono (c : list Z) (i j : Z) :
  cdf_wf c -> -1 <= i -> i <= j -> j < Z.of_nat (length c) ->
  0 <= cum c i /\ cum c i <= cum c j.
Proof.
  intros [Hc _] Hi Hij Hj. unfold cum.
  destruct (Z.ltb_spec i 0), (Z.ltb_spec j 0); try lia.
  - destruct (nondecreasing_from_nth c 0 (Z.to_nat j) (Z.to_nat j) Hc); lia.
  - destruct (nondecreasing_from_nth c 0 (Z.to_nat i) (Z.to_nat j) Hc); lia.
Qed.

Lemma cum_le_last (c : list Z) (i : Z) :
  cdf_wf c -> -1 <= i -> i < Z.of_nat (length c) -> 0 <= cum c i <= last c 0.
Proof.
  intros Hc Hi Hl. pose proof (cdf_wf_length c Hc) as Hlen.
  rewrite <- cum_last by assumption.
  destruct (cum_mono c i (Z.of_nat (length c) - 1) Hc); lia.
Qed.

Lemma py_index_last (c : list Z) :
  (0 < length c)%nat -> py_index 0 c (-1) = Ok (last c 0).
Proof.
  intros Hl. unfold py_index.
  destruct (Z.leb_spec 0 (-1)); [lia|]. cbn [andb].
  destruct (Z.leb_spec (- Z.of_nat (length c)) (-1)); [|lia].
  destruct (Z.ltb_spec (-1) 0); [|lia]. cbn [andb].
  rewrite last_nth_pred. do 2 f_equal. lia.
Qed.

Lemma py_index_cum (c : list Z) (i : Z) :
  0 <= i < Z.of_nat (length c) -> py_index 0 c i = Ok (cum c i).
Proof.
  intros Hi. unfold py_index, cum.
  destruct (Z.leb_spec 0 i); [|lia].
  destruct (Z.ltb_spec i (Z.of_nat (length c))); [|lia].
  destruct (Z.ltb_spec i 0); [lia|]. reflexivity.
Qed.

(** ** The narrowing step *)

Definition narrowed (cum_freqs : list Z) (symbol : Z) (c : Coder) : Coder :=
  let range := high c - low c + 1 in
  {| low := low c + cum cum_freqs (symbol - 1) * range / last cum_freqs 0;
     high := low c + cum cum_freqs symbol * range / last cum_freqs 0 - 1 |}.

Lemma narrow_narrowed (cum_freqs : list Z) (symbol : Z) (c : Coder) :
  0 <= symbol < Z.of_nat (length cum_freqs) -> last cum_freqs 0 <> 0 ->
  narrow cum_freqs symbol c = Ok (narrowed cum_freqs symbol c).
Proof.
  intros Hs Ht. unfold narrow.
  rewrite py_index_last by lia. cbn [bind].
  rewrite py_index_cum by assumption. cbn [bind].
  unfold py_floordiv. destruct (Z.eqb_spec (last cum_freqs 0) 0); [contradiction|].
  cbn [bind].
  assert (Hlow : (if symbol >? 0 then py_index 0 cum_freqs (symbol - 1) else Ok 0)
                 = Ok (cum cum_freqs (symbol - 1))).
  { destruct (Z.gtb_spec symbol 0).
    - apply py_index_cum. lia.
    - unfold cum. destruct (Z.ltb_spec (symbol - 1) 0); [reflexivity|lia]. }
  rewrite Hlow. reflexivity.
Qed.

Lemma scaled_interval (a b t r : Z) :
  0 <= a -> a < b -> b <= t -> 0 < t -> t <= r ->
  0 <= a * r / t /\ a * r / t + 1 <= b * r / t /\ b * r / t <= r.
Proof.
  intros Ha Hab Hbt Ht Htr. repeat split.
  - apply Z.div_pos; nia.
  - replace (a * r / t + 1) with ((a * r + 1 * t) / t)
      by (rewrite Z.div_add by lia; reflexivity).
    apply Z.div_le_mono; nia.
  - apply Z.div_le_upper_bound; nia.
Qed.

Lemma narrowed_in_range (cum_freqs : list Z) (symbol : Z) (c : Coder) :
  cdf_wf cum_freqs -> in_support cum_freqs symbol -> in_range c ->
  last cum_freqs 0 <= high c - low c + 1 ->
  in_range (narrowed cum_freqs symbol c)
  /\ low c <= low (narrowed cum_freqs symbol c)
  /\ high (narrowed cum_freqs symbol c) <= high c.
Proof.
  intros Hwf [Hs Hsup] Hc Ht.
  destruct (cum_le_last cum_freqs symbol Hwf) as [_ H1]; try lia.
  destruct (cum_le_last cum_freqs (symbol - 1) Hwf) as [H2 _]; try lia.
  destruct Hwf as [_ Hpos].
  destruct (scaled_interval (cum cum_freqs (symbol - 1)) (cum cum_freqs symbol)
              (last cum_freqs 0) (high c - low c + 1)) as (Ha & Hb & Hd);
    try assumption.
  unfold in_range in *. unfold narrowed; cbn [low high]. lia.
Qed.

(** [update] returns, and takes an invariant of both hooks from the
    narrowed interval to the normalised one. *)
Lemma update_rule {X : Type} {HX : CoderHooks X} (P : Coder -> X -> Prop)
      (cum_freqs : list Z) (symbol : Z) (c : Coder) (x : X) :
  (forall c x, in_range c -> top_equal c = true -> P c x ->
               exists x', shift c x = Ok x' /\ P (shift_step c) x') ->
  (forall c x, split c -> straddles c = true -> P c x ->
               exists x', underflow c x = Ok x' /\ P (underflow_step c) x') ->
  0 <= symbol < Z.of_nat (length cum_freqs) -> last cum_freqs 0 <> 0 ->
  in_range (narrowed cum_freqs symbol c) ->
  P (narrowed cum_freqs symbol c) x ->
  exists c' x', update cum_freqs symbol (c, x) = Ok (c', x')
                /\ normalized c' /\ P c' x'.
Proof.
  intros Hshift Hunder Hs Ht Hn HP.
  rewrite update_eq, narrow_narrowed, bind_Ok by assumption.
  destruct (shift_loop_rule P Hshift _ x Hn HP) as (c2 & x2 & Hrun2 & Hc2 & HP2).
  rewrite Hrun2, bind_Ok.
  exact (underflow_loop_rule P Hunder c2 x2 Hc2 HP2).
Qed.

(** ** The emitted bit sequence

    The encoder's output abstracted to the list of bits it has written
    and the number of pending underflow bits; the byte buffer is related
    to it further down. *)

Definition TraceState : Type := (list bool * nat)%type.

Definition top_bit (c : Coder) : bool := Z.testbit (low c) 63.

Definition Trace_shift (c : Coder) (t : TraceState) : result TraceState :=
  Ok (fst t ++ top_bit c :: repeat (negb (top_bit c)) (snd t), O).

Definition Trace_underflow (c : Coder) (t : TraceState) : result TraceState :=
  Ok (fst t, S (snd t)).

Definition Trace_hooks : CoderHooks TraceState :=
  {| shift := Trace_shift; underflow := Trace_underflow |}.

(** ** Simulation between two sets of hooks *)

Section Simulation.
Context {X Y : Type} (HX : CoderHooks X) (HY : CoderHooks Y).
Variable R : Coder -> X -> Y -> Prop.

Hypothesis shift_sim : forall c x y x',
  in_range c -> top_equal c = true -> R c x y ->
  @shift X HX c x = Ok x' ->
  exists y', @shift Y HY c y = Ok y' /\ R (shift_step c) x' y'.

Hypothesis underflow_sim : forall c x y x',
  split c -> straddles c = true -> R c x y ->
  @underflow X HX c x = Ok x' ->
  exists y', @underflow Y HY c y = Ok y' /\ R (underflow_step c) x' y'.

Lemma shift_loop_sim (fuel : nat) : forall c x y c' x',
  in_range c -> R c x y ->
  @shift_loop X HX fuel c x = Ok (c', x') ->
  exists y', @shift_loop Y HY fuel c y = Ok (c', y') /\ R c' x' y' /\ in_range c'
             /\ top_equal c' = false.
Proof.
  induction fuel as [|fuel IH]; intros c x y c' x' Hc HR Hrun; [discriminate|].
  rewrite (@shift_loop_S X HX) in Hrun. rewrite (@shift_loop_S Y HY).
  destruct (top_equal c) eqn:Ht.
  - destruct (@shift X HX c x) as [x1|] eqn:Hx; [|discriminate].
    rewrite bind_Ok in Hrun.
    destruct (shift_sim c x y x1 Hc Ht HR Hx) as (y1 & Hy & HR1).
    rewrite Hy, bind_Ok.
    apply (IH _ x1); try assumption.
    now apply shift_step_preserves.
  - inversion Hrun; subst. exists y. auto.
Qed.

Lemma underflow_loop_sim (fuel : nat) : forall c x y c' x',
  split c -> R c x y ->
  @underflow_loop X HX fuel c x = Ok (c', x') ->
  exists y', @underflow_loop Y HY fuel c y = Ok (c', y') /\ R c' x' y'
             /\ normalized c'.
Proof.
  induction fuel as [|fuel IH]; intros c x y c' x' Hc HR Hrun; [discriminate|].
  rewrite (@underflow_loop_S X HX) in Hrun. rewrite (@underflow_loop_S Y HY).
  destruct (straddles c) eqn:Ht.
  - destruct (@underflow X HX c x) as [x1|] eqn:Hx; [|discriminate].
    rewrite bind_Ok in Hrun.
    destruct (underflow_sim c x y x1 Hc Ht HR Hx) as (y1 & Hy & HR1).
    rewrite Hy, bind_Ok.
    apply (IH _ x1); try assumption.
    now apply underflow_step_preserves.
  - inversion Hrun; subst. exists y. auto using split_normalized.
Qed.

(** [update] with the second set of hooks follows the first, provided
    the narrowed interval is not empty. *)
Lemma update_sim (cum_freqs : list Z) (symbol : Z) (c : Coder) (x : X) (y : Y)
      (c' : Coder) (x' : X) :
  0 <= symbol < Z.of_nat (length cum_freqs) -> last cum_freqs 0 <> 0 ->
  in_range (narrowed cum_freqs symbol c) ->
  R (narrowed cum_freqs symbol c) x y ->
  @update X HX cum_freqs symbol (c, x) = Ok (c', x') ->
  exists y', @update Y HY cum_freqs symbol (c, y) = Ok (c', y') /\ R c' x' y'
             /\ normalized c'.
Proof.
  intros Hs Ht Hn HR Hrun.
  rewrite (@update_eq X HX) in Hrun. rewrite (@update_eq Y HY).
  rewrite narrow_narrowed in Hrun |- * by assumption.
  rewrite bind_Ok in Hrun. rewrite bind_Ok.
  apply bind_inv in Hrun. destruct Hrun as ([c2 x2] & Hs2 & Hrun).
  destruct (shift_loop_sim _ _ _ y _ _ Hn HR Hs2) as (y2 & Hy2 & HR2 & Hc2 & Ht2).
  rewrite Hy2, bind_Ok.
  exact (underflow_loop_sim _ _ x2 y2 _ _ (in_range_split _ Hc2 Ht2) HR2 Hrun).
Qed.
End Simulation.

(** ** States reachable through [update] *)

(** CDFs the coder is fed by [compute_cdf]: the total is about [2^32],
    far below the smallest width [2^62 + 2] of a normalised interval. *)
Definition cdf_bounded (c : list Z) : Prop := cdf_wf c /\ last c 0 <= 2 ^ 62.

Section Reachable.
Context {X : Type} {HX : CoderHooks X}.
Variable admissible : list Z -> Prop.

(** The states a coder object goes through: created by [__init__], then
    any number of [update] calls that returned, each with an admissible
    CDF and a symbol of its support. *)
Inductive reachable : Coder * X -> Prop :=
| reachable_init (x : X) : reachable (Coder_init, x)
| reachable_update (s s' : Coder * X) (cum_freqs : list Z) (symbol : Z) :
    reachable s -> admissible cum_freqs -> in_support cum_freqs symbol ->
    update cum_freqs symbol s = Ok s' -> reachable s'.
End Reachable.

Lemma in_support_index (cum_freqs : list Z) (symbol : Z) :
  cdf_wf cum_freqs -> in_support cum_freqs symbol ->
  0 <= symbol < Z.of_nat (length cum_freqs) /\ last cum_freqs 0 <> 0.
Proof. intros [_ Hpos] [Hs _]. lia. Qed.

Lemma update_normalized {X : Type} {HX : CoderHooks X}
      (cum_freqs : list Z) (symbol : Z) (s s' : Coder * X) :
  cdf_bounded cum_freqs -> in_support cum_freqs symbol -> normalized (fst s) ->
  update cum_freqs symbol s = Ok s' -> normalized (fst s').
Proof.
  intros [Hwf Hb] Hsup Hn Hrun. destruct s as [c x], s' as [c' x'].
  cbn [fst] in *.
  pose proof (normalized_range c Hn) as Hr.
  destruct (in_support_index cum_freqs symbol Hwf Hsup) as [Hi Ht].
  destruct (narrowed_in_range cum_freqs symbol c Hwf Hsup) as (Hnr & _);
    [apply split_in_range, Hn|lia|].
  destruct (update_sim HX Trace_hooks (fun _ _ _ => True)) with
    (cum_freqs := cum_freqs) (symbol := symbol) (c := c) (x := x)
    (y := (@nil bool, O)) (c' := c') (x' := x') as (y' & _ & _ & Hn');
    try assumption; try exact I.
  - intros c0 x0 y0 x1 _ _ _ _. eexists. split; [reflexivity|exact I].
  - intros c0 x0 y0 x1 _ _ _ _. eexists. split; [reflexivity|exact I].
Qed.

Lemma reachable_normalized {X : Type} {HX : CoderHooks X} (s : Coder * X) :
  reachable cdf_bounded s -> normalized (fst s).
Proof.
  induction 1 as [x|s s' cum_freqs symbol Hs IH Hcdf Hsup Hrun].
  - exact Coder_init_normalized.
  - exact (update_normalized cum_freqs symbol s s' Hcdf Hsup IH Hrun).
Qed.

(** ** [np.searchsorted(..., side="right")] on a sorted array *)

Lemma div2_lt (n : nat) : (0 < n)%nat -> (Nat.div2 n < n)%nat.
Proof. intros Hn. apply Nat.lt_div2. exact Hn. Qed.

Lemma binsearch_right_spec (a : list Z) (v : Z) :
  (forall i j, (i <= j < length a)%nat -> nth i a 0 <= nth j a 0) ->
  forall fuel lo hi,
    (lo <= hi <= length a)%nat -> (hi - lo <= fuel)%nat ->
    (forall i, (i < lo)%nat -> nth i a 0 <= v) ->
    (forall i, (hi <= i < length a)%nat -> v < nth i a 0) ->
    exists r, binsearch_right fuel a v lo hi = Ok r
              /\ (r <= length a)%nat
              /\ (forall i, (i < r)%nat -> nth i a 0 <= v)
              /\ (forall i, (r <= i < length a)%nat -> v < nth i a 0).
Proof.
  intros Hsorted. induction fuel as [|fuel IH]; intros lo hi Hlh Hfuel Hlo Hhi.
  - assert (lo = hi) by lia. subst hi. cbn [binsearch_right].
    rewrite Nat.ltb_irrefl. exists lo. repeat split; auto; lia.
  - cbn [binsearch_right]. destruct (Nat.ltb_spec lo hi) as [Hlt|Hge].
    + assert (Hd : (Nat.div2 (hi - lo) < hi - lo)%nat) by (apply div2_lt; lia).
      remember (Nat.div2 (hi - lo)) as half eqn:Ehalf. clear Ehalf.
      remember (lo + half)%nat as mid eqn:Emid.
      assert (Hmid : (lo <= mid < hi)%nat) by lia.
      destruct (Z.leb_spec (nth mid a 0) v) as [Hle|Hgt].
      * apply IH; try lia; try assumption.
        intros i Hi. transitivity (nth mid a 0); [apply Hsorted; lia|assumption].
      * apply IH; try lia; try assumption.
        intros i Hi. destruct (Nat.lt_ge_cases i hi) as [Hih|Hih].
        -- apply Z.lt_le_trans with (nth mid a 0); [assumption|apply Hsorted; lia].
        -- apply Hhi. lia.
    + assert (lo = hi) by lia. subst hi.
      exists lo. repeat split; auto; lia.
Qed.

Lemma cdf_entries (c : list Z) (x : Z) :
  cdf_wf c -> In x c -> 0 <= x <= last c 0.
Proof.
  intros [Hnd _] Hin. destruct (In_nth c x 0 Hin) as (i & Hi & <-).
  rewrite last_nth_pred.
  apply (nondecreasing_from_nth c 0 i (length c - 1) Hnd). lia.
Qed.

Lemma pyint_dtype_int64 (x : Z) : - 2 ^ 63 <= x < 2 ^ 63 -> pyint_dtype x = np_int64.
Proof.
  intros Hx. unfold pyint_dtype.
  destruct (Z.leb_spec (- 2 ^ 63) x); [|lia].
  destruct (Z.ltb_spec x (2 ^ 63)); [reflexivity|lia].
Qed.

Lemma array_dtype_int64 (a : list Z) :
  a <> [] -> Forall (fun x => - 2 ^ 63 <= x < 2 ^ 63) a -> array_dtype a = np_int64.
Proof.
  destruct a as [|x a]; [contradiction|]. intros _ Hall.
  inversion Hall as [|? ? Hx Ha]; subst. cbn [array_dtype].
  rewrite (pyint_dtype_int64 x Hx). clear Hall Hx.
  induction Ha as [|y a Hy _ IH]; [reflexivity|].
  cbn [fold_left]. rewrite (pyint_dtype_int64 y Hy). exact IH.
Qed.

(** While array and key are in the range of [int64], the search
    compares the integers themselves. *)
Lemma searchsorted_right_int64 (a : list Z) (v : Z) :
  a <> [] -> Forall (fun x => - 2 ^ 63 <= x < 2 ^ 63) a -> - 2 ^ 63 <= v < 2 ^ 63 ->
  searchsorted_right a v
  = (i <- binsearch_right (length a) a v 0%nat (length a) ;; Ok (Z.of_nat i)).
Proof.
  intros Hne Ha Hv. unfold searchsorted_right. cbv zeta.
  rewrite (array_dtype_int64 a Hne Ha), (pyint_dtype_int64 v Hv).
  cbn [promote_types np_cast]. rewrite map_id. reflexivity.
Qed.

Lemma int64_key (v t : Z) : 0 <= v < t -> - 2 ^ 63 <= v < t.
Proof. lia. Qed.

Lemma bounded_int64 (t : Z) : t <= 2 ^ 62 -> t < 2 ^ 63.
Proof. lia. Qed.

(** On a well-formed CDF of [int64] entries the search returns the first
    index whose entry exceeds the key. *)
Lemma searchsorted_right_spec (c : list Z) (v : Z) :
  cdf_wf c -> last c 0 < 2 ^ 63 -> - 2 ^ 63 <= v < last c 0 ->
  exists s, searchsorted_right c v = Ok s
            /\ 0 <= s < Z.of_nat (length c)
            /\ v < cum c s
            /\ (forall j, 0 <= j < s -> cum c j <= v).
Proof.
  intros Hwf Hb63 Hv. pose proof (cdf_wf_length c Hwf) as Hlen.
  rewrite searchsorted_right_int64.
  2:{ intros E. rewrite E in Hlen. cbn in Hlen. lia. }
  2:{ apply Forall_forall. intros x Hx. pose proof (cdf_entries c x Hwf Hx). lia. }
  2:{ lia. }
  destruct (binsearch_right_spec c v) with (fuel := length c) (lo := O)
    (hi := length c) as (r & Hr & Hrl & Hbelow & Habove); try lia.
  - intros i j Hij. destruct Hwf as [Hnd _].
    apply (nondecreasing_from_nth c 0 i j Hnd Hij).
  - rewrite Hr, bind_Ok.
    assert (Hrlt : (r < length c)%nat).
    { destruct (Nat.lt_ge_cases r (length c)) as [H|H]; [assumption|].
      assert (r = length c) by lia. subst r.
      specialize (Hbelow (length c - 1)%nat). rewrite <- last_nth_pred in Hbelow. lia. }
    exists (Z.of_nat r). repeat split; try lia.
    + unfold cum. destruct (Z.ltb_spec (Z.of_nat r) 0); [lia|].
      rewrite Nat2Z.id. apply Habove. lia.
    + intros j Hj. unfold cum. destruct (Z.ltb_spec j 0); [lia|].
      apply Hbelow. lia.
Qed.

(** ** Bytes and bit streams *)

Lemma byte_to_Z_range (b : byte) : 0 <= byte_to_Z b < 256.
Proof.
  unfold byte_to_Z. pose proof (Byte.to_N_bounded b). lia.
Qed.

Lemma byte_of_Z_ok (z : Z) :
  0 <= z < 256 -> exists b, byte_of_Z z = Ok b /\ byte_to_Z b = z.
Proof.
  intros Hz. unfold byte_of_Z. destruct (Z.ltb_spec z 0); [lia|].
  destruct (Byte.of_N (Z.to_N z)) as [b|] eqn:Hb.
  - exists b. split; [reflexivity|]. unfold byte_to_Z.
    rewrite (@Byte.to_of_N _ _ Hb). lia.
  - apply Byte.of_N_None_iff in Hb. lia.
Qed.

Lemma byte_to_Z_inj (a b : byte) : byte_to_Z a = byte_to_Z b -> a = b.
Proof.
  unfold byte_to_Z. intros H. apply N2Z.inj in H.
  pose proof (Byte.of_to_N a) as Ha. rewrite H, Byte.of_to_N in Ha. congruence.
Qed.

(** Bit [n] of a byte string read MSB-first; [false] past the end. *)
Definition bit_at (data : list byte) (n : nat) : bool :=
  Z.testbit (byte_to_Z (nth (n / 8) data x00)) (7 - Z.of_nat (n mod 8)).

Lemma bit_at_overflow (data : list byte) (n : nat) :
  (8 * length data <= n)%nat -> bit_at data n = false.
Proof.
  intros Hn. unfold bit_at. rewrite nth_overflow.
  - apply Z.testbit_0_l.
  - apply Nat.div_le_lower_bound; lia.
Qed.

Lemma divmod8 (n : nat) (q r : Z) :
  Z.of_nat n = 8 * q + r -> 0 <= r < 8 ->
  (n / 8)%nat = Z.to_nat q /\ Z.of_nat (n mod 8) = r.
Proof.
  intros Hn Hr.
  assert (Hq : Z.of_nat n / 8 = q) by (symmetry; apply (Z.div_unique _ 8 q r); lia).
  assert (Hm : Z.of_nat n mod 8 = r) by (symmetry; apply (Z.mod_unique _ 8 q r); lia).
  split.
  - apply Nat2Z.inj. rewrite Nat2Z.inj_div. change (Z.of_nat 8) with 8. lia.
  - rewrite Nat2Z.inj_mod. exact Hm.
Qed.

Lemma land_shiftr_1 (x m : Z) :
  0 <= m -> Z.land (Z.shiftr x m) 1 = Z.b2z (Z.testbit x m).
Proof.
  intros Hm. change 1 with (Z.ones 1) at 1. rewrite Z.land_ones by lia.
  change (2 ^ 1) with 2. rewrite <- Z.bit0_mod, Z.shiftr_spec by lia.
  reflexivity.
Qed.

(** Big-endian value of the first [n] bits of a stream. *)
Fixpoint window (f : nat -> bool) (n : nat) : Z :=
  match n with
  | O => 0
  | S k => 2 * window f k + Z.b2z (f k)
  end.

Lemma window_ext (f g : nat -> bool) (n : nat) :
  (forall i, (i < n)%nat -> f i = g i) -> window f n = window g n.
Proof.
  induction n as [|n IH]; intros Hfg; [reflexivity|].
  cbn [window]. rewrite IH, Hfg by auto. reflexivity.
Qed.

Lemma window_front (f : nat -> bool) (n : nat) :
  window f (S n) = Z.b2z (f O) * 2 ^ Z.of_nat n + window (fun i => f (S i)) n.
Proof.
  induction n as [|n IH]; [cbn; lia|].
  change (window f (S (S n))) with (2 * window f (S n) + Z.b2z (f (S n))).
  rewrite IH. cbn [window].
  rewrite Nat2Z.inj_succ, Z.pow_succ_r by lia. ring.
Qed.

Lemma window_range (f : nat -> bool) (n : nat) : 0 <= window f n < 2 ^ Z.of_nat n.
Proof.
  induction n as [|n IH]; [cbn; lia|].
  cbn [window]. rewrite Nat2Z.inj_succ, Z.pow_succ_r by lia.
  destruct (f n); cbn [Z.b2z]; lia.
Qed.

Lemma window_zero (f : nat -> bool) (n : nat) :
  (forall i, (i < n)%nat -> f i = false) -> window f n = 0.
Proof.
  induction n as [|n IH]; intros Hf; [reflexivity|].
  cbn [window]. rewrite IH, Hf by auto. reflexivity.
Qed.

(** ** The decoder's cursor *)

(** The decoder has consumed [n] bits of its input (reads past the end
    leave the cursor where it is and count all the same). *)
Definition dec_at (n : nat) (d : DecoderState) : Prop :=
  (0 <= dec_bit_index d /\ dec_bit_index d < 8) /\ 0 <= byte_index d
  /\ ((byte_index d < Z.of_nat (length (input d))
       /\ Z.of_nat n = 8 * byte_index d + dec_bit_index d)
      \/ (Z.of_nat (length (input d)) <= byte_index d
          /\ 8 * Z.of_nat (length (input d)) <= Z.of_nat n)).

Lemma read_code_bit_spec (n : nat) (d : DecoderState) :
  dec_at n d ->
  exists d', read_code_bit d = Ok (Z.b2z (bit_at (input d) n), d')
             /\ dec_at (S n) d' /\ input d' = input d /\ code d' = code d.
Proof.
  intros (Hk & Hb & Hpos). unfold read_code_bit.
  destruct (Z.geb_spec (byte_index d) (Z.of_nat (length (input d)))) as [Hge|Hlt].
  - exists d. destruct Hpos as [[H1 _]|[_ H2]]; [lia|].
    rewrite bit_at_overflow by lia. repeat split; try assumption; try lia.
  - destruct Hpos as [[_ Hn]|[H1 _]]; [|lia].
    unfold py_index.
    destruct (Z.leb_spec 0 (byte_index d)); [|lia].
    destruct (Z.ltb_spec (byte_index d) (Z.of_nat (length (input d)))); [|lia].
    cbn [andb]. rewrite bind_Ok. unfold py_shiftr.
    destruct (Z.ltb_spec (7 - dec_bit_index d) 0); [lia|]. rewrite bind_Ok.
    rewrite land_shiftr_1 by lia.
    destruct (divmod8 n (byte_index d) (dec_bit_index d) Hn Hk) as [Hq Hr].
    unfold bit_at. rewrite Hq, Hr.
    eexists. split; [reflexivity|]. split; [|split; reflexivity].
    unfold dec_at. cbn [input code byte_index dec_bit_index].
    destruct (Z.eq_dec (dec_bit_index d) 7) as [E7|E7].
    + rewrite E7 in *. change ((7 + 1) mod 8) with 0. cbn [Z.eqb].
      repeat split; try lia.
    + rewrite (Z.mod_small (dec_bit_index d + 1) 8) by lia.
      destruct (Z.eqb_spec (dec_bit_index d + 1) 0); [lia|].
      repeat split; try lia.
Qed.

Lemma code_exponents_eq : code_exponents = map Z.of_nat (rev (seq 0 64)).
Proof. reflexivity. Qed.

Lemma read_code_spec (cnt : nat) : forall n acc d,
  dec_at n d ->
  exists d', read_code (map Z.of_nat (rev (seq 0 cnt))) acc d
             = Ok (acc + window (fun i => bit_at (input d) (n + i)) cnt, d')
             /\ dec_at (n + cnt) d' /\ input d' = input d.
Proof.
  induction cnt as [|cnt IH]; intros n acc d Hd.
  - exists d. cbn [seq rev map read_code window]. rewrite Z.add_0_r, Nat.add_0_r. auto.
  - rewrite seq_S, rev_app_distr. cbn [rev app map read_code plus].
    destruct (read_code_bit_spec n d Hd) as (d1 & Hr & Hd1 & Hi1 & _).
    rewrite Hr, bind_Ok.
    destruct (IH (S n) (acc + Z.shiftl (Z.b2z (bit_at (input d) n)) (Z.of_nat cnt)) d1 Hd1)
      as (d2 & Hr2 & Hd2 & Hi2).
    rewrite Hr2. exists d2. split; [|split].
    + do 2 f_equal. rewrite window_front, Z.shiftl_mul_pow2 by lia.
      rewrite Nat.add_0_r, Hi1, <- Z.add_assoc. do 2 f_equal.
      apply window_ext. intros i _. f_equal. lia.
    + replace (n + S cnt)%nat with (S n + cnt)%nat by lia. exact Hd2.
    + congruence.
Qed.

Lemma Decoder_init_spec (data : list byte) :
  exists d, Decoder_init data = Ok (Coder_init, d)
            /\ dec_at 64 d /\ input d = data /\ code d = window (bit_at data) 64.
Proof.
  unfold Decoder_init. rewrite code_exponents_eq.
  destruct (read_code_spec 64 0 0
              {| input := data; byte_index := 0; dec_bit_index := 0; code := 0 |})
    as (d1 & Hr & Hd1 & Hi1).
  { unfold dec_at; cbn [input byte_index dec_bit_index].
    destruct data; cbn [length]; lia. }
  rewrite Hr, bind_Ok. eexists. split; [reflexivity|].
  cbn [input code byte_index dec_bit_index] in *.
  split; [|split; [assumption|]].
  - destruct Hd1 as (H1 & H2 & H3). unfold dec_at.
    cbn [input code byte_index dec_bit_index]. auto.
  - rewrite Z.add_0_l. apply window_ext. intros i _. reflexivity.
Qed.

(** ** The decoder's hooks as arithmetic *)

Lemma even_mod64 (y : Z) : ((2 * y) mod 2 ^ 64) mod 2 = 0.
Proof.
  change (2 ^ 64) with (2 * 2 ^ 63). rewrite Z.mul_mod_distr_l by lia.
  rewrite Z.mul_comm. apply Z.mod_mul. lia.
Qed.

Lemma b2z_range (b : bool) : 0 <= Z.b2z b <= 1.
Proof. destruct b; cbn; lia. Qed.

Lemma dec_at_cursor (n : nat) (d d' : DecoderState) :
  dec_at n d -> input d' = input d -> byte_index d' = byte_index d ->
  dec_bit_index d' = dec_bit_index d -> dec_at n d'.
Proof.
  unfold dec_at. intros H Hi Hb Hk. rewrite Hi, Hb, Hk. exact H.
Qed.

Lemma Decoder_shift_spec (n : nat) (c : Coder) (d : DecoderState) :
  in_range c -> top_equal c = true -> dec_at n d ->
  low c <= code d <= high c ->
  exists d', Decoder_shift c d = Ok d' /\ dec_at (S n) d' /\ input d' = input d
             /\ code d' = 2 * code d - (if 2 ^ 63 <=? low c then 2 ^ 64 else 0)
                          + Z.b2z (bit_at (input d) n)
             /\ low (shift_step c) <= code d' <= high (shift_step c).
Proof.
  intros Hc Ht Hd Hcode. unfold Decoder_shift.
  destruct (read_code_bit_spec n d Hd) as (d1 & Hr & Hd1 & Hi1 & _).
  rewrite Hr, bind_Ok. eexists. split; [reflexivity|].
  cbn [input code byte_index dec_bit_index].
  split; [apply (dec_at_cursor _ d1); auto|]. split; [assumption|].
  rewrite shl1_mask, lor_bit_even by (apply even_mod64 || apply b2z_range).
  pose proof (b2z_range (bit_at (input d) n)) as Hbit.
  unfold in_range in Hc.
  destruct (shift_step_in_range c Hc Ht) as [(H1 & H2 & H3)|(H1 & H2 & H3)].
  - destruct (Z.leb_spec (2 ^ 63) (low c)); [lia|].
    rewrite Z.mod_small by lia. lia.
  - destruct (Z.leb_spec (2 ^ 63) (low c)); [|lia].
    rewrite <- (Z.mod_unique (2 * code d) (2 ^ 64) 1 (2 * code d - 2 ^ 64)) by lia. lia.
Qed.

Lemma Decoder_underflow_spec (n : nat) (c : Coder) (d : DecoderState) :
  split c -> straddles c = true -> dec_at n d ->
  low c <= code d <= high c ->
  exists d', Decoder_underflow c d = Ok d' /\ dec_at (S n) d' /\ input d' = input d
             /\ code d' = 2 * code d - 2 ^ 63 + Z.b2z (bit_at (input d) n)
             /\ low (underflow_step c) <= code d' <= high (underflow_step c).
Proof.
  intros Hc Ht Hd Hcode. unfold Decoder_underflow.
  destruct (read_code_bit_spec n d Hd) as (d1 & Hr & Hd1 & Hi1 & _).
  rewrite Hr, bind_Ok. eexists. split; [reflexivity|].
  cbn [input code byte_index dec_bit_index].
  split; [apply (dec_at_cursor _ d1); auto|]. split; [assumption|].
  pose proof (b2z_range (bit_at (input d) n)) as Hbit.
  destruct (underflow_step_split c Hc Ht) as (H1 & H2 & H3 & H4).
  unfold split in Hc.
  rewrite half_range_eq, land_pow2, testbit_63 by lia.
  change (Z.shiftr state_mask 1) with (Z.ones 63).
  rewrite Z.land_ones, Z.shiftl_mul_pow2 by lia. rewrite Z.pow_1_r.
  assert (Heven : forall y, ((y * 2) mod 2 ^ 63) mod 2 = 0).
  { intros y. change (2 ^ 63) with (2 * 2 ^ 62). rewrite (Z.mul_comm y 2).
    rewrite Z.mul_mod_distr_l by lia. rewrite Z.mul_comm. apply Z.mod_mul. lia. }
  destruct (Z.leb_spec (2 ^ 63) (code d)) as [Hhi|Hlo].
  - rewrite <- (Z.mod_unique (code d * 2) (2 ^ 63) 2 (2 * code d - 2 ^ 64)) by lia.
    rewrite (Z.lor_comm (2 ^ 63)), lor_pow2 by lia.
    rewrite lor_bit_even; [lia| |lia].
    replace (2 * code d - 2 ^ 64 + 2 ^ 63) with ((code d - 2 ^ 62) * 2) by lia.
    apply Z.mod_mul. lia.
  - rewrite Z.lor_0_l.
    rewrite lor_bit_even by (apply Heven || lia).
    rewrite <- (Z.mod_unique (code d * 2) (2 ^ 63) 1 (2 * code d - 2 ^ 63)) by lia.
    lia.
Qed.

(** ** Choosing the symbol *)

(** The quantity [decode_symbol] looks up in the CDF. *)
Definition decode_value (cum_freqs : list Z) (c : Coder) (code : Z) : Z :=
  ((code - low c + 1) * last cum_freqs 0 - 1) / (high c - low c + 1).

Lemma decode_value_range (cum_freqs : list Z) (c : Coder) (code : Z) :
  0 < last cum_freqs 0 -> low c <= code <= high c ->
  0 <= decode_value cum_freqs c code < last cum_freqs 0.
Proof.
  intros Ht Hcode. unfold decode_value. split.
  - apply Z.div_pos; nia.
  - apply Z.div_lt_upper_bound; nia.
Qed.

(** The code lies in the narrowed interval of [symbol] exactly when the
    looked-up value lies in the symbol's span of the CDF. *)
Lemma narrowed_contains (cum_freqs : list Z) (symbol : Z) (c : Coder) (code : Z) :
  0 < last cum_freqs 0 -> low c <= code <= high c ->
  (low (narrowed cum_freqs symbol c) <= code <= high (narrowed cum_freqs symbol c)
   <-> cum cum_freqs (symbol - 1) <= decode_value cum_freqs c code
       < cum cum_freqs symbol).
Proof.
  intros Ht Hcode. unfold narrowed, decode_value; cbn [low high].
  set (T := last cum_freqs 0) in *. set (r := high c - low c + 1).
  set (A := cum cum_freqs (symbol - 1)). set (B := cum cum_freqs symbol).
  set (off := code - low c).
  assert (Hr : 0 < r) by (unfold r; lia).
  assert (Hoff : 0 <= off < r) by (unfold off, r; lia).
  replace (code - low c + 1) with (off + 1) by (unfold off; lia).
  pose proof (Z.mul_div_le (A * r) T Ht) as HA1.
  pose proof (Z.mul_succ_div_gt (A * r) T Ht) as HA2.
  pose proof (Z.mul_div_le (B * r) T Ht) as HB1.
  pose proof (Z.mul_succ_div_gt (B * r) T Ht) as HB2.
  pose proof (Z.mul_div_le ((off + 1) * T - 1) r Hr) as HV1.
  pose proof (Z.mul_succ_div_gt ((off + 1) * T - 1) r Hr) as HV2.
  split.
  - intros [Hlo Hhi]. split.
    + apply Z.div_le_lower_bound; [assumption|]. nia.
    + apply Z.div_lt_upper_bound; [assumption|]. nia.
  - intros [Hlo Hhi].
    assert (A * r / T < off + 1) by (apply Z.div_lt_upper_bound; nia).
    assert (off + 1 <= B * r / T) by (apply Z.div_le_lower_bound; nia).
    unfold off in *. lia.
Qed.

Lemma narrowed_bounds (cum_freqs : list Z) (symbol : Z) (c : Coder) :
  cdf_wf cum_freqs -> 0 <= symbol < Z.of_nat (length cum_freqs) -> in_range c ->
  low c <= low (narrowed cum_freqs symbol c)
  /\ high (narrowed cum_freqs symbol c) <= high c.
Proof.
  intros Hwf Hs Hc.
  destruct (cum_le_last cum_freqs symbol Hwf) as [_ H1]; try lia.
  destruct (cum_le_last cum_freqs (symbol - 1) Hwf) as [H2 _]; try lia.
  destruct Hwf as [_ Hpos]. unfold in_range in Hc.
  unfold narrowed; cbn [low high]. split.
  - assert (0 <= cum cum_freqs (symbol - 1) * (high c - low c + 1) / last cum_freqs 0)
      by (apply Z.div_pos; nia).
    lia.
  - assert (cum cum_freqs symbol * (high c - low c + 1) / last cum_freqs 0
            <= high c - low c + 1) by (apply Z.div_le_upper_bound; nia).
    lia.
Qed.

(** Where the decoder's cursor can be: inside a byte, at or after the
    start of the input. *)
Definition cursor_ok (d : DecoderState) : Prop :=
  (0 <= dec_bit_index d /\ dec_bit_index d < 8) /\ 0 <= byte_index d.

Lemma cursor_ok_dec_at (d : DecoderState) : cursor_ok d <-> exists n, dec_at n d.
Proof.
  split.
  - intros [Hk Hb].
    destruct (Z.lt_ge_cases (byte_index d) (Z.of_nat (length (input d)))) as [Hlt|Hge].
    + exists (Z.to_nat (8 * byte_index d + dec_bit_index d)).
      unfold dec_at. split; [assumption|]. split; [assumption|]. left. lia.
    + exists (8 * length (input d))%nat.
      unfold dec_at. split; [assumption|]. split; [assumption|]. right. lia.
  - intros [n (Hk & Hb & _)]. split; assumption.
Qed.

(** What every decoder state satisfies: 64-bit registers, a valid cursor
    and the code inside the interval. *)
Definition decoder_state (s : Decoder) : Prop :=
  in_range (fst s) /\ cursor_ok (snd s)
  /\ low (fst s) <= code (snd s) <= high (fst s).

Definition dec_tracks (data : list byte) (c : Coder) (d : DecoderState) : Prop :=
  input d = data /\ cursor_ok d /\ low c <= code d <= high c.

Lemma Decoder_shift_tracks (data : list byte) (c : Coder) (d : DecoderState) :
  in_range c -> top_equal c = true -> dec_tracks data c d ->
  exists d', shift c d = Ok d' /\ dec_tracks data (shift_step c) d'.
Proof.
  intros Hc Ht (Hi & Hcur & Hcode). apply cursor_ok_dec_at in Hcur.
  destruct Hcur as [n Hn].
  destruct (Decoder_shift_spec n c d Hc Ht Hn Hcode) as (d' & Hr & Hd' & Hi' & _ & Hc').
  exists d'. split; [exact Hr|]. split; [congruence|].
  split; [apply cursor_ok_dec_at; eauto|assumption].
Qed.

Lemma Decoder_underflow_tracks (data : list byte) (c : Coder) (d : DecoderState) :
  split c -> straddles c = true -> dec_tracks data c d ->
  exists d', underflow c d = Ok d' /\ dec_tracks data (underflow_step c) d'.
Proof.
  intros Hc Ht (Hi & Hcur & Hcode). apply cursor_ok_dec_at in Hcur.
  destruct Hcur as [n Hn].
  destruct (Decoder_underflow_spec n c d Hc Ht Hn Hcode)
    as (d' & Hr & Hd' & Hi' & _ & Hc').
  exists d'. split; [exact Hr|]. split; [congruence|].
  split; [apply cursor_ok_dec_at; eauto|assumption].
Qed.

Lemma decode_symbol_eq (cum_freqs : list Z) (c : Coder) (d : DecoderState) :
  (0 < length cum_freqs)%nat -> high c - low c + 1 <> 0 ->
  decode_symbol cum_freqs (c, d) =
  (symbol <- searchsorted_right cum_freqs (decode_value cum_freqs c (code d)) ;;
   d' <- update cum_freqs symbol (c, d) ;;
   Ok (symbol, d')).
Proof.
  intros Hlen Hr. unfold decode_symbol. cbn [fst snd].
  rewrite py_index_last, bind_Ok by assumption.
  unfold py_floordiv. destruct (Z.eqb_spec (high c - low c + 1) 0); [contradiction|].
  rewrite bind_Ok. reflexivity.
Qed.

(** [decode_symbol] on any decoder state and any well-formed CDF: it
    returns, the symbol is the first whose cumulative frequency exceeds
    the looked-up value, and the new state is a decoder state again. *)
Lemma decode_symbol_spec (cum_freqs : list Z) (c : Coder) (d : DecoderState) :
  cdf_wf cum_freqs -> last cum_freqs 0 < 2 ^ 63 ->
  in_range c -> dec_tracks (input d) c d ->
  exists symbol c' d',
    decode_symbol cum_freqs (c, d) = Ok (symbol, (c', d'))
    /\ 0 <= symbol < Z.of_nat (length cum_freqs)
    /\ decode_value cum_freqs c (code d) < cum cum_freqs symbol
    /\ (forall j, 0 <= j < symbol ->
                  cum cum_freqs j <= decode_value cum_freqs c (code d))
    /\ normalized c' /\ dec_tracks (input d) c' d'.
Proof.
  intros Hwf Hb63 Hc Htr. pose proof Htr as (_ & Hcur & Hcode).
  pose proof (cdf_wf_length _ Hwf) as Hlen. pose proof Hwf as [_ Hpos].
  rewrite decode_symbol_eq by (unfold in_range in Hc; lia).
  pose proof (decode_value_range cum_freqs c (code d) Hpos Hcode) as Hv.
  destruct (searchsorted_right_spec cum_freqs _ Hwf Hb63 (int64_key _ _ Hv))
    as (s & Hs & Hsr & Habove & Hbelow).
  rewrite Hs, bind_Ok.
  assert (Hin : low (narrowed cum_freqs s c) <= code d
                <= high (narrowed cum_freqs s c)).
  { apply narrowed_contains; try assumption. split; [|assumption].
    destruct (Z.eq_dec s 0) as [->|Hs0].
    - unfold cum. cbn. lia.
    - apply Hbelow. lia. }
  destruct (narrowed_bounds cum_freqs s c Hwf Hsr Hc) as [Hb1 Hb2].
  destruct (update_rule (dec_tracks (input d)) cum_freqs s c d)
    as (c' & d' & Hu & Hn' & Htr');
    try (unfold in_range in *; lia).
  - intros c0 d0. apply Decoder_shift_tracks.
  - intros c0 d0. apply Decoder_underflow_tracks.
  - split; [reflexivity|]. split; assumption.
  - rewrite Hu, bind_Ok. exists s, c', d'. auto 10.
Qed.

(** ** The encoder's byte buffer as a bit list *)

Lemma py_index_neg1 {A : Type} (d : A) (xs : list A) :
  xs <> [] -> py_index d xs (-1) = Ok (last xs d).
Proof.
  intros Hne. destruct (exists_last Hne) as (l & a & ->).
  unfold py_index. rewrite length_app, last_last. cbn [length].
  destruct (Z.leb_spec 0 (-1)); [lia|]. cbn [andb].
  destruct (Z.leb_spec (- Z.of_nat (length l + 1)) (-1)); [|lia].
  destruct (Z.ltb_spec (-1) 0); [|lia]. cbn [andb].
  replace (Z.to_nat (Z.of_nat (length l + 1) + -1)) with (length l) by lia.
  now rewrite nth_middle.
Qed.

Lemma testbit_b2z (b : bool) (m : Z) : Z.testbit (Z.b2z b) m = b && (m =? 0).
Proof.
  destruct b; cbn [Z.b2z andb].
  - change 1 with (2 ^ 0). rewrite Z.pow2_bits_eqb by lia. apply Z.eqb_sym.
  - apply Z.testbit_0_l.
Qed.

Lemma lor_range8 (x y : Z) : 0 <= x < 256 -> 0 <= y < 256 -> 0 <= Z.lor x y < 256.
Proof.
  intros Hx Hy. split; [apply Z.lor_nonneg; lia|].
  assert (H : Z.lor x y = Z.lor x y mod 2 ^ 8).
  { rewrite <- Z.land_ones, Z.land_lor_distr_l, !Z.land_ones by lia.
    change (2 ^ 8) with 256. now rewrite !Z.mod_small by lia. }
  rewrite H. apply Z.mod_pos_bound. lia.
Qed.

Lemma shifted_bit_range (b : bool) (m : Z) :
  0 <= m <= 7 -> 0 <= Z.shiftl (Z.b2z b) m < 256.
Proof.
  intros Hm. rewrite Z.shiftl_mul_pow2 by lia.
  assert (0 < 2 ^ m) by (apply Z.pow_pos_nonneg; lia).
  assert (2 ^ m <= 2 ^ 7) by (apply Z.pow_le_mono_r; lia).
  change (2 ^ 7) with 128 in *. destruct b; cbn [Z.b2z]; lia.
Qed.

(** The buffer holds exactly [bits], MSB-first, the unused low bits of
    the last byte being zero; [bit_index] counts the bits used in the
    last byte. *)
Definition enc_rep (bits : list bool) (e : EncoderState) : Prop :=
  (forall i, bit_at (encoded_data e) i = nth i bits false)
  /\ enc_bit_index e
     = Z.of_nat (length bits) - 8 * (Z.of_nat (length (encoded_data e)) - 1)
  /\ 1 <= enc_bit_index e <= 8.

Lemma enc_rep_init : enc_rep [] (snd Encoder_init).
Proof.
  unfold enc_rep, Encoder_init; cbn [snd encoded_data enc_bit_index length].
  split; [|lia]. intros i. rewrite bit_at_overflow by (cbn; lia).
  now destruct i.
Qed.

Lemma bit_at_split (data : list byte) (i : nat) :
  exists q r, i = (8 * q + r)%nat /\ (r < 8)%nat
              /\ bit_at data i
                 = Z.testbit (byte_to_Z (nth q data x00)) (7 - Z.of_nat r).
Proof.
  exists (i / 8)%nat, (i mod 8)%nat. split; [apply Nat.div_mod_eq|].
  split; [apply Nat.mod_upper_bound; lia|reflexivity].
Qed.

Lemma bit_at_qr (data : list byte) (q r : nat) :
  (r < 8)%nat ->
  bit_at data (8 * q + r)
  = Z.testbit (byte_to_Z (nth q data x00)) (7 - Z.of_nat r).
Proof.
  intros Hr. unfold bit_at.
  replace ((8 * q + r) / 8)%nat with q
    by (apply (Nat.div_unique _ 8 q r); lia).
  replace ((8 * q + r) mod 8)%nat with r
    by (apply (Nat.mod_unique _ 8 q r); lia).
  reflexivity.
Qed.

Lemma append_bit_spec (bits : list bool) (e : EncoderState) (b : bool) :
  enc_rep bits e ->
  exists e', append_bit (Z.b2z b) e = Ok e' /\ enc_rep (bits ++ [b]) e'
             /\ num_underflow e' = num_underflow e.
Proof.
  intros (Hbits & Hidx & Hrange). unfold append_bit.
  destruct (Z.eqb_spec (enc_bit_index e) 8) as [E8|E8].
  - (* a fresh byte is started *)
    rewrite py_index_neg1 by (destruct (encoded_data e); discriminate).
    rewrite last_last, bind_Ok. unfold py_shiftl. change (7 - 0 <? 0) with false.
    cbv iota. rewrite bind_Ok. change (byte_to_Z x00) with 0. rewrite Z.lor_0_l.
    destruct (byte_of_Z_ok (Z.shiftl (Z.b2z b) (7 - 0))) as (nb & Hnb & Hnbz);
      [apply shifted_bit_range; lia|].
    rewrite Hnb, bind_Ok, removelast_last. eexists. split; [reflexivity|].
    split; [|reflexivity].
    unfold enc_rep; cbn [encoded_data enc_bit_index]. rewrite !length_app.
    cbn [length]. split; [|lia].
    intros i. destruct (bit_at_split (encoded_data e ++ [nb]) i) as (q & r & -> & Hr & ->).
    specialize (Hbits (8 * q + r)%nat). rewrite bit_at_qr in Hbits by assumption.
    destruct (Nat.lt_ge_cases q (length (encoded_data e))) as [Hq|Hq].
    + rewrite !app_nth1 by lia. exact Hbits.
    + rewrite app_nth2 by lia. rewrite (app_nth2 bits) by lia.
      destruct (Nat.eq_dec q (length (encoded_data e))) as [->|Hne].
      * rewrite Nat.sub_diag. cbn [nth]. rewrite Hnbz, Z.shiftl_spec, testbit_b2z by lia.
        replace (8 * length (encoded_data e) + r - length bits)%nat with r by lia.
        destruct r as [|r]; cbn [nth].
        -- change (7 - Z.of_nat 0 - (7 - 0) =? 0) with true. apply andb_true_r.
        -- destruct (Z.eqb_spec (7 - Z.of_nat (S r) - (7 - 0)) 0); [lia|].
           rewrite andb_false_r. now destruct r.
      * rewrite (nth_overflow [nb]) by (cbn [length]; lia).
        rewrite (nth_overflow [b]) by (cbn [length]; lia).
        apply Z.testbit_0_l.
  - (* the last byte still has room *)
    assert (Hne : encoded_data e <> []).
    { intros E. rewrite E in Hidx. cbn [length] in Hidx. lia. }
    rewrite py_index_neg1, bind_Ok by assumption.
    unfold py_shiftl. destruct (Z.ltb_spec (7 - enc_bit_index e) 0); [lia|].
    rewrite bind_Ok.
    destruct (byte_of_Z_ok (Z.lor (byte_to_Z (last (encoded_data e) x00))
                                  (Z.shiftl (Z.b2z b) (7 - enc_bit_index e))))
      as (nb & Hnb & Hnbz);
      [apply lor_range8; [apply byte_to_Z_range|apply shifted_bit_range; lia]|].
    rewrite Hnb, bind_Ok. eexists. split; [reflexivity|]. split; [|reflexivity].
    destruct (exists_last Hne) as (d0 & lb & Ed).
    unfold enc_rep; cbn [encoded_data enc_bit_index].
    rewrite Ed in *. rewrite removelast_last, last_last in *.
    rewrite !length_app in *. cbn [length] in *. split; [|lia].
    intros i. destruct (bit_at_split (d0 ++ [nb]) i) as (q & r & -> & Hr & ->).
    specialize (Hbits (8 * q + r)%nat). rewrite bit_at_qr in Hbits by assumption.
    destruct (Nat.lt_ge_cases q (length d0)) as [Hq|Hq].
    + rewrite app_nth1 in * by lia. rewrite (app_nth1 bits) by lia. exact Hbits.
    + rewrite app_nth2 in * by lia.
      destruct (Nat.eq_dec q (length d0)) as [->|Hneq].
      * rewrite Nat.sub_diag in *. cbn [nth] in *.
        rewrite Hnbz, Z.lor_spec, Hbits, Z.shiftl_spec, testbit_b2z by lia.
        destruct (Z.eqb_spec (7 - Z.of_nat r - (7 - enc_bit_index e)) 0) as [Er|Er].
        -- rewrite andb_true_r.
           replace (8 * length d0 + r)%nat with (length bits) by lia.
           rewrite nth_overflow by lia. now rewrite nth_middle.
        -- rewrite andb_false_r, orb_false_r.
           destruct (Nat.lt_ge_cases (8 * length d0 + r) (length bits)).
           ++ now rewrite app_nth1 by lia.
           ++ rewrite !nth_overflow; [reflexivity| |lia].
              rewrite length_app. cbn [length]. lia.
      * rewrite (nth_overflow [nb]) by (cbn [length]; lia).
        rewrite nth_overflow by (rewrite length_app; cbn [length]; lia).
        apply Z.testbit_0_l.
Qed.

Lemma enc_rep_fields (bits : list bool) (e e' : EncoderState) :
  enc_rep bits e -> encoded_data e' = encoded_data e ->
  enc_bit_index e' = enc_bit_index e -> enc_rep bits e'.
Proof. unfold enc_rep. intros H Hd Hi. rewrite Hd, Hi. exact H. Qed.

Lemma append_bits_spec (n : nat) (b : bool) : forall bits e,
  enc_rep bits e ->
  exists e', append_bits n (Z.b2z b) e = Ok e' /\ enc_rep (bits ++ repeat b n) e'
             /\ num_underflow e' = num_underflow e.
Proof.
  induction n as [|n IH]; intros bits e He.
  - exists e. cbn [append_bits repeat]. rewrite app_nil_r. auto.
  - cbn [append_bits repeat].
    destruct (append_bit_spec bits e b He) as (e1 & H1 & He1 & Hu1).
    rewrite H1, bind_Ok.
    destruct (IH (bits ++ [b]) e1 He1) as (e2 & H2 & He2 & Hu2).
    exists e2. rewrite <- app_assoc in He2. split; [exact H2|].
    split; [exact He2|congruence].
Qed.

Lemma top_bit_shiftr (c : Coder) :
  in_range c -> Z.shiftr (low c) (NUM_STATE_BITS - 1) = Z.b2z (top_bit c).
Proof.
  intros Hc. unfold in_range in Hc. unfold top_bit.
  rewrite testbit_63 by lia. change (NUM_STATE_BITS - 1) with 63.
  rewrite Z.shiftr_div_pow2 by lia.
  destruct (Z.leb_spec (2 ^ 63) (low c)); cbn [Z.b2z].
  - symmetry. apply (Z.div_unique _ (2 ^ 63) 1 (low c - 2 ^ 63)); lia.
  - apply Z.div_small. lia.
Qed.

Lemma lxor_b2z_1 (b : bool) : Z.lxor (Z.b2z b) 1 = Z.b2z (negb b).
Proof. now destruct b. Qed.

(** The encoder's buffer follows the emitted bit sequence. *)
Definition enc_follows (c : Coder) (t : TraceState) (e : EncoderState) : Prop :=
  enc_rep (fst t) e /\ num_underflow e = Z.of_nat (snd t).

Lemma Encoder_shift_follows (c : Coder) (t : TraceState) (e : EncoderState)
      (t' : TraceState) :
  in_range c -> top_equal c = true -> enc_follows c t e ->
  Trace_shift c t = Ok t' ->
  exists e', Encoder_shift c e = Ok e' /\ enc_follows (shift_step c) t' e'.
Proof.
  intros Hc _ [Hrep Hu] Ht. inversion Ht; subst t'; clear Ht.
  unfold Encoder_shift. rewrite top_bit_shiftr by assumption.
  destruct (append_bit_spec _ e (top_bit c) Hrep) as (e1 & H1 & He1 & Hu1).
  rewrite H1, bind_Ok, lxor_b2z_1.
  destruct (append_bits_spec (Z.to_nat (num_underflow e1)) (negb (top_bit c)) _ e1 He1)
    as (e2 & H2 & He2 & Hu2).
  rewrite H2, bind_Ok. eexists. split; [reflexivity|].
  split; [|reflexivity]. cbn [fst].
  apply (enc_rep_fields _ e2); try reflexivity.
  rewrite Hu1, Hu, Nat2Z.id, <- app_assoc in He2. exact He2.
Qed.

Lemma Encoder_underflow_follows (c : Coder) (t : TraceState) (e : EncoderState)
      (t' : TraceState) :
  split c -> straddles c = true -> enc_follows c t e ->
  Trace_underflow c t = Ok t' ->
  exists e', Encoder_underflow c e = Ok e' /\ enc_follows (underflow_step c) t' e'.
Proof.
  intros _ _ [Hrep Hu] Ht. inversion Ht; subst t'; clear Ht.
  eexists. split; [reflexivity|]. split.
  - apply (enc_rep_fields _ e); auto.
  - cbn [num_underflow snd]. lia.
Qed.

(** ** Whole runs *)

Definition pair_ok (p : list Z * Z) : Prop :=
  cdf_bounded (fst p) /\ in_support (fst p) (snd p).

Lemma Trace_update_total (cum_freqs : list Z) (symbol : Z) (c : Coder)
      (t : TraceState) :
  cdf_bounded cum_freqs -> in_support cum_freqs symbol -> normalized c ->
  exists c' t', @update _ Trace_hooks cum_freqs symbol (c, t) = Ok (c', t')
                /\ normalized c'.
Proof.
  intros [Hwf Hb] Hsup Hn.
  destruct (in_support_index cum_freqs symbol Hwf Hsup) as [Hi Ht].
  pose proof (normalized_range c Hn) as Hr.
  destruct (narrowed_in_range cum_freqs symbol c Hwf Hsup) as (Hnr & _);
    [apply split_in_range, Hn|lia|].
  destruct (@update_rule _ Trace_hooks (fun _ _ => True) cum_freqs symbol c t)
    as (c' & t' & Hu & Hn' & _); try assumption; try exact I.
  - intros c0 t0 _ _ _. eexists. split; [reflexivity|exact I].
  - intros c0 t0 _ _ _. eexists. split; [reflexivity|exact I].
  - exists c', t'. auto.
Qed.

Lemma Trace_update_all_total (l : list (list Z * Z)) : forall c t,
  Forall pair_ok l -> normalized c ->
  exists c' t', @update_all _ Trace_hooks l (c, t) = Ok (c', t') /\ normalized c'.
Proof.
  induction l as [|[cum_freqs symbol] l IH]; intros c t Hl Hn.
  - exists c, t. auto.
  - inversion Hl as [|p l' [Hcdf Hsup] Hl']; subst. cbn [fst snd] in *.
    destruct (Trace_update_total cum_freqs symbol c t Hcdf Hsup Hn)
      as (c1 & t1 & H1 & Hn1).
    destruct (IH c1 t1 Hl' Hn1) as (c2 & t2 & H2 & Hn2).
    exists c2, t2. split; [|assumption].
    cbn [update_all]. rewrite H1, bind_Ok. exact H2.
Qed.

Lemma encode_symbols_update_all (l : list (list Z * Z)) (e : Encoder) :
  encode_symbols l e = update_all l e.
Proof.
  revert e. induction l as [|[cum_freqs symbol] l IH]; intros e; [reflexivity|].
  cbn [encode_symbols update_all]. unfold encode_symbol.
  destruct (update cum_freqs symbol e); [now rewrite !bind_Ok|reflexivity].
Qed.

Lemma update_all_sim {X Y : Type} (HX : CoderHooks X) (HY : CoderHooks Y)
      (R : Coder -> X -> Y -> Prop) :
  (forall c x y x', in_range c -> top_equal c = true -> R c x y ->
     @shift X HX c x = Ok x' ->
     exists y', @shift Y HY c y = Ok y' /\ R (shift_step c) x' y') ->
  (forall c x y x', split c -> straddles c = true -> R c x y ->
     @underflow X HX c x = Ok x' ->
     exists y', @underflow Y HY c y = Ok y' /\ R (underflow_step c) x' y') ->
  (forall c c' x y, R c x y -> R c' x y) ->
  forall l c x y c' x',
    Forall pair_ok l -> normalized c -> R c x y ->
    @update_all X HX l (c, x) = Ok (c', x') ->
    exists y', @update_all Y HY l (c, y) = Ok (c', y') /\ R c' x' y'.
Proof.
  intros Hshift Hunder Hindep.
  induction l as [|[cum_freqs symbol] l IH]; intros c x y c' x' Hl Hn HR Hrun.
  - inversion Hrun; subst. exists y. auto.
  - inversion Hl as [|p l' [[Hwf Hb] Hsup] Hl']; subst. cbn [fst snd] in *.
    cbn [update_all] in Hrun |- *.
    apply bind_inv in Hrun. destruct Hrun as ([c1 x1] & H1 & Hrun).
    destruct (in_support_index cum_freqs symbol Hwf Hsup) as [Hi Ht].
    pose proof (normalized_range c Hn) as Hr.
    destruct (narrowed_in_range cum_freqs symbol c Hwf Hsup) as (Hnr & _);
      [apply split_in_range, Hn|lia|].
    destruct (update_sim HX HY R Hshift Hunder cum_freqs symbol c x y c1 x1 Hi Ht Hnr
                (Hindep _ _ _ _ HR) H1) as (y1 & Hy1 & HR1 & Hn1).
    rewrite Hy1, bind_Ok. exact (IH c1 x1 y1 c' x' Hl' Hn1 HR1 Hrun).
Qed.

(** ** What the decoder's code register holds

    With [u] underflow bits pending, the register is the next bit of the
    stream followed by the 63 bits that come after the [u] pending ones. *)

Definition code_of (u : nat) (F : nat -> bool) : Z :=
  Z.b2z (F O) * 2 ^ 63 + window (fun i => F (S (u + i))) 63.

Lemma code_of_0 (F : nat -> bool) : code_of 0 F = window F 64.
Proof. unfold code_of. now rewrite (window_front F 63). Qed.

Lemma window63_range (F : nat -> bool) : 0 <= window F 63 < 2 ^ 63.
Proof. exact (window_range F 63). Qed.

Lemma window62_range (F : nat -> bool) : 0 <= window F 62 < 2 ^ 62.
Proof. exact (window_range F 62). Qed.

Lemma window_S (f : nat -> bool) (n : nat) :
  window f (S n) = 2 * window f n + Z.b2z (f n).
Proof. reflexivity. Qed.

(** The stream [str] is consistent with an encoder that sits at interval
    [c], has written [fst t] and owes [snd t] underflow bits: what the
    decoder would hold lies in the interval, and the owed bits are the
    complement of the next one. *)
Definition good (str : nat -> bool) (c : Coder) (t : TraceState) : Prop :=
  (low c <= code_of (snd t) (fun i => str (length (fst t) + i)%nat)
   /\ code_of (snd t) (fun i => str (length (fst t) + i)%nat) <= high c)
  /\ (forall j, (1 <= j <= snd t)%nat ->
                str (length (fst t) + j)%nat = negb (str (length (fst t) + 0)%nat)).

Definition agrees (str : nat -> bool) (bits : list bool) : Prop :=
  forall i, (i < length bits)%nat -> str i = nth i bits false.

Lemma agrees_app_l (str : nat -> bool) (l1 l2 : list bool) :
  agrees str (l1 ++ l2) -> agrees str l1.
Proof.
  intros H i Hi. rewrite H by (rewrite length_app; lia).
  now rewrite app_nth1.
Qed.

Lemma shift_backward (str : nat -> bool) (c : Coder) (bits : list bool) (u : nat) :
  in_range c -> top_equal c = true ->
  agrees str (bits ++ top_bit c :: repeat (negb (top_bit c)) u) ->
  good str (shift_step c) (bits ++ top_bit c :: repeat (negb (top_bit c)) u, O) ->
  good str c (bits, u).
Proof.
  intros Hc Ht Hag [Hcode _]. unfold good in *. cbn [fst snd] in *.
  assert (Hm : str (length bits + 0)%nat = top_bit c).
  { rewrite Hag by (rewrite length_app; cbn [length]; lia).
    rewrite Nat.add_0_r. now rewrite nth_middle. }
  split.
  - rewrite code_of_0, (window_S _ 63) in Hcode. unfold code_of.
    rewrite Hm.
    rewrite (window_ext (fun i => str (length bits + S (u + i))%nat)
               (fun i => str (length (bits ++ top_bit c :: repeat (negb (top_bit c)) u)
                              + i)%nat)).
    2:{ intros i _. f_equal. rewrite length_app. cbn [length].
        rewrite repeat_length. lia. }
    pose proof (window63_range
      (fun i => str (length (bits ++ top_bit c :: repeat (negb (top_bit c)) u) + i)%nat))
      as HW.
    match type of Hcode with context [Z.b2z ?b] =>
      pose proof (b2z_range b) as Hx end.
    assert (Htop : top_bit c = (2 ^ 63 <=? low c))
      by (unfold in_range in Hc; unfold top_bit; apply testbit_63; lia).
    set (W := window _ 63) in *. clearbody W.
    rewrite Htop. unfold in_range in Hc.
    destruct (shift_step_in_range c Hc Ht) as [(H1 & H2 & H3)|(H1 & H2 & H3)];
      rewrite H2, H3 in Hcode.
    + destruct (Z.leb_spec (2 ^ 63) (low c)); [lia|]. cbn [Z.b2z]. lia.
    + destruct (Z.leb_spec (2 ^ 63) (low c)); [|lia]. cbn [Z.b2z]. lia.
  - intros j Hj. rewrite Hm.
    rewrite Hag by (rewrite length_app; cbn [length]; rewrite repeat_length; lia).
    rewrite app_nth2 by lia.
    replace (length bits + j - length bits)%nat with (S (j - 1)) by lia.
    cbn [nth]. apply nth_repeat_lt. lia.
Qed.

Lemma underflow_backward (str : nat -> bool) (c : Coder) (bits : list bool) (u : nat) :
  split c -> straddles c = true ->
  good str (underflow_step c) (bits, S u) -> good str c (bits, u).
Proof.
  intros Hc Ht [Hcode Hpend]. unfold good in *. cbn [fst snd] in *.
  split; [|intros j Hj; apply Hpend; lia].
  specialize (Hpend (S u) ltac:(lia)).
  destruct (underflow_step_split c Hc Ht) as (H1 & H2 & H3 & H4).
  rewrite H3, H4 in Hcode. unfold code_of in *.
  rewrite (window_front _ 62). rewrite (window_S _ 62) in Hcode.
  rewrite Nat.add_0_r in *.
  replace (u + 0)%nat with u by lia.
  rewrite Hpend.
  rewrite (window_ext (fun i => str (length bits + S (u + S i))%nat)
             (fun i => str (length bits + S (S u + i))%nat))
    by (intros i _; f_equal; lia).
  pose proof (window62_range
    (fun i => str (length bits + S (S u + i))%nat)) as HW.
  pose proof (b2z_range (str (length bits + S (S u + 62))%nat)) as Hx.
  unfold split in Hc. change (Z.of_nat 62) with 62.
  destruct (str (length bits)); cbn [Z.b2z negb] in *; lia.
Qed.

Lemma good_widen (str : nat -> bool) (c c' : Coder) (t : TraceState) :
  good str c' t -> low c <= low c' -> high c' <= high c -> good str c t.
Proof. unfold good. intros [[H1 H2] H3] Hl Hh. repeat split; try lia. exact H3. Qed.

Lemma Trace_shift_loop_backward (fuel : nat) : forall c t c1 t1,
  in_range c ->
  @shift_loop _ Trace_hooks fuel c t = Ok (c1, t1) ->
  (in_range c1 /\ top_equal c1 = false)
  /\ (exists G, fst t1 = fst t ++ G)
  /\ forall str, agrees str (fst t1) -> good str c1 t1 -> good str c t.
Proof.
  induction fuel as [|fuel IH]; intros c [bits u] c1 t1 Hc Hrun; [discriminate|].
  rewrite (@shift_loop_S _ Trace_hooks) in Hrun.
  destruct (top_equal c) eqn:Ht.
  - cbn [shift Trace_hooks] in Hrun. unfold Trace_shift in Hrun.
    rewrite bind_Ok in Hrun. cbn [fst snd] in Hrun.
    destruct (shift_step_preserves c Hc Ht) as [Hc' _].
    destruct (IH _ _ _ _ Hc' Hrun) as (Hc1 & [G HG] & Hback).
    cbn [fst] in *. split; [exact Hc1|]. split.
    + exists (top_bit c :: repeat (negb (top_bit c)) u ++ G).
      rewrite HG, <- app_assoc. reflexivity.
    + intros str Hag Hgood. apply shift_backward; try assumption.
      * rewrite HG in Hag. exact (agrees_app_l _ _ _ Hag).
      * apply Hback; assumption.
  - inversion Hrun; subst. split; [auto|]. split.
    + exists []. now rewrite app_nil_r.
    + auto.
Qed.

Lemma Trace_underflow_loop_backward (fuel : nat) : forall c t c1 t1,
  split c ->
  @underflow_loop _ Trace_hooks fuel c t = Ok (c1, t1) ->
  fst t1 = fst t /\ forall str, good str c1 t1 -> good str c t.
Proof.
  induction fuel as [|fuel IH]; intros c [bits u] c1 t1 Hc Hrun; [discriminate|].
  rewrite (@underflow_loop_S _ Trace_hooks) in Hrun.
  destruct (straddles c) eqn:Ht.
  - cbn [underflow Trace_hooks] in Hrun. unfold Trace_underflow in Hrun.
    rewrite bind_Ok in Hrun. cbn [fst snd] in Hrun.
    destruct (underflow_step_preserves c Hc Ht) as [Hc' _].
    destruct (IH _ _ _ _ Hc' Hrun) as (HG & Hback).
    cbn [fst] in *. split; [exact HG|].
    intros str Hgood. apply underflow_backward; auto.
  - inversion Hrun; subst. auto.
Qed.

Lemma Trace_update_backward (cum_freqs : list Z) (symbol : Z) (c : Coder)
      (t : TraceState) (c1 : Coder) (t1 : TraceState) :
  0 <= symbol < Z.of_nat (length cum_freqs) -> last cum_freqs 0 <> 0 ->
  in_range (narrowed cum_freqs symbol c) ->
  @update _ Trace_hooks cum_freqs symbol (c, t) = Ok (c1, t1) ->
  (exists G, fst t1 = fst t ++ G)
  /\ forall str, agrees str (fst t1) -> good str c1 t1 ->
                 good str (narrowed cum_freqs symbol c) t.
Proof.
  intros Hs Ht Hn Hrun.
  rewrite (@update_eq _ Trace_hooks), narrow_narrowed, bind_Ok in Hrun by assumption.
  apply bind_inv in Hrun. destruct Hrun as ([c2 t2] & H2 & Hrun).
  destruct (Trace_shift_loop_backward _ _ _ _ _ Hn H2) as ((Hc2 & Ht2) & [G HG] & Hb2).
  destruct (Trace_underflow_loop_backward _ _ _ _ _ (in_range_split _ Hc2 Ht2) Hrun)
    as (HG1 & Hb1).
  split.
  - exists G. now rewrite HG1.
  - intros str Hag Hgood. apply Hb2; [now rewrite <- HG1|]. now apply Hb1.
Qed.

(** Appending the terminating [1] bit (and nothing but zeros after it)
    to what the encoder will still write gives a stream that is good for
    the encoder's present state. *)
Lemma future_good (l : list (list Z * Z)) : forall c t c_f t_f,
  normalized c -> Forall pair_ok l ->
  @update_all _ Trace_hooks l (c, t) = Ok (c_f, t_f) ->
  (exists G, fst t_f = fst t ++ G)
  /\ forall str, agrees str (fst t_f ++ [true]) ->
                 (forall i, (length (fst t_f) < i)%nat -> str i = false) ->
                 good str c t.
Proof.
  induction l as [|[cum_freqs symbol] l IH]; intros c t c_f t_f Hn Hl Hrun.
  - inversion Hrun; subst. split; [exists []; now rewrite app_nil_r|].
    intros str Hag Hzero. unfold good.
    assert (Hm : str (length (fst t_f) + 0)%nat = true).
    { rewrite Nat.add_0_r, Hag by (rewrite length_app; cbn [length]; lia).
      now rewrite nth_middle. }
    unfold code_of. cbn [fst snd]. cbv beta.
    rewrite Hm, window_zero by (intros i _; apply Hzero; lia).
    destruct Hn as [Hsp _]. unfold split in Hsp. cbn [Z.b2z]. repeat split; try lia.
    intros j Hj. apply Hzero. lia.
  - inversion Hl as [|p l' [[Hwf Hb] Hsup] Hl']; subst. cbn [fst snd] in *.
    cbn [update_all] in Hrun.
    apply bind_inv in Hrun. destruct Hrun as ([c1 t1] & H1 & Hrun).
    destruct (in_support_index cum_freqs symbol Hwf Hsup) as [Hi Ht].
    pose proof (normalized_range c Hn) as Hr.
    destruct (narrowed_in_range cum_freqs symbol c Hwf Hsup) as (Hnr & Hlo & Hhi);
      [apply split_in_range, Hn|lia|].
    assert (Hn1 : normalized c1).
    { exact (@update_normalized _ Trace_hooks cum_freqs symbol (c, t) (c1, t1)
               (conj Hwf Hb) Hsup Hn H1). }
    destruct (IH _ _ _ _ Hn1 Hl' Hrun) as ([G' HG'] & Hfut).
    destruct (Trace_update_backward _ _ _ _ _ _ Hi Ht Hnr H1) as ([G HG] & Hback).
    split.
    + exists (G ++ G'). now rewrite HG', HG, app_assoc.
    + intros str Hag Hzero.
      apply (good_widen str c (narrowed cum_freqs symbol c)); try assumption.
      apply Hback; [|now apply Hfut].
      rewrite HG', <- app_assoc in Hag. exact (agrees_app_l _ _ _ Hag).
Qed.

(** ** The decoder follows the emitted bit sequence *)

Definition dec_follows (data : list byte) (c : Coder) (t : TraceState)
           (d : DecoderState) : Prop :=
  input d = data
  /\ dec_at (length (fst t) + snd t + 64) d
  /\ code d = code_of (snd t) (fun i => bit_at data (length (fst t) + i)%nat)
  /\ low c <= code d <= high c.

Lemma Decoder_shift_follows (data : list byte) (c : Coder) (t : TraceState)
      (d : DecoderState) (t' : TraceState) :
  in_range c -> top_equal c = true -> dec_follows data c t d ->
  Trace_shift c t = Ok t' ->
  exists d', Decoder_shift c d = Ok d' /\ dec_follows data (shift_step c) t' d'.
Proof.
  intros Hc Ht (Hi & Hat & Hcode & Hin) Htr. inversion Htr; subst t'; clear Htr.
  destruct t as [bits u]. cbn [fst snd] in *.
  destruct (Decoder_shift_spec _ c d Hc Ht Hat Hin) as (d' & Hr & Hat' & Hi' & Hc' & Hin').
  exists d'. split; [exact Hr|]. unfold dec_follows. cbn [fst snd].
  split; [congruence|]. split.
  { replace (length (bits ++ top_bit c :: repeat (negb (top_bit c)) u) + 0 + 64)%nat
      with (S (length bits + u + 64)); [exact Hat'|].
    rewrite length_app. cbn [length]. rewrite repeat_length. lia. }
  split; [|exact Hin'].
  rewrite Hc', Hi, Hcode, code_of_0, (window_S _ 63). unfold code_of. cbv beta.
  rewrite (window_ext (fun i => bit_at data (length bits + S (u + i))%nat)
             (fun i => bit_at data
                         (length (bits ++ top_bit c :: repeat (negb (top_bit c)) u)
                          + i)%nat)).
  2:{ intros i _. f_equal. rewrite length_app. cbn [length].
      rewrite repeat_length. lia. }
  replace (length (bits ++ top_bit c :: repeat (negb (top_bit c)) u) + 63)%nat
    with (length bits + u + 64)%nat
    by (rewrite length_app; cbn [length]; rewrite repeat_length; lia).
  rewrite Hcode in Hin. unfold code_of in Hin. cbv beta in Hin.
  rewrite (window_ext (fun i => bit_at data (length bits + S (u + i))%nat)
             (fun i => bit_at data
                         (length (bits ++ top_bit c :: repeat (negb (top_bit c)) u)
                          + i)%nat)) in Hin.
  2:{ intros i _. f_equal. rewrite length_app. cbn [length].
      rewrite repeat_length. lia. }
  pose proof (window63_range
    (fun i => bit_at data
                (length (bits ++ top_bit c :: repeat (negb (top_bit c)) u) + i)%nat))
    as HW.
  set (W := window _ 63) in *. clearbody W.
  unfold in_range in Hc.
  destruct (shift_step_in_range c Hc Ht) as [(H1 & _)|(H1 & _)].
  - destruct (Z.leb_spec (2 ^ 63) (low c)); [lia|].
    destruct (bit_at data (length bits + 0)); cbn [Z.b2z] in *; lia.
  - destruct (Z.leb_spec (2 ^ 63) (low c)); [|lia].
    destruct (bit_at data (length bits + 0)); cbn [Z.b2z] in *; lia.
Qed.

Lemma Decoder_underflow_follows (data : list byte) (c : Coder) (t : TraceState)
      (d : DecoderState) (t' : TraceState) :
  split c -> straddles c = true -> dec_follows data c t d ->
  Trace_underflow c t = Ok t' ->
  exists d', Decoder_underflow c d = Ok d' /\ dec_follows data (underflow_step c) t' d'.
Proof.
  intros Hc Ht (Hi & Hat & Hcode & Hin) Htr. inversion Htr; subst t'; clear Htr.
  destruct t as [bits u]. cbn [fst snd] in *.
  destruct (Decoder_underflow_spec _ c d Hc Ht Hat Hin)
    as (d' & Hr & Hat' & Hi' & Hc' & Hin').
  exists d'. split; [exact Hr|]. unfold dec_follows. cbn [fst snd].
  split; [congruence|]. split.
  { replace (length bits + S u + 64)%nat with (S (length bits + u + 64)) by lia.
    exact Hat'. }
  split; [|exact Hin'].
  rewrite Hc', Hi, Hcode. unfold code_of. cbv beta.
  rewrite (window_S (fun i => bit_at data (length bits + S (S u + i))%nat) 62).
  rewrite (window_front (fun i => bit_at data (length bits + S (u + i))%nat) 62).
  replace (length bits + S (S u + 62))%nat with (length bits + u + 64)%nat by lia.
  rewrite (window_ext (fun i => bit_at data (length bits + S (u + S i))%nat)
             (fun i => bit_at data (length bits + S (S u + i))%nat))
    by (intros i _; f_equal; lia).
  rewrite Hcode in Hin. unfold code_of in Hin. cbv beta in Hin.
  rewrite (window_front _ 62) in Hin.
  rewrite (window_ext (fun i => bit_at data (length bits + S (u + S i))%nat)
             (fun i => bit_at data (length bits + S (S u + i))%nat)) in Hin
    by (intros i _; f_equal; lia).
  pose proof (window62_range
    (fun i => bit_at data (length bits + S (S u + i))%nat)) as HW.
  set (W := window _ 62) in *. clearbody W.
  destruct (underflow_step_split c Hc Ht) as (H1 & H2 & _).
  unfold split in Hc. change (Z.of_nat 62) with 62 in *.
  destruct (bit_at data (length bits + 0)),
    (bit_at data (length bits + S (u + 0))); cbn [Z.b2z] in *; lia.
Qed.

Lemma decode_follows (data : list byte) (l : list (list Z * Z)) :
  forall c t d c_f t_f,
    normalized c -> Forall pair_ok l ->
    @update_all _ Trace_hooks l (c, t) = Ok (c_f, t_f) ->
    agrees (bit_at data) (fst t_f ++ [true]) ->
    (forall i, (length (fst t_f) < i)%nat -> bit_at data i = false) ->
    dec_follows data c t d ->
    exists d', decode_symbols (map fst l) (c, d) = Ok (map snd l, d').
Proof.
  induction l as [|[cum_freqs symbol] l IH];
    intros c t d c_f t_f Hn Hl Hrun Hag Hzero Hfol.
  - eexists. reflexivity.
  - inversion Hl as [|p l' [[Hwf Hb] Hsup] Hl']; subst. cbn [fst snd] in *.
    cbn [update_all] in Hrun.
    apply bind_inv in Hrun. destruct Hrun as ([c1 t1] & H1 & Hrun).
    destruct (in_support_index cum_freqs symbol Hwf Hsup) as [Hi Ht].
    pose proof (normalized_range c Hn) as Hr.
    pose proof (cdf_wf_length _ Hwf) as Hlen. pose proof Hwf as [_ Hpos].
    destruct (narrowed_in_range cum_freqs symbol c Hwf Hsup) as (Hnr & Hlo & Hhi);
      [apply split_in_range, Hn|lia|].
    assert (Hn1 : normalized c1).
    { exact (@update_normalized _ Trace_hooks cum_freqs symbol (c, t) (c1, t1)
               (conj Hwf Hb) Hsup Hn H1). }
    destruct (future_good l _ _ _ _ Hn1 Hl' Hrun) as ([G' HG'] & Hfut).
    destruct (Trace_update_backward _ _ _ _ _ _ Hi Ht Hnr H1) as (_ & Hback).
    assert (Hgood : good (bit_at data) (narrowed cum_freqs symbol c) t).
    { apply Hback; [|now apply Hfut].
      rewrite HG', <- app_assoc in Hag. exact (agrees_app_l _ _ _ Hag). }
    destruct Hfol as (Hin & Hat & Hcode & Hint).
    destruct Hgood as [Hcn _]. rewrite <- Hcode in Hcn.
    (* the decoder finds the encoder's symbol *)
    cbn [map decode_symbols fst snd].
    rewrite decode_symbol_eq by lia.
    pose proof (decode_value_range cum_freqs c (code d) Hpos Hint) as Hv.
    destruct (searchsorted_right_spec cum_freqs _ Hwf (bounded_int64 _ Hb)
                (int64_key _ _ Hv))
      as (s & Hs & Hsr & Habove & Hbelow).
    assert (Hspan : cum cum_freqs (symbol - 1) <= decode_value cum_freqs c (code d)
                    < cum cum_freqs symbol).
    { apply narrowed_contains; assumption. }
    assert (Es : s = symbol).
    { destruct (Z.lt_trichotomy s symbol) as [Hlt|[Heq|Hgt]]; [|assumption|].
      - destruct (cum_mono cum_freqs s (symbol - 1) Hwf); lia.
      - specialize (Hbelow symbol). lia. }
    subst s. rewrite Hs, bind_Ok.
    (* and then follows the encoder through [update] *)
    destruct (update_sim Trace_hooks Decoder_hooks (dec_follows data)
                (Decoder_shift_follows data) (Decoder_underflow_follows data)
                cum_freqs symbol c t d c1 t1 Hi Ht Hnr) as (d1 & Hd1 & Hfol1 & _);
      [exact (conj Hin (conj Hat (conj Hcode Hcn)))|exact H1|].
    rewrite Hd1, !bind_Ok. cbv beta iota.
    destruct (IH c1 t1 d1 c_f t_f Hn1 Hl' Hrun Hag Hzero Hfol1) as (d' & Hd').
    rewrite Hd', bind_Ok. eexists. reflexivity.
Qed.

Lemma enc_follows_indep (c c' : Coder) (t : TraceState) (e : EncoderState) :
  enc_follows c t e -> enc_follows c' t e.
Proof. exact (fun H => H). Qed.

(** What [encode] returns: the packed bits of the run, then one [1] bit. *)
Lemma encode_bits (l : list (list Z * Z)) :
  Forall pair_ok l ->
  exists c_f t_f e,
    @update_all _ Trace_hooks l (Coder_init, ([], O)) = Ok (c_f, t_f)
    /\ encode l = Ok (encoded_data e)
    /\ enc_rep (fst t_f ++ [true]) e.
Proof.
  intros Hl.
  destruct (Trace_update_all_total l Coder_init ([], O) Hl Coder_init_normalized)
    as (c_f & t_f & Hrun & Hn).
  destruct (update_all_sim Trace_hooks Encoder_hooks enc_follows
              Encoder_shift_follows Encoder_underflow_follows enc_follows_indep
              l Coder_init ([], O) (snd Encoder_init) c_f t_f Hl
              Coder_init_normalized (conj enc_rep_init eq_refl) Hrun)
    as (e_f & He & [Hrep _]).
  destruct (append_bit_spec _ e_f true Hrep) as (e' & Hfin & Hrep' & _).
  exists c_f, t_f, e'. split; [exact Hrun|]. split; [|exact Hrep'].
  unfold encode. rewrite encode_symbols_update_all.
  change Encoder_init with (Coder_init, snd Encoder_init).
  rewrite He, bind_Ok. unfold finish. cbn [fst snd].
  change 1 with (Z.b2z true). rewrite Hfin, !bind_Ok. reflexivity.
Qed.

(** ** The claims about the coder *)

(** A (CDF, symbol) pair as the coder-independence property states it:
    any well-formed CDF, any symbol of its support. *)
Definition pair_wf (p : list Z * Z) : Prop :=
  cdf_wf (fst p) /\ in_support (fst p) (snd p).

Ltac solve_cdf :=
  repeat match goal with
         | |- Forall _ [] => constructor
         | |- Forall _ (_ :: _) => constructor
         | |- pair_ok _ => split
         | |- pair_wf _ => split
         | |- cdf_bounded _ => split
         | |- cdf_wf _ => split
         | |- in_support _ _ => split
         | |- _ /\ _ => split
         | |- _ = true => reflexivity
         | |- (_ < _)%Z => reflexivity
         | |- (_ <= _)%Z => discriminate
         end.

(** C1, amended: when every CDF total is at most [2^62], encoding the
    symbols, finishing, and decoding the bytes with the same CDFs gives
    the symbols back. *)
Theorem coder_roundtrip (l : list (list Z * Z)) :
  Forall pair_ok l ->
  exists data, encode l = Ok data /\ decode data (map fst l) = Ok (map snd l).
Proof.
  intros Hl. destruct (encode_bits l Hl) as (c_f & t_f & e & Hrun & Henc & Hrep).
  exists (encoded_data e). split; [exact Henc|].
  destruct Hrep as (Hbits & _).
  unfold decode.
  destruct (Decoder_init_spec (encoded_data e)) as (d0 & Hinit & Hat & Hin & Hcode).
  rewrite Hinit, bind_Ok.
  destruct (decode_follows (encoded_data e) l Coder_init ([], O) d0 c_f t_f
              Coder_init_normalized Hl Hrun) as (d' & Hd').
  - intros i _. apply Hbits.
  - intros i Hi. rewrite Hbits. apply nth_overflow.
    rewrite length_app. cbn [length]. lia.
  - unfold dec_follows. cbn [fst snd length]. split; [exact Hin|].
    split; [exact Hat|]. split.
    + rewrite Hcode, code_of_0. reflexivity.
    + rewrite Hcode. pose proof (window_range (bit_at (encoded_data e)) 64) as HW.
      unfold Coder_init; cbn [low high]. change state_mask with (2 ^ 64 - 1).
      change (2 ^ Z.of_nat 64) with (2 ^ 64) in HW. lia.
  - rewrite Hd', bind_Ok. reflexivity.
Qed.

Lemma coder_roundtrip_witness :
  exists data,
    encode [([10; 20; 30], 0); ([10; 20; 30], 2); ([5; 5; 9], 2)] = Ok data
    /\ decode data [[10; 20; 30]; [10; 20; 30]; [5; 5; 9]] = Ok [0; 2; 2].
Proof.
  apply (coder_roundtrip [([10; 20; 30], 0); ([10; 20; 30], 2); ([5; 5; 9], 2)]).
  solve_cdf.
Defined.

(** C1 as stated fails: with a total of [2^63] the width-one symbol [0]
    gets an empty interval after the first symbol has narrowed the range
    to about [2^62], and the decoder returns symbol [1] instead. *)
Lemma coder_roundtrip_unbounded_fails :
  exists l data out,
    Forall pair_wf l /\ encode l = Ok data
    /\ decode data (map fst l) = Ok out /\ out <> map snd l.
Proof.
  exists [([2 ^ 30 - 1; 2 ^ 31 + 1; 2 ^ 32], 1); ([1; 2 ^ 63], 0)].
  eexists. eexists. split; [solve_cdf|].
  split; [vm_compute; reflexivity|].
  split; [vm_compute; reflexivity|]. discriminate.
Qed.

(** C4, amended: from the initial interval, through any updates whose
    CDF total is at most [2^62] and whose symbol is in the support,
    [low <= high] before and after each update, and after it the top
    bits of [low] and [high] differ (bit 63 is clear in [low] and set in
    [high]) and the E3 condition is off: it is not the case that bit 62
    is set in [low] and clear in [high]. *)
Theorem coder_interval_invariant {X : Type} {HX : CoderHooks X}
        (s s' : Coder * X) (cum_freqs : list Z) (symbol : Z) :
  reachable cdf_bounded s -> cdf_bounded cum_freqs ->
  in_support cum_freqs symbol -> update cum_freqs symbol s = Ok s' ->
  low (fst s) <= high (fst s) /\ low (fst s') <= high (fst s')
  /\ (Z.testbit (low (fst s')) 63 = false /\ Z.testbit (high (fst s')) 63 = true)
  /\ Z.testbit (low (fst s')) 63 <> Z.testbit (high (fst s')) 63
  /\ ~ (Z.testbit (low (fst s')) 62 = true
        /\ Z.testbit (high (fst s')) 62 = false).
Proof.
  intros Hs Hcdf Hsup Hrun.
  pose proof (reachable_normalized s Hs) as Hn.
  pose proof (update_normalized cum_freqs symbol s s' Hcdf Hsup Hn Hrun) as Hn'.
  destruct Hn as [Hsp _], Hn' as [Hsp' Hq']. unfold split in *.
  assert (Hl63 : Z.testbit (low (fst s')) 63 = false).
  { rewrite testbit_63 by lia. apply Z.leb_gt. lia. }
  assert (Hh63 : Z.testbit (high (fst s')) 63 = true).
  { rewrite testbit_63 by lia. apply Z.leb_le. lia. }
  split; [lia|]. split; [lia|]. split; [split; assumption|].
  split; [rewrite Hl63, Hh63; discriminate|].
  intros [Hl62 Hh62].
  rewrite testbit_62_low in Hl62 by lia.
  rewrite testbit_62_high in Hh62 by lia.
  apply Z.leb_le in Hl62. apply Z.leb_gt in Hh62. lia.
Qed.

Lemma coder_interval_invariant_witness :
  exists s' : Encoder,
    update [10; 20; 30] 1 Encoder_init = Ok s'
    /\ low (fst Encoder_init) <= high (fst Encoder_init)
    /\ low (fst s') <= high (fst s')
    /\ (Z.testbit (low (fst s')) 63 = false /\ Z.testbit (high (fst s')) 63 = true)
    /\ Z.testbit (low (fst s')) 63 <> Z.testbit (high (fst s')) 63
    /\ ~ (Z.testbit (low (fst s')) 62 = true
          /\ Z.testbit (high (fst s')) 62 = false).
Proof.
  eexists. split; [vm_compute; reflexivity|].
  apply (@coder_interval_invariant _ Encoder_hooks Encoder_init _ [10; 20; 30] 1).
  - apply reachable_init.
  - solve_cdf.
  - solve_cdf.
  - vm_compute. reflexivity.
Defined.

(** C4 as stated fails: a well-formed CDF whose total exceeds the width
    of the interval leaves [high < low]. *)
Lemma coder_interval_unbounded_fails :
  exists (s s' : Encoder) (cum_freqs : list Z) (symbol : Z),
    reachable cdf_wf s /\ cdf_wf cum_freqs /\ in_support cum_freqs symbol
    /\ update cum_freqs symbol s = Ok s'
    /\ high (fst s') < low (fst s').
Proof.
  eexists. eexists. exists [1; 2 ^ 63], 0.
  split.
  { eapply (reachable_update cdf_wf Encoder_init _ [2 ^ 30 - 1; 2 ^ 31 + 1; 2 ^ 32] 1).
    - apply reachable_init.
    - solve_cdf.
    - solve_cdf.
    - vm_compute. reflexivity. }
  split; [solve_cdf|]. split; [solve_cdf|].
  split; [vm_compute; reflexivity|]. reflexivity.
Qed.

(** C6, amended: on every decoder state (64-bit registers,
    [low <= code <= high]) and every well-formed CDF whose entries are
    below [2^63], so that NumPy holds it as [int64], [decode_symbol]
    returns the smallest index whose cumulative frequency is strictly
    greater than [((code - low + 1) * total - 1) / range], the division
    truncating; equal consecutive entries are skipped up to the first
    one that exceeds the value. *)
Theorem decode_symbol_selects (cum_freqs : list Z) (s : Decoder) :
  cdf_wf cum_freqs -> last cum_freqs 0 < 2 ^ 63 -> decoder_state s ->
  exists symbol s',
    decode_symbol cum_freqs s = Ok (symbol, s')
    /\ 0 <= symbol < Z.of_nat (length cum_freqs)
    /\ forall value,
         value = Z.quot ((code (snd s) - low (fst s) + 1) * last cum_freqs 0 - 1)
                        (high (fst s) - low (fst s) + 1) ->
         value < nth (Z.to_nat symbol) cum_freqs 0
         /\ forall j, (j < Z.to_nat symbol)%nat -> nth j cum_freqs 0 <= value.
Proof.
  intros Hwf Hb63 (Hc & Hcur & Hcode). destruct s as [c d]. cbn [fst snd] in *.
  destruct (decode_symbol_spec cum_freqs c d Hwf Hb63 Hc)
    as (symbol & c' & d' & Hrun & Hs & Habove & Hbelow & _);
    [split; [reflexivity|split; assumption]|].
  exists symbol, (c', d'). split; [exact Hrun|]. split; [exact Hs|].
  intros value ->. unfold in_range in Hc. destruct Hwf as [_ Hpos].
  rewrite Z.quot_div_nonneg by nia.
  change (((code d - low c + 1) * last cum_freqs 0 - 1) / (high c - low c + 1))
    with (decode_value cum_freqs c (code d)).
  split.
  - unfold cum in Habove. destruct (Z.ltb_spec symbol 0); [lia|]. exact Habove.
  - intros j Hj. specialize (Hbelow (Z.of_nat j) ltac:(lia)).
    unfold cum in Hbelow. destruct (Z.ltb_spec (Z.of_nat j) 0); [lia|].
    now rewrite Nat2Z.id in Hbelow.
Qed.

(** A CDF with ties: entries [5; 5; 9]; the code [5 * 2^61] gives the value [5], which selects index 2. *)
Lemma decode_symbol_selects_witness :
  exists symbol s',
    decode_symbol [5; 5; 9]
      (Coder_init, {| input := []; byte_index := 0; dec_bit_index := 0;
                      code := 5 * 2 ^ 61 |}) = Ok (symbol, s')
    /\ 0 <= symbol < 3
    /\ forall value,
         value = Z.quot ((5 * 2 ^ 61 - 0 + 1) * 9 - 1) (state_mask - 0 + 1) ->
         value < nth (Z.to_nat symbol) [5; 5; 9] 0
         /\ forall j, (j < Z.to_nat symbol)%nat -> nth j [5; 5; 9] 0 <= value.
Proof.
  apply (decode_symbol_selects [5; 5; 9]
           (Coder_init, {| input := []; byte_index := 0; dec_bit_index := 0;
                           code := 5 * 2 ^ 61 |})).
  - solve_cdf.
  - reflexivity.
  - unfold decoder_state, in_range, cursor_ok, Coder_init.
    cbn [fst snd low high code byte_index dec_bit_index].
    change state_mask with (2 ^ 64 - 1). lia.
Defined.

(** C6 as stated fails: the Python list [[1, 2**63]] becomes a [float64]
    array, in which the key [2^63 - 1] of the decoder made from eight
    [0xFF] bytes rounds up to [2^63]; the search returns 2 where the
    smallest index with an entry above the key is 1, and [update]
    raises [IndexError]. *)
Lemma decode_symbol_float64_fails :
  exists (cum_freqs : list Z) (s : Decoder),
    cdf_wf cum_freqs /\ decoder_state s
    /\ Decoder_init (repeat xff 8) = Ok s
    /\ Z.quot ((code (snd s) - low (fst s) + 1) * last cum_freqs 0 - 1)
              (high (fst s) - low (fst s) + 1) = 2 ^ 63 - 1
    /\ searchsorted_right cum_freqs (2 ^ 63 - 1) = Ok 2
    /\ decode_symbol cum_freqs s = Err IndexError.
Proof.
  exists [1; 2 ^ 63].
  exists (Coder_init, {| input := repeat xff 8; byte_index := 8;
                         dec_bit_index := 0; code := 2 ^ 64 - 1 |}).
  split; [solve_cdf|]. split.
  { unfold decoder_state, in_range, cursor_ok, Coder_init.
    cbn [fst snd low high code byte_index dec_bit_index].
    change state_mask with (2 ^ 64 - 1). lia. }
  split; [vm_compute; reflexivity|]. split; [vm_compute; reflexivity|].
  split; vm_compute; reflexivity.
Qed.

Example decode_symbol_tie :
  (r <- decode_symbol [5; 5; 9]
          (Coder_init, {| input := []; byte_index := 0; dec_bit_index := 0;
                          code := 5 * 2 ^ 61 |}) ;; Ok (fst r)) = Ok 2.
Proof. reflexivity. Qed.

(** ** Decoder totality *)

Fixpoint increasing_from (prev : Z) (c : list Z) : bool :=
  match c with
  | [] => true
  | x :: c' => (prev <? x) && increasing_from x c'
  end.

(** A CDF as [compute_cdf] is meant to build it: not empty, strictly
    increasing, first entry positive. *)
Definition cdf_increasing (c : list Z) : Prop :=
  c <> [] /\ increasing_from 0 c = true.

Lemma increasing_nondecreasing (c : list Z) : forall prev,
  increasing_from prev c = true -> nondecreasing_from prev c = true.
Proof.
  induction c as [|x c IH]; intros prev H; [reflexivity|].
  cbn [increasing_from nondecreasing_from] in *.
  apply andb_true_iff in H. destruct H as [H1 H2]. apply Z.ltb_lt in H1.
  apply andb_true_iff. split; [apply Z.leb_le; lia|auto].
Qed.

Lemma increasing_last (c : list Z) : forall prev d,
  increasing_from prev c = true -> c <> [] -> prev < last c d.
Proof.
  induction c as [|x c IH]; intros prev d H Hne; [contradiction|].
  cbn [increasing_from] in H. apply andb_true_iff in H. destruct H as [H1 H2].
  apply Z.ltb_lt in H1. destruct c as [|y c]; [exact H1|].
  change (last (x :: y :: c) d) with (last (y :: c) d).
  specialize (IH x d H2 ltac:(discriminate)). lia.
Qed.

Lemma cdf_increasing_wf (c : list Z) : cdf_increasing c -> cdf_wf c.
Proof.
  intros [Hne Hinc]. split.
  - now apply increasing_nondecreasing.
  - now apply increasing_last.
Qed.

Lemma decode_symbols_total (cdfs : list (list Z)) : forall c d,
  Forall (fun cum_freqs => cdf_increasing cum_freqs /\ last cum_freqs 0 < 2 ^ 63) cdfs ->
  in_range c -> dec_tracks (input d) c d ->
  exists syms c' d',
    decode_symbols cdfs (c, d) = Ok (syms, (c', d'))
    /\ in_range c' /\ dec_tracks (input d) c' d'
    /\ Forall2 (fun cum_freqs symbol =>
                  0 <= symbol < Z.of_nat (length cum_freqs)) cdfs syms.
Proof.
  induction cdfs as [|cum_freqs cdfs IH]; intros c d Hl Hc Htr.
  - exists [], c, d. cbn [decode_symbols]. auto.
  - inversion Hl as [|x l' [Hcdf Hb63] Hl']; subst.
    destruct (decode_symbol_spec cum_freqs c d (cdf_increasing_wf _ Hcdf) Hb63 Hc Htr)
      as (symbol & c1 & d1 & Hrun & Hs & _ & _ & Hn1 & Htr1).
    pose proof Htr1 as (Hin1 & _).
    rewrite <- Hin1 in Htr1.
    destruct (IH c1 d1 Hl' (split_in_range _ (proj1 Hn1)) Htr1)
      as (syms & c2 & d2 & Hrun2 & Hc2 & Htr2 & Hall).
    exists (symbol :: syms), c2, d2. cbn [decode_symbols].
    rewrite Hrun, bind_Ok. cbv beta iota. rewrite Hrun2, bind_Ok.
    split; [reflexivity|]. split; [exact Hc2|].
    split; [rewrite <- Hin1; exact Htr2|]. constructor; assumption.
Qed.

(** C10, amended: whatever bytes the decoder is constructed from, and
    whatever strictly increasing positive CDFs with entries below [2^63]
    it is given, construction and every [decode_symbol] return; each
    symbol is an index into its CDF, the final state satisfies
    [low <= code <= high], and the value looked up next is below the
    total of any such CDF. *)
Theorem decoder_total (data : list byte) (cdfs : list (list Z)) :
  Forall (fun cum_freqs => cdf_increasing cum_freqs /\ last cum_freqs 0 < 2 ^ 63) cdfs ->
  exists d0 syms s,
    Decoder_init data = Ok d0
    /\ decode_symbols cdfs d0 = Ok (syms, s)
    /\ Forall2 (fun cum_freqs symbol =>
                  0 <= symbol < Z.of_nat (length cum_freqs)) cdfs syms
    /\ low (fst s) <= code (snd s) <= high (fst s)
    /\ forall cum_freqs, cdf_increasing cum_freqs ->
         0 <= decode_value cum_freqs (fst s) (code (snd s)) < last cum_freqs 0.
Proof.
  intros Hl.
  destruct (Decoder_init_spec data) as (d & Hinit & Hat & Hin & Hcode).
  assert (Hc : in_range Coder_init).
  { apply split_in_range, Coder_init_normalized. }
  assert (Htr : dec_tracks (input d) Coder_init d).
  { split; [reflexivity|]. split; [apply cursor_ok_dec_at; eauto|].
    rewrite Hcode. pose proof (window_range (bit_at data) 64) as HW.
    unfold Coder_init; cbn [low high]. change state_mask with (2 ^ 64 - 1).
    change (2 ^ Z.of_nat 64) with (2 ^ 64) in HW. lia. }
  destruct (decode_symbols_total cdfs Coder_init d Hl Hc Htr)
    as (syms & c' & d' & Hrun & Hc' & (_ & _ & Hcode') & Hall).
  exists (Coder_init, d), syms, (c', d'). cbn [fst snd].
  split; [exact Hinit|]. split; [exact Hrun|]. split; [exact Hall|].
  split; [exact Hcode'|].
  intros cum_freqs Hcdf. apply decode_value_range; [|exact Hcode'].
  apply cdf_increasing_wf, Hcdf.
Qed.

Lemma decoder_total_witness :
  exists d0 syms s,
    Decoder_init [xf1; x07] = Ok d0
    /\ decode_symbols [[1; 2; 3]; [4; 8]] d0 = Ok (syms, s)
    /\ Forall2 (fun cum_freqs symbol =>
                  0 <= symbol < Z.of_nat (length cum_freqs)) [[1; 2; 3]; [4; 8]] syms
    /\ low (fst s) <= code (snd s) <= high (fst s)
    /\ forall cum_freqs, cdf_increasing cum_freqs ->
         0 <= decode_value cum_freqs (fst s) (code (snd s)) < last cum_freqs 0.
Proof.
  apply (decoder_total [xf1; x07] [[1; 2; 3]; [4; 8]]).
  repeat constructor; discriminate.
Defined.

(** C10 as stated fails: the strictly increasing CDF [[1, 2**63]] is
    searched as a [float64] array; on the decoder made from eight [0xFF]
    bytes the key [2^63 - 1] rounds up to the total, the search returns
    the length of the CDF and [cum_freqs[symbol]] raises [IndexError]. *)
Lemma decoder_float64_fails :
  exists (data : list byte) (cdfs : list (list Z)) (d0 : Decoder),
    Forall cdf_increasing cdfs
    /\ Decoder_init data = Ok d0
    /\ decode_symbols cdfs d0 = Err IndexError.
Proof.
  exists (repeat xff 8), [[1; 2 ^ 63]].
  exists (Coder_init, {| input := repeat xff 8; byte_index := 8;
                         dec_bit_index := 0; code := 2 ^ 64 - 1 |}).
  split; [constructor; [split; [discriminate|reflexivity]|constructor]|].
  split; vm_compute; reflexivity.
Qed.

(** ** The output format *)

(** One byte from up to eight bits, the first bit the most significant,
    missing bits zero. *)
Definition byte_of_bits (l : list bool) : byte :=
  Byte.of_bits (nth 7 l false, (nth 6 l false, (nth 5 l false, (nth 4 l false,
               (nth 3 l false, (nth 2 l false, (nth 1 l false, nth 0 l false))))))).

(** The packed MSB-first bitstream of the specification: byte [q] holds
    bits [8q .. 8q+7]; the last byte is padded with zero bits; nothing
    precedes or follows. *)
Definition pack (bits : list bool) : list byte :=
  map (fun q => byte_of_bits (firstn 8 (skipn (8 * q) bits)))
      (seq 0 ((length bits + 7) / 8)).


Lemma byte_of_bits_testbit (l : list bool) (r : nat) :
  (r < 8)%nat ->
  Z.testbit (byte_to_Z (byte_of_bits l)) (7 - Z.of_nat r) = nth r l false.
Proof.
  intros Hr. unfold byte_of_bits.
  do 8 (destruct r as [|r];
        [generalize (nth 0 l false), (nth 1 l false), (nth 2 l false),
           (nth 3 l false), (nth 4 l false), (nth 5 l false), (nth 6 l false),
           (nth 7 l false);
         intros [] [] [] [] [] [] [] []; reflexivity|]).
  lia.
Qed.

Lemma pack_length (bits : list bool) :
  length (pack bits) = ((length bits + 7) / 8)%nat.
Proof. unfold pack. now rewrite length_map, length_seq. Qed.

Lemma pack_bit_at (bits : list bool) (i : nat) :
  bit_at (pack bits) i = nth i bits false.
Proof.
  destruct (bit_at_split (pack bits) i) as (q & r & -> & Hr & ->).
  destruct (Nat.lt_ge_cases q ((length bits + 7) / 8)) as [Hq|Hq].
  - unfold pack.
    rewrite (nth_indep _ x00 (byte_of_bits (firstn 8 (skipn (8 * 0) bits))))
      by (now rewrite length_map, length_seq).
    rewrite (map_nth (fun q => byte_of_bits (firstn 8 (skipn (8 * q) bits)))).
    rewrite seq_nth by assumption. cbn [plus].
    rewrite byte_of_bits_testbit, nth_firstn by assumption.
    destruct (Nat.ltb_spec r 8); [|lia]. apply nth_skipn.
  - rewrite (nth_overflow (pack bits)) by (now rewrite pack_length).
    change (byte_to_Z x00) with 0. rewrite Z.testbit_0_l.
    symmetry. apply nth_overflow.
    assert (length bits + 7 < 8 * (q + 1))%nat; [|lia].
    pose proof (Nat.div_mod_eq (length bits + 7) 8) as E.
    pose proof (Nat.mod_upper_bound (length bits + 7) 8 ltac:(lia)). nia.
Qed.

Lemma testbit_above_8 (x k : Z) : 0 <= x < 256 -> 8 <= k -> Z.testbit x k = false.
Proof.
  intros Hx Hk. apply Z.testbit_false; [lia|].
  rewrite Z.div_small; [reflexivity|].
  assert (2 ^ 8 <= 2 ^ k) by (apply Z.pow_le_mono_r; lia).
  change (2 ^ 8) with 256 in *. lia.
Qed.

Lemma bytes_ext (a b : list byte) :
  length a = length b -> (forall i, bit_at a i = bit_at b i) -> a = b.
Proof.
  intros Hlen Hbits. apply (nth_ext a b x00 x00 Hlen). intros q Hq.
  apply byte_to_Z_inj. apply Z.bits_inj'. intros k Hk.
  destruct (Z.lt_ge_cases k 8) as [Hlt|Hge].
  - specialize (Hbits (8 * q + Z.to_nat (7 - k))%nat).
    rewrite !bit_at_qr in Hbits by lia.
    replace (7 - Z.of_nat (Z.to_nat (7 - k))) with k in Hbits by lia. exact Hbits.
  - rewrite !testbit_above_8 by (apply byte_to_Z_range || lia). reflexivity.
Qed.

Lemma enc_rep_pack (bits : list bool) (e : EncoderState) :
  enc_rep bits e -> encoded_data e = pack bits.
Proof.
  intros (Hbits & Hidx & Hrange). apply bytes_ext.
  - rewrite pack_length.
    apply (Nat.div_unique _ 8 _ (Z.to_nat (enc_bit_index e) - 1)); lia.
  - intros i. now rewrite pack_bit_at.
Qed.



(** The whole of [encode]: the bits written by the shifts of the run,
    one [1] bit, packed. *)
Lemma encode_packed (l : list (list Z * Z)) :
  Forall pair_ok l ->
  exists c_f t_f,
    @update_all _ Trace_hooks l (Coder_init, ([], O)) = Ok (c_f, t_f)
    /\ encode l = Ok (pack (fst t_f ++ [true])).
Proof.
  intros Hl. destruct (encode_bits l Hl) as (c_f & t_f & e & Hrun & Henc & Hrep).
  exists c_f, t_f. split; [exact Hrun|]. rewrite Henc. f_equal.
  now apply enc_rep_pack.
Qed.

Example pack_example :
  pack [true; false; true; true; false; false; false; false; true; true]
  = [xb0; xc0].
Proof. reflexivity. Qed.

(** ** Decoding one symbol of an encoded run *)

(** One step of the decoder on the bytes of an encoder run: it finds the
    encoder's symbol and lands in the state that follows the rest of
    the run. *)
Lemma decode_head_follows (data : list byte) (cum_freqs : list Z) (symbol : Z)
      (l : list (list Z * Z)) (c : Coder) (t : TraceState) (d : DecoderState)
      (c_f : Coder) (t_f : TraceState) :
  normalized c -> Forall pair_ok ((cum_freqs, symbol) :: l) ->
  @update_all _ Trace_hooks ((cum_freqs, symbol) :: l) (c, t) = Ok (c_f, t_f) ->
  agrees (bit_at data) (fst t_f ++ [true]) ->
  (forall i, (length (fst t_f) < i)%nat -> bit_at data i = false) ->
  dec_follows data c t d ->
  exists c1 t1 d1,
    decode_symbol cum_freqs (c, d) = Ok (symbol, (c1, d1))
    /\ normalized c1
    /\ @update_all _ Trace_hooks l (c1, t1) = Ok (c_f, t_f)
    /\ dec_follows data c1 t1 d1.
Proof.
  intros Hn Hl Hrun Hag Hzero Hfol.
  inversion Hl as [|p l' [[Hwf Hb] Hsup] Hl']; subst. cbn [fst snd] in *.
  cbn [update_all] in Hrun.
  apply bind_inv in Hrun. destruct Hrun as ([c1 t1] & H1 & Hrun).
  destruct (in_support_index cum_freqs symbol Hwf Hsup) as [Hi Ht].
  pose proof (normalized_range c Hn) as Hr.
  pose proof (cdf_wf_length _ Hwf) as Hlen. pose proof Hwf as [_ Hpos].
  destruct (narrowed_in_range cum_freqs symbol c Hwf Hsup) as (Hnr & Hlo & Hhi);
    [apply split_in_range, Hn|lia|].
  assert (Hn1 : normalized c1).
  { exact (@update_normalized _ Trace_hooks cum_freqs symbol (c, t) (c1, t1)
             (conj Hwf Hb) Hsup Hn H1). }
  destruct (future_good l _ _ _ _ Hn1 Hl' Hrun) as ([G' HG'] & Hfut).
  destruct (Trace_update_backward _ _ _ _ _ _ Hi Ht Hnr H1) as (_ & Hback).
  assert (Hgood : good (bit_at data) (narrowed cum_freqs symbol c) t).
  { apply Hback; [|now apply Hfut].
    rewrite HG', <- app_assoc in Hag. exact (agrees_app_l _ _ _ Hag). }
  destruct Hfol as (Hin & Hat & Hcode & Hint).
  destruct Hgood as [Hcn _]. rewrite <- Hcode in Hcn.
  rewrite decode_symbol_eq by lia.
  pose proof (decode_value_range cum_freqs c (code d) Hpos Hint) as Hv.
  destruct (searchsorted_right_spec cum_freqs _ Hwf (bounded_int64 _ Hb)
              (int64_key _ _ Hv))
    as (s & Hs & Hsr & Habove & Hbelow).
  assert (Hspan : cum cum_freqs (symbol - 1) <= decode_value cum_freqs c (code d)
                  < cum cum_freqs symbol).
  { apply narrowed_contains; assumption. }
  assert (Es : s = symbol).
  { destruct (Z.lt_trichotomy s symbol) as [Hlt|[Heq|Hgt]]; [|assumption|].
    - destruct (cum_mono cum_freqs s (symbol - 1) Hwf); lia.
    - specialize (Hbelow symbol). lia. }
  subst s. rewrite Hs, bind_Ok.
  destruct (update_sim Trace_hooks Decoder_hooks (dec_follows data)
              (Decoder_shift_follows data) (Decoder_underflow_follows data)
              cum_freqs symbol c t d c1 t1 Hi Ht Hnr) as (d1 & Hd1 & Hfol1 & _);
    [exact (conj Hin (conj Hat (conj Hcode Hcn)))|exact H1|].
  rewrite Hd1, !bind_Ok.
  exists c1, t1, d1. split; [reflexivity|]. split; [exact Hn1|].
  split; [exact Hrun|exact Hfol1].
Qed.

(** The bytes of an encoder run, and the decoder constructed from them. *)
Lemma encode_decoder_start (l : list (list Z * Z)) :
  Forall pair_ok l ->
  exists data c_f t_f d0,
    encode l = Ok data
    /\ @update_all _ Trace_hooks l (Coder_init, ([], O)) = Ok (c_f, t_f)
    /\ agrees (bit_at data) (fst t_f ++ [true])
    /\ (forall i, (length (fst t_f) < i)%nat -> bit_at data i = false)
    /\ Decoder_init data = Ok (Coder_init, d0)
    /\ dec_follows data Coder_init ([], O) d0.
Proof.
  intros Hl. destruct (encode_bits l Hl) as (c_f & t_f & e & Hrun & Henc & Hrep).
  destruct Hrep as (Hbits & _).
  destruct (Decoder_init_spec (encoded_data e)) as (d0 & Hinit & Hat & Hin & Hcode).
  exists (encoded_data e), c_f, t_f, d0.
  split; [exact Henc|]. split; [exact Hrun|].
  split; [intros i _; apply Hbits|].
  split.
  { intros i Hi. rewrite Hbits. apply nth_overflow.
    rewrite length_app. cbn [length]. lia. }
  split; [exact Hinit|].
  unfold dec_follows. cbn [fst snd length]. split; [exact Hin|].
  split; [exact Hat|]. split.
  - rewrite Hcode, code_of_0. reflexivity.
  - rewrite Hcode. pose proof (window_range (bit_at (encoded_data e)) 64) as HW.
    unfold Coder_init; cbn [low high]. change state_mask with (2 ^ 64 - 1).
    change (2 ^ Z.of_nat 64) with (2 ^ 64) in HW. lia.
Qed.
(** ** The end of the encoded stream *)

Lemma byte_to_Z_x00 : byte_to_Z x00 = 0.
Proof. reflexivity. Qed.

Lemma last_as_nth {A : Type} (l : list A) (d : A) :
  last l d = nth (length l - 1) l d.
Proof.
  induction l as [|a l IH]; [reflexivity|].
  destruct l as [|b l]; [reflexivity|].
  change (last (a :: b :: l) d) with (last (b :: l) d). rewrite IH.
  cbn [length]. rewrite !Nat.sub_succ, !Nat.sub_0_r. reflexivity.
Qed.

Lemma last_bit_nonzero (bits : list bool) :
  pack (bits ++ [true]) <> []
  /\ last (pack (bits ++ [true])) x00 <> x00.
Proof.
  pose proof (pack_length (bits ++ [true])) as Hlen.
  pose proof (pack_bit_at (bits ++ [true]) (length bits)) as Hbit.
  rewrite nth_middle in Hbit.
  rewrite length_app in Hlen. cbn [length] in Hlen.
  replace (length bits + 1 + 7)%nat with (length bits + 1 * 8)%nat in Hlen by lia.
  rewrite Nat.div_add in Hlen by lia.
  split.
  - intros E. rewrite E in Hlen. cbn [length] in Hlen. lia.
  - intros E. unfold bit_at in Hbit. rewrite last_as_nth, Hlen in E.
    replace (length bits / 8 + 1 - 1)%nat with (length bits / 8)%nat in E by lia.
    rewrite E, byte_to_Z_x00, Z.bits_0 in Hbit. discriminate.
Qed.

(** ** Zero bytes after the end of the input *)

Definition same_stream (d1 d2 : DecoderState) : Prop :=
  code d1 = code d2
  /\ exists n, dec_at n d1 /\ dec_at n d2
               /\ forall i, (n <= i)%nat -> bit_at (input d1) i = bit_at (input d2) i.

Definition result_sim {A : Type} (R : A -> A -> Prop) (r1 r2 : result A) : Prop :=
  match r1, r2 with
  | Ok a1, Ok a2 => R a1 a2
  | Err e1, Err e2 => e1 = e2
  | _, _ => False
  end.

Definition same_decoder (s1 s2 : Decoder) : Prop :=
  fst s1 = fst s2 /\ same_stream (snd s1) (snd s2).

Lemma bit_at_app_zeros (data : list byte) (k i : nat) :
  bit_at (data ++ repeat x00 k) i = bit_at data i.
Proof.
  unfold bit_at. f_equal. f_equal.
  destruct (Nat.lt_ge_cases (i / 8) (length data)) as [Hlt|Hge].
  - now apply app_nth1.
  - rewrite app_nth2 by lia. rewrite (nth_overflow data) by lia.
    destruct (Nat.lt_ge_cases (i / 8 - length data) k) as [Hk|Hk].
    + apply nth_repeat_lt. exact Hk.
    + apply nth_overflow. rewrite repeat_length. lia.
Qed.

Lemma read_code_bit_sim (d1 d2 : DecoderState) :
  same_stream d1 d2 ->
  exists bit d1' d2',
    read_code_bit d1 = Ok (bit, d1') /\ read_code_bit d2 = Ok (bit, d2')
    /\ code d1' = code d1 /\ code d2' = code d2
    /\ same_stream d1' d2'.
Proof.
  intros (Hcode & n & H1 & H2 & Hbits).
  destruct (read_code_bit_spec n d1 H1) as (d1' & E1 & Hat1 & Hin1 & Hc1).
  destruct (read_code_bit_spec n d2 H2) as (d2' & E2 & Hat2 & Hin2 & Hc2).
  exists (Z.b2z (bit_at (input d1) n)), d1', d2'.
  split; [exact E1|]. split; [rewrite (Hbits n) by lia; exact E2|].
  split; [exact Hc1|]. split; [exact Hc2|].
  split; [congruence|]. exists (S n). split; [exact Hat1|]. split; [exact Hat2|].
  intros i Hi. rewrite Hin1, Hin2. apply Hbits. lia.
Qed.

Lemma same_stream_code (d1 d2 d1' d2' : DecoderState) (v : Z) :
  same_stream d1 d2 ->
  same_stream
    {| input := input d1; byte_index := byte_index d1;
       dec_bit_index := dec_bit_index d1; code := v |}
    {| input := input d2; byte_index := byte_index d2;
       dec_bit_index := dec_bit_index d2; code := v |}.
Proof.
  intros (_ & n & H1 & H2 & Hbits). split; [reflexivity|].
  exists n. split; [|split].
  - exact (dec_at_cursor n d1 _ H1 eq_refl eq_refl eq_refl).
  - exact (dec_at_cursor n d2 _ H2 eq_refl eq_refl eq_refl).
  - exact Hbits.
Qed.

Lemma Decoder_shift_sim (c : Coder) (d1 d2 : DecoderState) :
  same_stream d1 d2 ->
  exists d1' d2', @shift _ Decoder_hooks c d1 = Ok d1'
                  /\ @shift _ Decoder_hooks c d2 = Ok d2'
                  /\ same_stream d1' d2'.
Proof.
  intros H. pose proof H as [Hcode _].
  destruct (read_code_bit_sim d1 d2 H) as (bit & d1' & d2' & E1 & E2 & _ & _ & H').
  cbn [shift Decoder_hooks]. unfold Decoder_shift.
  rewrite E1, E2, !bind_Ok. cbv beta iota. rewrite Hcode.
  eexists. eexists. split; [reflexivity|]. split; [reflexivity|].
  now apply same_stream_code.
Qed.

Lemma Decoder_underflow_sim (c : Coder) (d1 d2 : DecoderState) :
  same_stream d1 d2 ->
  exists d1' d2', @underflow _ Decoder_hooks c d1 = Ok d1'
                  /\ @underflow _ Decoder_hooks c d2 = Ok d2'
                  /\ same_stream d1' d2'.
Proof.
  intros H. pose proof H as [Hcode _].
  destruct (read_code_bit_sim d1 d2 H) as (bit & d1' & d2' & E1 & E2 & _ & _ & H').
  cbn [underflow Decoder_hooks]. unfold Decoder_underflow.
  rewrite E1, E2, !bind_Ok. cbv beta iota. rewrite Hcode.
  eexists. eexists. split; [reflexivity|]. split; [reflexivity|].
  now apply same_stream_code.
Qed.

Lemma shift_loop_same (fuel : nat) : forall c d1 d2,
  same_stream d1 d2 ->
  result_sim same_decoder (@shift_loop _ Decoder_hooks fuel c d1)
                          (@shift_loop _ Decoder_hooks fuel c d2).
Proof.
  induction fuel as [|fuel IH]; intros c d1 d2 H; [reflexivity|].
  rewrite !(@shift_loop_S _ Decoder_hooks).
  destruct (top_equal c).
  - destruct (Decoder_shift_sim c d1 d2 H) as (d1' & d2' & E1 & E2 & H').
    rewrite E1, E2, !bind_Ok. now apply IH.
  - split; [reflexivity|exact H].
Qed.

Lemma underflow_loop_same (fuel : nat) : forall c d1 d2,
  same_stream d1 d2 ->
  result_sim same_decoder (@underflow_loop _ Decoder_hooks fuel c d1)
                          (@underflow_loop _ Decoder_hooks fuel c d2).
Proof.
  induction fuel as [|fuel IH]; intros c d1 d2 H; [reflexivity|].
  rewrite !(@underflow_loop_S _ Decoder_hooks).
  destruct (straddles c).
  - destruct (Decoder_underflow_sim c d1 d2 H) as (d1' & d2' & E1 & E2 & H').
    rewrite E1, E2, !bind_Ok. now apply IH.
  - split; [reflexivity|exact H].
Qed.

Lemma update_same (cum_freqs : list Z) (symbol : Z) (c : Coder)
      (d1 d2 : DecoderState) :
  same_stream d1 d2 ->
  result_sim same_decoder (@update _ Decoder_hooks cum_freqs symbol (c, d1))
                          (@update _ Decoder_hooks cum_freqs symbol (c, d2)).
Proof.
  intros H. rewrite !(@update_eq _ Decoder_hooks).
  destruct (narrow cum_freqs symbol c) as [c1|e]; [|reflexivity].
  rewrite !bind_Ok.
  pose proof (shift_loop_same loop_fuel c1 d1 d2 H) as Hs.
  destruct (@shift_loop _ Decoder_hooks loop_fuel c1 d1) as [[c2 x1]|e1],
           (@shift_loop _ Decoder_hooks loop_fuel c1 d2) as [[c2' x2]|e2];
    cbn [result_sim] in Hs; try contradiction.
  - destruct Hs as [Ec Hx]. cbn [fst snd] in Ec, Hx. subst c2'.
    rewrite !bind_Ok. now apply underflow_loop_same.
  - subst. reflexivity.
Qed.

Definition same_decoded (r1 r2 : Z * Decoder) : Prop :=
  fst r1 = fst r2 /\ same_decoder (snd r1) (snd r2).

Lemma decode_symbol_same (cum_freqs : list Z) (s1 s2 : Decoder) :
  same_decoder s1 s2 ->
  result_sim same_decoded (decode_symbol cum_freqs s1) (decode_symbol cum_freqs s2).
Proof.
  destruct s1 as [c d1], s2 as [c' d2]. intros [Ec H]. cbn [fst snd] in Ec, H.
  subst c'. pose proof H as [Hcode _]. unfold decode_symbol. cbn [fst snd].
  rewrite Hcode.
  destruct (py_index 0 cum_freqs (-1)) as [total|e]; [|reflexivity].
  rewrite !bind_Ok.
  destruct (py_floordiv _ _) as [value|e]; [|reflexivity].
  rewrite !bind_Ok.
  destruct (searchsorted_right cum_freqs value) as [symbol|e]; [|reflexivity].
  rewrite !bind_Ok.
  pose proof (update_same cum_freqs symbol c d1 d2 H) as Hu.
  destruct (@update _ Decoder_hooks cum_freqs symbol (c, d1)) as [s1|e1],
           (@update _ Decoder_hooks cum_freqs symbol (c, d2)) as [s2|e2];
    cbn [result_sim] in Hu; try contradiction.
  - rewrite !bind_Ok. split; [reflexivity|exact Hu].
  - subst. reflexivity.
Qed.

Lemma decode_symbols_same (cdfs : list (list Z)) : forall s1 s2,
  same_decoder s1 s2 ->
  result_sim (fun r1 r2 => fst r1 = fst r2)
             (decode_symbols cdfs s1) (decode_symbols cdfs s2).
Proof.
  induction cdfs as [|cum_freqs cdfs IH]; intros s1 s2 H; [reflexivity|].
  cbn [decode_symbols].
  pose proof (decode_symbol_same cum_freqs s1 s2 H) as Hd.
  destruct (decode_symbol cum_freqs s1) as [[sym1 s1']|e1],
           (decode_symbol cum_freqs s2) as [[sym2 s2']|e2];
    cbn [result_sim] in Hd; try contradiction.
  - destruct Hd as [Es H']. cbn [fst snd] in Es, H'. subst sym2.
    rewrite !bind_Ok. cbv beta iota.
    specialize (IH s1' s2' H').
    destruct (decode_symbols cdfs s1') as [[ss1 x1]|e1],
             (decode_symbols cdfs s2') as [[ss2 x2]|e2];
      cbn [result_sim] in IH; try contradiction.
    + cbn [fst] in IH. subst. reflexivity.
    + subst. reflexivity.
  - subst. reflexivity.
Qed.

Lemma Decoder_init_zeros (data : list byte) (k : nat) :
  exists s1 s2, Decoder_init (data ++ repeat x00 k) = Ok s1
                /\ Decoder_init data = Ok s2 /\ same_decoder s1 s2.
Proof.
  destruct (Decoder_init_spec (data ++ repeat x00 k)) as (d1 & E1 & H1 & Hin1 & Hc1).
  destruct (Decoder_init_spec data) as (d2 & E2 & H2 & Hin2 & Hc2).
  exists (Coder_init, d1), (Coder_init, d2).
  split; [exact E1|]. split; [exact E2|]. split; [reflexivity|]. cbn [snd].
  split.
  - rewrite Hc1, Hc2. apply window_ext. intros i _. apply bit_at_app_zeros.
  - exists 64%nat. split; [exact H1|]. split; [exact H2|].
    intros i _. rewrite Hin1, Hin2. apply bit_at_app_zeros.
Qed.

(** ** Strictly increasing CDFs *)

Lemma increasing_from_head (c : list Z) (prev : Z) :
  increasing_from prev c = true -> c <> [] -> prev < nth 0 c 0.
Proof.
  destruct c as [|x c]; [contradiction|]. cbn [increasing_from nth]. intros H _.
  apply andb_true_iff in H. destruct H as [H _]. now apply Z.ltb_lt.
Qed.

Lemma increasing_from_step (c : list Z) : forall prev i,
  increasing_from prev c = true -> (S i < length c)%nat ->
  nth i c 0 < nth (S i) c 0.
Proof.
  induction c as [|x c IH]; intros prev i H Hi; [cbn in Hi; lia|].
  cbn [increasing_from] in H. apply andb_true_iff in H. destruct H as [_ H].
  cbn [length] in Hi. destruct i as [|i].
  - cbn [nth]. apply (increasing_from_head c x H). destruct c; [cbn in Hi; lia|discriminate].
  - change (nth (S i) (x :: c) 0) with (nth i c 0).
    change (nth (S (S i)) (x :: c) 0) with (nth (S i) c 0).
    apply (IH x); [exact H|lia].
Qed.

(** Every index of a strictly increasing CDF is in its support. *)
Lemma increasing_in_support (c : list Z) (s : Z) :
  cdf_increasing c -> 0 <= s < Z.of_nat (length c) -> in_support c s.
Proof.
  intros [Hne Hinc] Hs. split; [lia|]. unfold cum.
  destruct (Z.ltb_spec s 0); [lia|].
  destruct (Z.ltb_spec (s - 1) 0) as [Hz|Hz].
  - replace s with 0 by lia. now apply increasing_from_head.
  - replace (Z.to_nat s) with (S (Z.to_nat (s - 1))) by lia.
    apply (increasing_from_step c 0); [exact Hinc|lia].
Qed.

(** ** Decoding an all-zero input *)

Definition zero_state (c : Coder) (d : DecoderState) : Prop :=
  low c = 0 /\ code d = 0
  /\ exists n, dec_at n d /\ forall i, (n <= i)%nat -> bit_at (input d) i = false.

Lemma bit_at_zeros (k i : nat) : bit_at (repeat x00 k) i = false.
Proof.
  rewrite <- (app_nil_l (repeat x00 k)), bit_at_app_zeros.
  apply bit_at_overflow. cbn [length]. lia.
Qed.

Lemma zero_state_shift (c : Coder) (d : DecoderState) :
  in_range c -> top_equal c = true -> zero_state c d ->
  exists d', @shift _ Decoder_hooks c d = Ok d' /\ zero_state (shift_step c) d'.
Proof.
  intros _ _ (Hlow & Hcode & n & Hat & Hz).
  destruct (read_code_bit_spec n d Hat) as (d' & E & Hat' & Hin & Hc).
  cbn [shift Decoder_hooks]. unfold Decoder_shift.
  rewrite E, bind_Ok. cbv beta iota. eexists. split; [reflexivity|].
  rewrite (Hz n) by lia. rewrite Hcode.
  split; [cbn [shift_step low]; rewrite Hlow; reflexivity|].
  split; [reflexivity|]. exists (S n). cbn [input]. split.
  - exact (dec_at_cursor (S n) d' _ Hat' eq_refl eq_refl eq_refl).
  - intros i Hi. rewrite Hin. apply Hz. lia.
Qed.

Lemma zero_state_underflow (c : Coder) (d : DecoderState) :
  split c -> straddles c = true -> zero_state c d ->
  exists d', @underflow _ Decoder_hooks c d = Ok d'
             /\ zero_state (underflow_step c) d'.
Proof.
  intros Hsp Hst (Hlow & _). rewrite (straddles_split c Hsp), Hlow in Hst.
  discriminate.
Qed.

(** On a stream of zero bits the decoder stays at [low = 0], [code = 0]
    and picks symbol [0]. *)
Lemma decode_symbol_zero (cum_freqs : list Z) (c : Coder) (d : DecoderState) :
  cdf_increasing cum_freqs -> last cum_freqs 0 <= 2 ^ 62 ->
  normalized c -> zero_state c d ->
  exists c' d', decode_symbol cum_freqs (c, d) = Ok (0, (c', d'))
                /\ normalized c' /\ zero_state c' d'.
Proof.
  intros Hinc Hb Hn Hzero.
  pose proof (cdf_increasing_wf _ Hinc) as Hwf.
  pose proof (cdf_wf_length _ Hwf) as Hlen. pose proof Hwf as [_ Hpos].
  pose proof (normalized_range c Hn) as Hr.
  pose proof Hzero as (Hlow & Hcode & _).
  assert (Hsup : in_support cum_freqs 0) by (apply increasing_in_support; [assumption|lia]).
  rewrite decode_symbol_eq by lia.
  assert (Hv : decode_value cum_freqs c (code d) = 0).
  { unfold decode_value. rewrite Hcode, Hlow in *.
    apply Z.div_small. lia. }
  rewrite Hv.
  destruct (searchsorted_right_spec cum_freqs 0 Hwf (bounded_int64 _ Hb)
              ltac:(lia))
    as (s & Hs & Hsr & Habove & Hbelow).
  assert (Es : s = 0).
  { destruct (Z.eq_dec s 0) as [|Hne]; [assumption|].
    specialize (Hbelow 0 ltac:(lia)). destruct Hsup as [_ Hsup].
    unfold cum in Hsup, Hbelow. cbn in Hsup, Hbelow. lia. }
  subst s. rewrite Hs, bind_Ok.
  destruct (narrowed_in_range cum_freqs 0 c Hwf Hsup) as (Hnr & _ & _);
    [apply split_in_range, Hn|lia|].
  destruct (@update_rule _ Decoder_hooks zero_state cum_freqs 0 c d
              zero_state_shift zero_state_underflow ltac:(lia) ltac:(lia) Hnr)
    as (c' & d' & Hup & Hn' & Hz').
  { destruct Hzero as (_ & Hc & Hrest). split; [|split; assumption].
    unfold narrowed. cbn [low]. rewrite Hlow. unfold cum. cbn. reflexivity. }
  rewrite Hup, bind_Ok. exists c', d'. auto.
Qed.

Lemma decode_symbols_zero (cdfs : list (list Z)) : forall c d,
  Forall (fun cum_freqs => cdf_increasing cum_freqs /\ last cum_freqs 0 <= 2 ^ 62)
         cdfs ->
  normalized c -> zero_state c d ->
  exists s', decode_symbols cdfs (c, d) = Ok (map (fun _ => 0) cdfs, s').
Proof.
  induction cdfs as [|cum_freqs cdfs IH]; intros c d Hall Hn Hz.
  - eexists. reflexivity.
  - inversion Hall as [|? ? [Hinc Hb] Hrest]; subst.
    destruct (decode_symbol_zero cum_freqs c d Hinc Hb Hn Hz)
      as (c' & d' & E & Hn' & Hz').
    destruct (IH c' d' Hrest Hn' Hz') as (s' & E').
    cbn [decode_symbols map]. rewrite E, bind_Ok. cbv beta iota.
    rewrite E', bind_Ok. eexists. reflexivity.
Qed.

Lemma Decoder_init_zero (k : nat) :
  exists d, Decoder_init (repeat x00 k) = Ok (Coder_init, d)
            /\ zero_state Coder_init d.
Proof.
  destruct (Decoder_init_spec (repeat x00 k)) as (d & E & Hat & Hin & Hc).
  exists d. split; [exact E|]. split; [reflexivity|]. split.
  - rewrite Hc. apply window_zero. intros i _. apply bit_at_zeros.
  - exists 64%nat. split; [exact Hat|]. intros i _. rewrite Hin. apply bit_at_zeros.
Qed.

(** X15: An empty or all-zero input decodes to symbol [0] at every step,
    whatever the (strictly increasing, bounded) CDFs. *)
Theorem decode_zero_input (k : nat) (cdfs : list (list Z)) :
  Forall (fun cum_freqs => cdf_increasing cum_freqs /\ last cum_freqs 0 <= 2 ^ 62)
         cdfs ->
  decode (repeat x00 k) cdfs = Ok (map (fun _ => 0) cdfs).
Proof.
  intros Hall. unfold decode.
  destruct (Decoder_init_zero k) as (d & E & Hz).
  rewrite E, bind_Ok.
  destruct (decode_symbols_zero cdfs Coder_init d Hall Coder_init_normalized Hz)
    as (s' & E').
  rewrite E', bind_Ok. reflexivity.
Qed.

Lemma decode_zero_input_witness :
  decode (repeat x00 2) [[1; 2; 3]; [4; 8]] = Ok (map (fun _ => 0) [[1; 2; 3]; [4; 8]]).
Proof.
  apply (decode_zero_input 2 [[1; 2; 3]; [4; 8]]).
  repeat constructor; discriminate.
Defined.

Lemma encode_nonzero (l : list (list Z * Z)) :
  Forall pair_ok l ->
  exists data, encode l = Ok data /\ data <> [] /\ last data x00 <> x00.
Proof.
  intros Hl. destruct (encode_bits l Hl) as (c_f & t_f & e & _ & Henc & Hrep).
  exists (encoded_data e). split; [exact Henc|].
  rewrite (enc_rep_pack _ _ Hrep). apply last_bit_nonzero.
Qed.

(** ** The first eight bytes *)

(** The big-endian value of a byte string. *)
Definition be_value (bytes : list byte) : Z :=
  fold_left (fun acc b => acc * 256 + byte_to_Z b) bytes 0.

Lemma window_app (f : nat -> bool) (n m : nat) :
  window f (n + m) = window f n * 2 ^ Z.of_nat m + window (fun i => f (n + i)%nat) m.
Proof.
  induction m as [|m IH].
  - rewrite Nat.add_0_r. cbn [window]. change (2 ^ Z.of_nat 0) with 1. lia.
  - rewrite Nat.add_succ_r, !window_S, IH.
    rewrite Nat2Z.inj_succ, Z.pow_succ_r by lia. lia.
Qed.

Lemma window_byte (b : byte) :
  window (fun i => Z.testbit (byte_to_Z b) (7 - Z.of_nat i)) 8 = byte_to_Z b.
Proof. destruct b; reflexivity. Qed.

Lemma firstn_snoc {A : Type} (d : A) (l : list A) : forall k,
  (k < length l)%nat -> firstn (S k) l = firstn k l ++ [nth k l d].
Proof.
  induction l as [|a l IH]; intros k Hk; [cbn in Hk; lia|].
  destruct k as [|k]; [reflexivity|].
  cbn [length] in Hk. rewrite firstn_cons, (IH k) by lia. reflexivity.
Qed.

Lemma nth_padded (data : list byte) (k n : nat) :
  nth k (data ++ repeat x00 n) x00 = nth k data x00.
Proof.
  destruct (Nat.lt_ge_cases k (length data)) as [Hlt|Hge].
  - now apply app_nth1.
  - rewrite app_nth2, (nth_overflow data) by lia. apply nth_repeat.
Qed.

Lemma window_bytes (data : list byte) (k : nat) :
  window (bit_at data) (8 * k)
  = be_value (firstn k (data ++ repeat x00 k)).
Proof.
  induction k as [|k IH]; [reflexivity|].
  replace (8 * S k)%nat with (8 * k + 8)%nat by lia.
  rewrite window_app, IH.
  rewrite (window_ext _ (fun i => Z.testbit (byte_to_Z (nth k data x00))
                                            (7 - Z.of_nat i))).
  2:{ intros i Hi. now apply bit_at_qr. }
  rewrite window_byte.
  rewrite (firstn_snoc x00) by (rewrite length_app, repeat_length; lia).
  rewrite nth_padded.
  assert (E : firstn k (data ++ repeat x00 (S k)) = firstn k (data ++ repeat x00 k)).
  { cbn [repeat]. rewrite repeat_cons, app_assoc, firstn_app.
    replace (k - length (data ++ repeat x00 k))%nat with O
      by (rewrite length_app, repeat_length; lia).
    cbn [firstn]. apply app_nil_r. }
  rewrite E. unfold be_value. rewrite fold_left_app. cbn [fold_left].
  change (2 ^ Z.of_nat 8) with 256. reflexivity.
Qed.

(** X16: Constructing a [Decoder] never fails; its code is the big-endian
    value of the first eight input bytes, bytes past the end of the
    input counting as zero. *)
Theorem Decoder_init_code (data : list byte) :
  exists d,
    Decoder_init data = Ok (Coder_init, d)
    /\ input d = data
    /\ code d = be_value (firstn 8 (data ++ repeat x00 8)).
Proof.
  destruct (Decoder_init_spec data) as (d & E & _ & Hin & Hc).
  exists d. split; [exact E|]. split; [exact Hin|].
  rewrite Hc. exact (window_bytes data 8).
Qed.

Example Decoder_code_example :
  (s <- Decoder_init [x01; x02] ;; Ok (code (snd s))) = Ok (0x0102 * 2 ^ 48).
Proof. reflexivity. Qed.

(** ** Further properties of the coder *)

(** X13: The output of a finished encoder run is never empty and never ends
    in a zero byte: the bit written by [finish] is the last set bit of
    the stream. *)
Theorem encode_last_byte_nonzero (l : list (list Z * Z)) :
  Forall pair_ok l ->
  exists data, encode l = Ok data /\ data <> [] /\ last data x00 <> x00.
Proof.
  intros Hl. destruct (encode_bits l Hl) as (c_f & t_f & e & _ & Henc & Hrep).
  exists (encoded_data e). split; [exact Henc|].
  rewrite (enc_rep_pack _ _ Hrep). apply last_bit_nonzero.
Qed.

Lemma encode_last_byte_nonzero_witness :
  exists data,
    encode [([10; 20; 30], 0); ([10; 20; 30], 2); ([5; 5; 9], 2)] = Ok data
    /\ data <> [] /\ last data x00 <> x00.
Proof.
  apply (encode_last_byte_nonzero
           [([10; 20; 30], 0); ([10; 20; 30], 2); ([5; 5; 9], 2)]).
  solve_cdf.
Defined.

(** X14: Zero bytes appended to the input change nothing: the decoder reads
    zero bits past the end of its input anyway, so it returns the same
    symbols, or raises the same exception, for any CDFs. *)
Theorem decode_trailing_zeros (data : list byte) (k : nat) (cdfs : list (list Z)) :
  decode (data ++ repeat x00 k) cdfs = decode data cdfs.
Proof.
  unfold decode.
  destruct (Decoder_init_zeros data k) as (s1 & s2 & E1 & E2 & H).
  rewrite E1, E2, !bind_Ok.
  pose proof (decode_symbols_same cdfs s1 s2 H) as Hd.
  destruct (decode_symbols cdfs s1) as [[ss1 x1]|e1],
           (decode_symbols cdfs s2) as [[ss2 x2]|e2];
    cbn [result_sim] in Hd; try contradiction.
  - cbn [fst] in Hd. subst. reflexivity.
  - subst. reflexivity.
Qed.

End Coder.

Module Cdf.
Import SpecFloat.

(** ** LlamaZip.compute_cdf

    [probs] is the NumPy array [torch.exp(logprobs)...numpy()[0]]: one
    [float32] per token.  A [float32] is a [spec_float] of IEEE 754
    binary32 (24 bits of precision), and the arithmetic on it is that
    of [SpecFloat] at this precision, rounding to nearest, ties to
    even.  The Python scalars [FREQ_SCALE_FACTOR] and [1] take the
    array's type, so that the product, the rounded frequencies and the
    running sum all are [float32].  The softmax itself, a transcendental
    function of the logits, is not modelled: [compute_cdf] starts from
    [probs]. *)

Definition float32 : Type := spec_float.

(** The [float32] nearest to [m * 2^e]. *)
Definition f32 (m e : Z) : float32 := binary_normalize 24 128 m e false.

Definition mul32 : float32 -> float32 -> float32 := SFmul 24 128.
Definition add32 : float32 -> float32 -> float32 := SFadd 24 128.

(** [np.round] with no decimals: the nearest integer, halves to the
    even one. *)
Definition np_round (x : float32) : float32 :=
  match x with
  | S754_finite s m e =>
      if 0 <=? e then x
      else
        let d := 2 ^ (- e) in
        let q := Zpos m / d in
        let r := Zpos m mod d in
        let n := if 2 * r <? d then q
                 else if d <? 2 * r then q + 1
                 else if Z.even q then q else q + 1 in
        binary_normalize 24 128 (if s then - n else n) 0 s
  | _ => x
  end.

(** [np.maximum(a, b)]: [a] when [a >= b] or [a] is a NaN, else [b]. *)
Definition np_maximum (a b : float32) : float32 :=
  match SFcompare a b with
  | Some Gt | Some Eq => a
  | Some Lt => b
  | None => match a with S754_nan => a | _ => b end
  end.

(** [np.cumsum]: the running sum, each partial sum rounded to
    [float32]. *)
Fixpoint accumulate (acc : float32) (xs : list float32) : list float32 :=
  match xs with
  | [] => []
  | x :: xs' => let acc' := add32 acc x in acc' :: accumulate acc' xs'
  end.

Definition np_cumsum (xs : list float32) : list float32 :=
  match xs with
  | [] => []
  | x :: xs' => x :: accumulate x xs'
  end.

(** [freqs = np.maximum(1, np.round(FREQ_SCALE_FACTOR * probs))] *)
Definition compute_freqs (probs : list float32) : list float32 :=
  map (fun p => np_maximum (f32 1 0) (np_round (mul32 (f32 FREQ_SCALE_FACTOR 0) p)))
      probs.

(** [LlamaZip.compute_cdf], from [probs] on. *)
Definition compute_cdf (probs : list float32) : list float32 :=
  let freqs := compute_freqs probs in
  let cum_freqs := np_cumsum freqs in
  cum_freqs.

(** [int(x)] on a [float32], as [update] and [decode_symbol] read the
    entries of [cum_freqs]. *)
Definition py_int (x : float32) : result Z :=
  match x with
  | S754_zero _ => Ok 0
  | S754_infinity _ => Err OverflowError
  | S754_nan => Err ValueError
  | S754_finite s m e =>
      let n := if 0 <=? e then Zpos m * 2 ^ e else Zpos m / 2 ^ (- e) in
      Ok (if s then - n else n)
  end.

(** The entries of a CDF as the coder reads them. *)
Fixpoint cdf_ints (cum_freqs : list float32) : result (list Z) :=
  match cum_freqs with
  | [] => Ok []
  | x :: xs => n <- py_int x ;; ns <- cdf_ints xs ;; Ok (n :: ns)
  end.

(** ** What [compute_cdf] returns *)

(** Half-to-even rounding of [np.round]: 2.5, 3.5, 0.5 and 1.5. *)
Example np_round_examples :
  map np_round [f32 5 (-1); f32 7 (-1); f32 1 (-1); f32 3 (-1)]
  = [f32 2 0; f32 4 0; S754_zero false; f32 2 0].
Proof. reflexivity. Qed.

(** Where no partial sum needs more than 24 bits the result is the
    exact prefix sum. *)
Example compute_cdf_exact_example :
  cdf_ints (compute_cdf [f32 1 (-2); f32 1 (-2); f32 1 (-2); f32 1 (-2)])
  = Ok [2 ^ 30; 2 ^ 31; 3 * 2 ^ 30; 2 ^ 32].
Proof. reflexivity. Qed.

(** C5 fails on the code.  For the probabilities 1/2, 2^-41, 2^-41, 1/2
    the frequencies are those of the claim, [max(1, round(2^32 * p))],
    that is 2^31, 1, 1, 2^31; but the running sum is kept in [float32],
    where 2^31 + 1 rounds to 2^31, so [compute_cdf] returns 2^31,
    2^31, 2^31, 2^32 and not the prefix sums 2^31, 2^31 + 1, 2^31 + 2,
    2^32 + 2: the second and third entries do not exceed their
    predecessors, the symbols 1 and 2 have zero-width intervals, and
    the result is not strictly increasing. *)
Theorem compute_cdf_ties :
  exists (probs : list float32) (cum_freqs : list Z),
    probs = [f32 1 (-1); f32 1 (-41); f32 1 (-41); f32 1 (-1)]
    /\ cdf_ints (compute_freqs probs) = Ok [2 ^ 31; 1; 1; 2 ^ 31]
    /\ cdf_ints (compute_cdf probs) = Ok cum_freqs
    /\ cum_freqs = [2 ^ 31; 2 ^ 31; 2 ^ 31; 2 ^ 32]
    /\ Coder.cum cum_freqs 1 = Coder.cum cum_freqs 0
    /\ Coder.cum cum_freqs 2 = Coder.cum cum_freqs 1
    /\ ~ Coder.in_support cum_freqs 1
    /\ ~ Coder.cdf_increasing cum_freqs.
Proof.
  exists [f32 1 (-1); f32 1 (-41); f32 1 (-41); f32 1 (-1)].
  exists [2 ^ 31; 2 ^ 31; 2 ^ 31; 2 ^ 32].
  split; [reflexivity|]. split; [reflexivity|]. split; [reflexivity|].
  split; [reflexivity|]. split; [reflexivity|]. split; [reflexivity|].
  split.
  - intros [_ Hlt]. vm_compute in Hlt. discriminate.
  - intros [_ Hinc]. vm_compute in Hinc. discriminate.
Qed.

(** What a zero-width symbol does to the coder: encoding symbol 1 and
    then symbol 3 under this CDF leaves an empty interval and gives the
    one byte [0x80], from which the decoder reads the symbols 3 and 0. *)
Example zero_width_symbol_is_lost :
  let cum_freqs := [2 ^ 31; 2 ^ 31; 2 ^ 31; 2 ^ 32] in
  (e <- Coder.encode_symbol cum_freqs 1 Coder.Encoder_init ;;
   Ok (Coder.low (fst e), Coder.high (fst e))) = Ok (2 ^ 63, 2 ^ 63 - 1)
  /\ (e <- Coder.encode_symbol cum_freqs 1 Coder.Encoder_init ;;
      e <- Coder.encode_symbol cum_freqs 3 e ;;
      e <- Coder.finish e ;; Ok (Coder.get_encoded e)) = Ok [x80]
  /\ (d <- Coder.Decoder_init [x80] ;;
      '(symbols, _) <- Coder.decode_symbols [cum_freqs; cum_freqs] d ;;
      Ok symbols) = Ok [3; 0].
Proof. repeat split; vm_compute; reflexivity. Qed.

End Cdf.

Module Utf8.

(** ** Python's UTF-8 codec

    [bytes.decode("utf-8")] and [str.encode("utf-8")] are library code:
    they are modelled after the Unicode standard's table of well-formed
    byte sequences (strict: no overlong forms, no surrogates, nothing
    above U+10FFFF).  A [str] is the list of its code points. *)

(** A byte of the form [10xxxxxx]. *)
Definition continuation (x : Z) : bool := (0x80 <=? x) && (x <=? 0xBF).

(** Second byte allowed after a three-byte lead. *)
Definition second_of_3 (x0 x1 : Z) : bool :=
  ((x0 =? 0xE0) && (0xA0 <=? x1) && (x1 <=? 0xBF))
  || ((0xE1 <=? x0) && (x0 <=? 0xEC) && (0x80 <=? x1) && (x1 <=? 0xBF))
  || ((x0 =? 0xED) && (0x80 <=? x1) && (x1 <=? 0x9F))
  || ((0xEE <=? x0) && (x0 <=? 0xEF) && (0x80 <=? x1) && (x1 <=? 0xBF)).

(** Second byte allowed after a four-byte lead. *)
Definition second_of_4 (x0 x1 : Z) : bool :=
  ((x0 =? 0xF0) && (0x90 <=? x1) && (x1 <=? 0xBF))
  || ((0xF1 <=? x0) && (x0 <=? 0xF3) && (0x80 <=? x1) && (x1 <=? 0xBF))
  || ((x0 =? 0xF4) && (0x80 <=? x1) && (x1 <=? 0x8F)).

(** [bs.decode("utf-8")] *)
Fixpoint utf8_decode (bs : list byte) : result (list Z) :=
  match bs with
  | [] => Ok []
  | b0 :: r0 =>
      let x0 := byte_to_Z b0 in
      if x0 <? 0x80 then cps <- utf8_decode r0 ;; Ok (x0 :: cps)
      else
        match r0 with
        | [] => Err UnicodeDecodeError
        | b1 :: r1 =>
            let x1 := byte_to_Z b1 in
            if (0xC2 <=? x0) && (x0 <=? 0xDF) then
              if continuation x1 then
                cps <- utf8_decode r1 ;;
                Ok ((x0 - 0xC0) * 64 + (x1 - 0x80) :: cps)
              else Err UnicodeDecodeError
            else
              match r1 with
              | [] => Err UnicodeDecodeError
              | b2 :: r2 =>
                  let x2 := byte_to_Z b2 in
                  if (0xE0 <=? x0) && (x0 <=? 0xEF) then
                    if second_of_3 x0 x1 && continuation x2 then
                      cps <- utf8_decode r2 ;;
                      Ok ((x0 - 0xE0) * 4096 + (x1 - 0x80) * 64 + (x2 - 0x80) :: cps)
                    else Err UnicodeDecodeError
                  else
                    match r2 with
                    | [] => Err UnicodeDecodeError
                    | b3 :: r3 =>
                        let x3 := byte_to_Z b3 in
                        if (0xF0 <=? x0) && (x0 <=? 0xF4) then
                          if second_of_4 x0 x1 && continuation x2 && continuation x3
                          then
                            cps <- utf8_decode r3 ;;
                            Ok ((x0 - 0xF0) * 262144 + (x1 - 0x80) * 4096
                                + (x2 - 0x80) * 64 + (x3 - 0x80) :: cps)
                          else Err UnicodeDecodeError
                        else Err UnicodeDecodeError
                    end
              end
        end
  end.

(** The byte with value [z], for [z] in [range(256)]. *)
Definition Z_to_byte (z : Z) : byte :=
  match Byte.of_N (Z.to_N z) with
  | Some b => b
  | None => x00
  end.

(** [chr(cp).encode("utf-8")]: [chr] raises [ValueError] outside
    [range(0x110000)], surrogates cannot be encoded. *)
Definition utf8_encode_char (cp : Z) : result (list byte) :=
  if (cp <? 0) || (0x10FFFF <? cp) then Err ValueError
  else if cp <? 0x80 then Ok [Z_to_byte cp]
  else if cp <? 0x800 then
    Ok [Z_to_byte (0xC0 + cp / 64); Z_to_byte (0x80 + cp mod 64)]
  else if cp <? 0x10000 then
    if (0xD800 <=? cp) && (cp <=? 0xDFFF) then Err UnicodeEncodeError
    else Ok [Z_to_byte (0xE0 + cp / 4096); Z_to_byte (0x80 + (cp / 64) mod 64);
             Z_to_byte (0x80 + cp mod 64)]
  else
    Ok [Z_to_byte (0xF0 + cp / 262144); Z_to_byte (0x80 + (cp / 4096) mod 64);
        Z_to_byte (0x80 + (cp / 64) mod 64); Z_to_byte (0x80 + cp mod 64)].

(** ** Utf8Chunks *)

Record Utf8Chunk : Type := mkChunk { valid : list byte; invalid : list byte }.

(** [safe_get]: the byte at [i], or [0] past the end. *)
Definition safe_get (xs : list byte) (i : nat) : Z :=
  match nth_error xs i with
  | Some b => byte_to_Z b
  | None => 0
  end.

Definition TAG_CONT_U8 : Z := 128.

(** How one pass through the body of the [while] loop ends: at the
    assignment [valid_up_to = i], or at a [break]; both with the value
    of [i] reached. *)
Inductive body_exit : Type :=
| Completed (i : nat)
| Break (i : nat).

(** The body of the loop of [__next__], entered with [i < len(source)]. *)
Definition scan_body (source : list byte) (i : nat) : body_exit :=
  let byte := safe_get source i in
  let i := (i + 1)%nat in
  if byte <? 0x80 then Completed i
  else if (0xC2 <=? byte) && (byte <=? 0xDF) then
    if negb (Z.land (safe_get source i) 192 =? TAG_CONT_U8) then Break i
    else Completed (i + 1)%nat
  else if (0xE0 <=? byte) && (byte <=? 0xEF) then
    let next_byte := safe_get source i in
    if ((0xE0 =? byte) && ((0xA0 <=? next_byte) && (next_byte <=? 0xBF)))
       || (((0xE1 <=? byte) && (byte <=? 0xEC))
           && ((0x80 <=? next_byte) && (next_byte <=? 0xBF)))
       || ((0xED =? byte) && ((0x80 <=? next_byte) && (next_byte <=? 0x9F)))
       || (((0xEE <=? byte) && (byte <=? 0xEF))
           && ((0x80 <=? next_byte) && (next_byte <=? 0xBF)))
    then
      let i := (i + 1)%nat in
      if negb (Z.land (safe_get source i) 192 =? TAG_CONT_U8) then Break i
      else Completed (i + 1)%nat
    else Break i
  else if (0xF0 <=? byte) && (byte <=? 0xF4) then
    let next_byte := safe_get source i in
    if ((0xF0 =? byte) && ((0x90 <=? next_byte) && (next_byte <=? 0xBF)))
       || (((0xF1 <=? byte) && (byte <=? 0xF3))
           && ((0x80 <=? next_byte) && (next_byte <=? 0xBF)))
       || ((0xF4 =? byte) && ((0x80 <=? next_byte) && (next_byte <=? 0x8F)))
    then
      let i := (i + 1)%nat in
      if negb (Z.land (safe_get source i) 192 =? TAG_CONT_U8) then Break i
      else
        let i := (i + 1)%nat in
        if negb (Z.land (safe_get source i) 192 =? TAG_CONT_U8) then Break i
        else Completed (i + 1)%nat
    else Break i
  else Break i.

(** [while i < len(self.source): ...]; returns [(i, valid_up_to)]. *)
Fixpoint scan (fuel : nat) (source : list byte) (i valid_up_to : nat)
  : result (nat * nat) :=
  if (i <? length source)%nat then
    match fuel with
    | O => Err OutOfFuel
    | S fuel' =>
        match scan_body source i with
        | Completed i' => scan fuel' source i' i'
        | Break i' => Ok (i', valid_up_to)
        end
    end
  else Ok (i, valid_up_to).

(** [Utf8Chunks.__next__]: [None] is [StopIteration], otherwise the chunk
    and the new [self.source]. *)
Definition Utf8Chunks_next (source : list byte)
  : result (option (Utf8Chunk * list byte)) :=
  match source with
  | [] => Ok None
  | _ =>
      '(i, valid_up_to) <- scan (length source) source 0 0 ;;
      let inspected := firstn i source in
      let remaining := skipn i source in
      Ok (Some ({| valid := firstn valid_up_to inspected;
                   invalid := skipn valid_up_to inspected |}, remaining))
  end.

(** [list(Utf8Chunks(source))]; [fuel] bounds the number of chunks. *)
Fixpoint Utf8Chunks_list (fuel : nat) (source : list byte) : result (list Utf8Chunk) :=
  next <- Utf8Chunks_next source ;;
  match next with
  | None => Ok []
  | Some (chunk, remaining) =>
      match fuel with
      | O => Err OutOfFuel
      | S fuel' =>
          chunks <- Utf8Chunks_list fuel' remaining ;; Ok (chunk :: chunks)
      end
  end.

(** ** bytes_to_utf8 and utf8_to_bytes *)

Definition is_pua (cp : Z) : bool := (PUA_START <=? cp) && (cp <=? PUA_START + 0xFF).

(** [for byte in bs: output.extend(chr(PUA_START + byte).encode("utf-8"))] *)
Fixpoint extend_escaped (bs : list byte) (output : list byte) : result (list byte) :=
  match bs with
  | [] => Ok output
  | b :: bs' =>
      e <- utf8_encode_char (PUA_START + byte_to_Z b) ;;
      extend_escaped bs' (output ++ e)
  end.

(** [for char in text: ...] of [bytes_to_utf8]. *)
Fixpoint extend_chars (text : list Z) (output : list byte) : result (list byte) :=
  match text with
  | [] => Ok output
  | char :: text' =>
      if is_pua char then
        bs <- utf8_encode_char char ;;
        output' <- extend_escaped bs output ;;
        extend_chars text' output'
      else
        bs <- utf8_encode_char char ;;
        extend_chars text' (output ++ bs)
  end.

(** [for chunk in Utf8Chunks(data): ...]; [fuel] bounds the number of
    chunks. *)
Fixpoint bytes_to_utf8_loop (fuel : nat) (source : list byte) (output : list byte)
  : result (list byte) :=
  next <- Utf8Chunks_next source ;;
  match next with
  | None => Ok output
  | Some (chunk, remaining) =>
      match fuel with
      | O => Err OutOfFuel
      | S fuel' =>
          text <- utf8_decode (valid chunk) ;;
          output1 <- extend_chars text output ;;
          output2 <- extend_escaped (invalid chunk) output1 ;;
          bytes_to_utf8_loop fuel' remaining output2
      end
  end.

Definition bytes_to_utf8 (data : list byte) : result (list byte) :=
  bytes_to_utf8_loop (length data) data [].

(** [utf8_to_bytes]; [output.append] of a value outside [range(256)]
    raises [ValueError]. *)
Fixpoint utf8_to_bytes_loop (data : list Z) (output : list byte) : result (list byte) :=
  match data with
  | [] => Ok output
  | char :: data' =>
      if is_pua char then
        b <- byte_of_Z (char - PUA_START) ;;
        utf8_to_bytes_loop data' (output ++ [b])
      else
        bs <- utf8_encode_char char ;;
        utf8_to_bytes_loop data' (output ++ bs)
  end.

Definition utf8_to_bytes (data : list Z) : result (list byte) :=
  utf8_to_bytes_loop data [].


(** ** Bytes as numbers, both ways *)

Lemma byte_to_Z_to_byte (z : Z) : 0 <= z < 256 -> byte_to_Z (Z_to_byte z) = z.
Proof.
  intros Hz. unfold Z_to_byte, byte_to_Z.
  destruct (Byte.of_N (Z.to_N z)) as [b|] eqn:Hb.
  - rewrite (@Byte.to_of_N _ _ Hb). lia.
  - apply Byte.of_N_None_iff in Hb. lia.
Qed.

Lemma Z_to_byte_to_Z (b : byte) : Z_to_byte (byte_to_Z b) = b.
Proof.
  unfold Z_to_byte, byte_to_Z. now rewrite N2Z.id, Byte.of_to_N.
Qed.

Lemma byte_of_Z_to_Z (b : byte) : byte_of_Z (byte_to_Z b) = Ok b.
Proof.
  destruct (Coder.byte_of_Z_ok (byte_to_Z b) (Coder.byte_to_Z_range b))
    as (b' & Hb & Hz).
  rewrite Hb. f_equal. now apply Coder.byte_to_Z_inj.
Qed.

Ltac byte_ranges :=
  repeat match goal with
         | b : byte |- _ =>
             lazymatch goal with
             | H : 0 <= byte_to_Z b < 256 |- _ => fail
             | _ => pose proof (Coder.byte_to_Z_range b)
             end
         end.

(** Turn boolean comparisons in the hypotheses into propositions. *)
Ltac bool_hyps :=
  repeat match goal with
         | H : _ && _ = true |- _ => apply andb_true_iff in H; destruct H
         | H : _ || _ = true |- _ => apply orb_true_iff in H; destruct H
         | H : _ && _ = false |- _ => apply andb_false_iff in H; destruct H
         | H : _ || _ = false |- _ => apply orb_false_iff in H; destruct H
         | H : negb _ = true |- _ => apply negb_true_iff in H
         | H : negb _ = false |- _ => apply negb_false_iff in H
         | H : (_ <=? _) = true |- _ => apply Z.leb_le in H
         | H : (_ <=? _) = false |- _ => apply Z.leb_gt in H
         | H : (_ <? _) = true |- _ => apply Z.ltb_lt in H
         | H : (_ <? _) = false |- _ => apply Z.ltb_ge in H
         | H : (_ =? _) = true |- _ => apply Z.eqb_eq in H
         | H : (_ =? _) = false |- _ => apply Z.eqb_neq in H
         end.

Ltac dm_lia := Z.div_mod_to_equations; lia.

(** ** One character at a time *)

(** The first character of a byte string and what follows it. *)
Definition decode_char (bs : list byte) : option (Z * list byte) :=
  match bs with
  | [] => None
  | b0 :: r0 =>
      let x0 := byte_to_Z b0 in
      if x0 <? 0x80 then Some (x0, r0)
      else
        match r0 with
        | [] => None
        | b1 :: r1 =>
            let x1 := byte_to_Z b1 in
            if (0xC2 <=? x0) && (x0 <=? 0xDF) then
              if continuation x1 then Some ((x0 - 0xC0) * 64 + (x1 - 0x80), r1)
              else None
            else
              match r1 with
              | [] => None
              | b2 :: r2 =>
                  let x2 := byte_to_Z b2 in
                  if (0xE0 <=? x0) && (x0 <=? 0xEF) then
                    if second_of_3 x0 x1 && continuation x2 then
                      Some ((x0 - 0xE0) * 4096 + (x1 - 0x80) * 64 + (x2 - 0x80), r2)
                    else None
                  else
                    match r2 with
                    | [] => None
                    | b3 :: r3 =>
                        let x3 := byte_to_Z b3 in
                        if (0xF0 <=? x0) && (x0 <=? 0xF4) then
                          if second_of_4 x0 x1 && continuation x2 && continuation x3
                          then
                            Some ((x0 - 0xF0) * 262144 + (x1 - 0x80) * 4096
                                  + (x2 - 0x80) * 64 + (x3 - 0x80), r3)
                          else None
                        else None
                    end
              end
        end
  end.

Ltac split_decode :=
  repeat match goal with
         | |- context [if ?c then _ else _] => destruct c eqn:?
         | |- context [match ?l with [] => _ | _ :: _ => _ end] =>
             is_var l; destruct l
         end.

Lemma utf8_decode_unfold (b0 : byte) (r0 : list byte) :
  utf8_decode (b0 :: r0) =
  match decode_char (b0 :: r0) with
  | Some (cp, rest) => cps <- utf8_decode rest ;; Ok (cp :: cps)
  | None => Err UnicodeDecodeError
  end.
Proof.
  cbn [utf8_decode decode_char]. split_decode; reflexivity.
Qed.

(** A Unicode scalar value: a code point that is not a surrogate. *)
Definition scalar (cp : Z) : Prop :=
  0 <= cp <= 0x10FFFF /\ ~ (0xD800 <= cp <= 0xDFFF).

(** The bytes of a scalar value. *)
Definition enc (cp : Z) : list byte :=
  match utf8_encode_char cp with
  | Ok bs => bs
  | Err _ => []
  end.

Lemma decode_char_inv (bs : list byte) (cp : Z) (rest : list byte) :
  decode_char bs = Some (cp, rest) ->
  scalar cp /\ utf8_encode_char cp = Ok (enc cp) /\ bs = enc cp ++ rest
  /\ enc cp <> [].
Proof.
  intros H.
  assert (Hmain : scalar cp /\ exists pre, utf8_encode_char cp = Ok pre
                                           /\ bs = pre ++ rest /\ pre <> []).
  { unfold decode_char in H. unfold scalar, utf8_encode_char.
    unfold second_of_3, second_of_4, continuation in H.
    destruct bs as [|b0 [|b1 [|b2 [|b3 r]]]];
      repeat match type of H with
             | (if ?c then _ else _) = _ => destruct c eqn:?
             | None = _ => discriminate
             end;
      inversion H; subst; clear H; byte_ranges; bool_hyps;
      (split; [lia|]);
      repeat match goal with
             | |- context [if ?c then _ else _] => destruct c eqn:?
             end;
      bool_hyps; try lia;
      eexists; (split; [reflexivity|]); (split; [|discriminate]);
      cbn [app]; repeat f_equal;
      try (rewrite <- Z_to_byte_to_Z at 1; f_equal; dm_lia). }
  destruct Hmain as (Hsc & pre & Henc & Hbs & Hne).
  unfold enc. rewrite Henc. auto.
Qed.

Lemma decode_char_enc (cp : Z) (rest : list byte) :
  scalar cp ->
  utf8_encode_char cp = Ok (enc cp) /\ decode_char (enc cp ++ rest) = Some (cp, rest).
Proof.
  intros [Hr Hs].
  assert (Hmain : exists pre, utf8_encode_char cp = Ok pre
                              /\ decode_char (pre ++ rest) = Some (cp, rest)).
  { unfold utf8_encode_char.
    repeat match goal with
           | |- context [if ?c then _ else _] => destruct c eqn:?
           end;
      bool_hyps; try lia;
      eexists; (split; [reflexivity|]);
      cbn [app decode_char]; unfold second_of_3, second_of_4, continuation;
      rewrite !byte_to_Z_to_byte by dm_lia;
      repeat match goal with
             | |- context [if ?c then _ else _] =>
                 destruct c eqn:?; bool_hyps; try (exfalso; dm_lia)
             end;
      do 2 f_equal; dm_lia. }
  destruct Hmain as (pre & Henc & Hdec). unfold enc. rewrite Henc. auto.
Qed.

(** [str.encode("utf-8")] on a whole string of scalar values. *)
Definition encode_text (text : list Z) : list byte := flat_map enc text.

Lemma utf8_decode_enc (cp : Z) (rest : list byte) :
  scalar cp ->
  utf8_decode (enc cp ++ rest) = (cps <- utf8_decode rest ;; Ok (cp :: cps)).
Proof.
  intros Hsc. destruct (decode_char_enc cp rest Hsc) as [Henc Hdec].
  destruct (enc cp ++ rest) as [|b0 r0] eqn:E; [discriminate|].
  now rewrite utf8_decode_unfold, Hdec.
Qed.

Lemma utf8_decode_encode_text (text : list Z) (rest : list byte) :
  Forall scalar text ->
  utf8_decode (encode_text text ++ rest)
  = (cps <- utf8_decode rest ;; Ok (text ++ cps)).
Proof.
  induction 1 as [|cp text Hcp Htext IH]; cbn [encode_text flat_map app].
  - destruct (utf8_decode rest); reflexivity.
  - rewrite <- app_assoc, utf8_decode_enc by assumption.
    fold (encode_text text). rewrite IH.
    destruct (utf8_decode rest); reflexivity.
Qed.

(** Decoding succeeds only on what encoding produces. *)
Lemma utf8_decode_inv (n : nat) : forall bs text,
  (length bs <= n)%nat -> utf8_decode bs = Ok text ->
  Forall scalar text /\ encode_text text = bs.
Proof.
  induction n as [|n IH]; intros bs text Hlen Hdec.
  - destruct bs; [|cbn in Hlen; lia]. inversion Hdec; subst. auto.
  - destruct bs as [|b0 r0]; [inversion Hdec; subst; auto|].
    rewrite utf8_decode_unfold in Hdec.
    destruct (decode_char (b0 :: r0)) as [[cp rest]|] eqn:Hc; [|discriminate].
    destruct (decode_char_inv _ _ _ Hc) as (Hsc & _ & Hbs & Hne).
    apply bind_inv in Hdec. destruct Hdec as (cps & Hrest & Hok).
    inversion Hok; subst text; clear Hok.
    assert (Hl : (length rest <= n)%nat).
    { apply (f_equal (@length byte)) in Hbs. rewrite length_app in Hbs.
      cbn [length] in Hbs, Hlen. destruct (enc cp); [contradiction|].
      cbn [length] in Hbs. lia. }
    destruct (IH rest cps Hl Hrest) as [Hall Henc].
    split; [constructor; assumption|].
    cbn [encode_text flat_map]. fold (encode_text cps). now rewrite Henc.
Qed.

Lemma utf8_decode_app (a b : list byte) (text : list Z) :
  utf8_decode a = Ok text ->
  utf8_decode (a ++ b) = (cps <- utf8_decode b ;; Ok (text ++ cps)).
Proof.
  intros Ha. destruct (utf8_decode_inv (length a) a text (le_n _) Ha) as [Hall <-].
  now apply utf8_decode_encode_text.
Qed.

(** ** The scanner against the decoder *)

Lemma land_192 (b : byte) :
  (Z.land (byte_to_Z b) 192 =? TAG_CONT_U8) = continuation (byte_to_Z b).
Proof. destruct b; reflexivity. Qed.

Lemma cond_of_3 (byte next_byte : Z) :
  ((0xE0 =? byte) && ((0xA0 <=? next_byte) && (next_byte <=? 0xBF)))
  || (((0xE1 <=? byte) && (byte <=? 0xEC))
      && ((0x80 <=? next_byte) && (next_byte <=? 0xBF)))
  || ((0xED =? byte) && ((0x80 <=? next_byte) && (next_byte <=? 0x9F)))
  || (((0xEE <=? byte) && (byte <=? 0xEF))
      && ((0x80 <=? next_byte) && (next_byte <=? 0xBF)))
  = second_of_3 byte next_byte.
Proof.
  unfold second_of_3. rewrite (Z.eqb_sym 0xE0), (Z.eqb_sym 0xED).
  now rewrite !andb_assoc.
Qed.

Lemma cond_of_4 (byte next_byte : Z) :
  ((0xF0 =? byte) && ((0x90 <=? next_byte) && (next_byte <=? 0xBF)))
  || (((0xF1 <=? byte) && (byte <=? 0xF3))
      && ((0x80 <=? next_byte) && (next_byte <=? 0xBF)))
  || ((0xF4 =? byte) && ((0x80 <=? next_byte) && (next_byte <=? 0x8F)))
  = second_of_4 byte next_byte.
Proof.
  unfold second_of_4. rewrite (Z.eqb_sym 0xF0), (Z.eqb_sym 0xF4).
  now rewrite !andb_assoc.
Qed.

Lemma safe_get_skipn (source : list byte) (i j : nat) :
  safe_get source (i + j) = safe_get (skipn i source) j.
Proof. unfold safe_get. now rewrite nth_error_skipn. Qed.

Definition shift_exit (i : nat) (e : body_exit) : body_exit :=
  match e with
  | Completed k => Completed (i + k)
  | Break k => Break (i + k)
  end.

Lemma scan_body_skipn (source : list byte) (i : nat) :
  scan_body source i = shift_exit i (scan_body (skipn i source) 0).
Proof.
  unfold scan_body. cbv zeta. cbn [Nat.add].
  replace (safe_get source i) with (safe_get (skipn i source) 0)
    by (rewrite <- safe_get_skipn; f_equal; lia).
  replace (safe_get source (i + 1)) with (safe_get (skipn i source) 1)
    by (rewrite <- safe_get_skipn; f_equal; lia).
  replace (safe_get source (i + 1 + 1)) with (safe_get (skipn i source) 2)
    by (rewrite <- safe_get_skipn; f_equal; lia).
  replace (safe_get source (i + 1 + 1 + 1)) with (safe_get (skipn i source) 3)
    by (rewrite <- safe_get_skipn; f_equal; lia).
  repeat match goal with
         | |- context [if ?c then _ else _] => destruct c
         end;
    cbn [shift_exit]; f_equal; lia.
Qed.

Lemma second_of_3_zero (x : Z) : second_of_3 x 0 = false.
Proof. unfold second_of_3. cbn. now rewrite !andb_false_r. Qed.

Lemma second_of_4_zero (x : Z) : second_of_4 x 0 = false.
Proof. unfold second_of_4. cbn. now rewrite !andb_false_r. Qed.

(** The body completes exactly when a character starts at [i], and then
    stops just after it; otherwise it breaks within the input. *)
Lemma scan_body_spec (l : list byte) :
  l <> [] ->
  match decode_char l with
  | Some (cp, rest) => scan_body l 0 = Completed (length l - length rest)
  | None => exists j, scan_body l 0 = Break j /\ (1 <= j <= length l)%nat
  end.
Proof.
  intros Hne. unfold scan_body. cbv zeta. cbn [Nat.add].
  rewrite cond_of_3, cond_of_4.
  destruct l as [|b0 [|b1 [|b2 [|b3 r]]]]; [contradiction| | | |];
    cbn [safe_get nth_error decode_char length];
    rewrite ?land_192, ?second_of_3_zero, ?second_of_4_zero;
    change (Z.land 0 192 =? TAG_CONT_U8) with false; cbn [negb];
    repeat match goal with
           | |- context [second_of_3 ?a ?b] => destruct (second_of_3 a b) eqn:?
           | |- context [second_of_4 ?a ?b] => destruct (second_of_4 a b) eqn:?
           | |- context [continuation ?a] => destruct (continuation a) eqn:?
           | |- context [(?a <? 128)] => destruct (a <? 128) eqn:?
           | |- context [(?a <=? ?b) && (?c <=? ?d)] =>
               destruct ((a <=? b) && (c <=? d)) eqn:?
           end;
    cbn [andb negb length];
    try (f_equal; lia);
    try (eexists; split; [reflexivity|lia]).
Qed.

Lemma firstn_add_skipn {A : Type} (i k : nat) (l : list A) :
  (i <= length l)%nat -> firstn (i + k) l = firstn i l ++ firstn k (skipn i l).
Proof.
  intros Hi. rewrite <- (firstn_skipn i l) at 1.
  rewrite <- (firstn_length_le l Hi) at 1. apply firstn_app_2.
Qed.

Lemma scan_spec (fuel : nat) : forall source i text,
  (i <= length source)%nat -> (length source - i <= fuel)%nat ->
  utf8_decode (firstn i source) = Ok text ->
  exists i' v text',
    scan fuel source i i = Ok (i', v)
    /\ (i <= v)%nat /\ (v <= i')%nat /\ (i' <= length source)%nat
    /\ utf8_decode (firstn v source) = Ok text'
    /\ ((i < length source)%nat -> (i < i')%nat).
Proof.
  induction fuel as [|fuel IH]; intros source i text Hi Hfuel Hdec.
  - cbn [scan]. destruct (Nat.ltb_spec i (length source)); [lia|].
    exists i, i, text. repeat split; auto; lia.
  - cbn [scan]. destruct (Nat.ltb_spec i (length source)) as [Hlt|Hge].
    + assert (Hne : skipn i source <> []).
      { intros E. apply (f_equal (@length byte)) in E.
        rewrite length_skipn in E. cbn [length] in E. lia. }
      rewrite scan_body_skipn.
      pose proof (scan_body_spec (skipn i source) Hne) as Hbody.
      destruct (decode_char (skipn i source)) as [[cp rest]|] eqn:Hc.
      * rewrite Hbody. cbn [shift_exit].
        destruct (decode_char_inv _ _ _ Hc) as (Hsc & _ & Hl & Hnil).
        assert (Hk : (length (skipn i source) - length rest)%nat = length (enc cp)).
        { rewrite Hl, length_app. lia. }
        assert (Hlen : (length (enc cp) + length rest = length source - i)%nat).
        { rewrite <- length_skipn, Hl, length_app. reflexivity. }
        assert (Hpos : (0 < length (enc cp))%nat).
        { destruct (enc cp); [contradiction|cbn [length]; lia]. }
        rewrite Hk.
        destruct (IH source (i + length (enc cp))%nat (text ++ [cp]))
          as (i' & v & text' & Hrun & H1 & H2 & H3 & H4 & H5); try lia.
        { rewrite firstn_add_skipn by lia. rewrite Hl.
          replace (length (enc cp)) with (length (enc cp) + 0)%nat by lia.
          rewrite firstn_app_2, firstn_O, app_nil_r.
          rewrite (utf8_decode_app _ _ _ Hdec).
          rewrite <- (app_nil_r (enc cp)), utf8_decode_enc by assumption.
          reflexivity. }
        exists i', v, text'. repeat split; auto; lia.
      * destruct Hbody as (j & Hj & Hrange). rewrite Hj. cbn [shift_exit].
        rewrite length_skipn in Hrange.
        exists (i + j)%nat, i, text. repeat split; auto; lia.
    + exists i, i, text. repeat split; auto; lia.
Qed.

(** [__next__] on a non-empty source: the chunk's valid part is valid
    UTF-8, the chunk and the rest make up the source, and at least one
    byte is consumed. *)
Lemma Utf8Chunks_next_spec (source : list byte) :
  source <> [] ->
  exists chunk remaining text,
    Utf8Chunks_next source = Ok (Some (chunk, remaining))
    /\ source = valid chunk ++ invalid chunk ++ remaining
    /\ utf8_decode (valid chunk) = Ok text
    /\ (length remaining < length source)%nat.
Proof.
  intros Hne.
  assert (Hnext : Utf8Chunks_next source =
                  ('(i, valid_up_to) <- scan (length source) source 0 0 ;;
                   Ok (Some ({| valid := firstn valid_up_to (firstn i source);
                                invalid := skipn valid_up_to (firstn i source) |},
                             skipn i source))))
    by (destruct source; [contradiction|reflexivity]).
  rewrite Hnext.
  destruct (scan_spec (length source) source 0 [])
    as (i' & v & text' & Hrun & H1 & H2 & H3 & H4 & H5); try lia; [reflexivity|].
  rewrite Hrun, bind_Ok. eexists. eexists. exists text'.
  split; [reflexivity|]. cbn [valid invalid].
  rewrite firstn_firstn, Nat.min_l by lia.
  split; [|split; [exact H4|]].
  - rewrite app_assoc.
    replace (firstn v source) with (firstn v (firstn i' source))
      by (rewrite firstn_firstn, Nat.min_l by lia; reflexivity).
    now rewrite !firstn_skipn.
  - rewrite length_skipn.
    assert (0 < length source)%nat by (destruct source; [contradiction|cbn; lia]).
    lia.
Qed.

(** ** Escaping and unescaping *)

(** [chr(PUA_START + byte)] *)
Definition pua (b : byte) : Z := PUA_START + byte_to_Z b.

(** What the forward codec emits for one code point of a valid chunk. *)
Definition escape_cp (cp : Z) : list Z :=
  if is_pua cp then map pua (enc cp) else [cp].

(** The text of a valid chunk. *)
Definition text_of (bs : list byte) : list Z :=
  match utf8_decode bs with
  | Ok text => text
  | Err _ => []
  end.

(** What the forward codec emits for one chunk, as code points. *)
Definition chunk_text (c : Utf8Chunk) : list Z :=
  flat_map escape_cp (text_of (valid c)) ++ map pua (invalid c).

Lemma pua_scalar (b : byte) : scalar (pua b).
Proof.
  unfold scalar, pua, PUA_START. pose proof (Coder.byte_to_Z_range b). lia.
Qed.

Lemma pua_is_pua (b : byte) : is_pua (pua b) = true.
Proof.
  unfold is_pua, pua, PUA_START. pose proof (Coder.byte_to_Z_range b).
  apply andb_true_iff. split; [apply Z.leb_le|apply Z.leb_le]; lia.
Qed.

Lemma encode_text_app (a b : list Z) :
  encode_text (a ++ b) = encode_text a ++ encode_text b.
Proof. apply flat_map_app. Qed.

Lemma extend_escaped_spec (bs : list byte) : forall output,
  extend_escaped bs output = Ok (output ++ encode_text (map pua bs)).
Proof.
  induction bs as [|b bs IH]; intros output; cbn [extend_escaped map].
  - now rewrite app_nil_r.
  - fold (pua b).
    destruct (decode_char_enc (pua b) [] (pua_scalar b)) as [Henc _].
    rewrite Henc, bind_Ok, IH, <- app_assoc. reflexivity.
Qed.

Lemma escape_cp_scalar (cp : Z) : scalar cp -> Forall scalar (escape_cp cp).
Proof.
  intros Hsc. unfold escape_cp. destruct (is_pua cp).
  - apply Forall_map. apply Forall_forall. intros b _. apply pua_scalar.
  - constructor; [assumption|constructor].
Qed.

Lemma flat_map_escape_scalar (text : list Z) :
  Forall scalar text -> Forall scalar (flat_map escape_cp text).
Proof.
  induction 1 as [|cp text Hcp _ IH]; cbn [flat_map]; [constructor|].
  apply Forall_app. split; [now apply escape_cp_scalar|assumption].
Qed.

Lemma extend_chars_spec (text : list Z) : forall output,
  Forall scalar text ->
  extend_chars text output = Ok (output ++ encode_text (flat_map escape_cp text)).
Proof.
  induction text as [|cp text IH]; intros output Hall; cbn [extend_chars flat_map].
  - now rewrite app_nil_r.
  - inversion Hall as [|x l Hcp Htext]; subst.
    destruct (decode_char_enc cp [] Hcp) as [Henc _].
    rewrite encode_text_app, app_assoc. unfold escape_cp at 1.
    destruct (is_pua cp).
    + rewrite Henc, bind_Ok, extend_escaped_spec, bind_Ok. now apply IH.
    + rewrite Henc, bind_Ok. cbn [encode_text flat_map]. rewrite app_nil_r.
      now apply IH.
Qed.

Lemma utf8_to_bytes_loop_app (a b : list Z) : forall output,
  utf8_to_bytes_loop (a ++ b) output
  = (o <- utf8_to_bytes_loop a output ;; utf8_to_bytes_loop b o).
Proof.
  induction a as [|cp a IH]; intros output; cbn [app utf8_to_bytes_loop];
    [reflexivity|].
  destruct (is_pua cp).
  - destruct (byte_of_Z (cp - PUA_START)); [|reflexivity].
    rewrite !bind_Ok. apply IH.
  - destruct (utf8_encode_char cp); [|reflexivity].
    rewrite !bind_Ok. apply IH.
Qed.

Lemma utf8_to_bytes_loop_pua (bs : list byte) : forall output,
  utf8_to_bytes_loop (map pua bs) output = Ok (output ++ bs).
Proof.
  induction bs as [|b bs IH]; intros output; cbn [map utf8_to_bytes_loop].
  - now rewrite app_nil_r.
  - rewrite pua_is_pua. unfold pua at 1.
    replace (PUA_START + byte_to_Z b - PUA_START) with (byte_to_Z b) by lia.
    rewrite byte_of_Z_to_Z, bind_Ok, IH, <- app_assoc. reflexivity.
Qed.

Lemma utf8_to_bytes_loop_escape (text : list Z) : forall output,
  Forall scalar text ->
  utf8_to_bytes_loop (flat_map escape_cp text) output
  = Ok (output ++ encode_text text).
Proof.
  induction text as [|cp text IH]; intros output Hall; cbn [flat_map].
  - cbn. now rewrite app_nil_r.
  - inversion Hall as [|x l Hcp Htext]; subst.
    destruct (decode_char_enc cp [] Hcp) as [Henc _].
    rewrite utf8_to_bytes_loop_app. unfold escape_cp.
    destruct (is_pua cp) eqn:Ep.
    + rewrite utf8_to_bytes_loop_pua, bind_Ok, IH by assumption.
      cbn [encode_text flat_map]. now rewrite app_assoc.
    + cbn [utf8_to_bytes_loop]. rewrite Ep, Henc, !bind_Ok, IH by assumption.
      cbn [encode_text flat_map]. now rewrite app_assoc.
Qed.

Lemma text_of_spec (bs : list byte) (text : list Z) :
  utf8_decode bs = Ok text ->
  text_of bs = text /\ Forall scalar text /\ encode_text text = bs.
Proof.
  intros H. unfold text_of. rewrite H.
  destruct (utf8_decode_inv (length bs) bs text (le_n _) H). auto.
Qed.

Lemma chunk_text_scalar (c : Utf8Chunk) (text : list Z) :
  utf8_decode (valid c) = Ok text -> Forall scalar (chunk_text c).
Proof.
  intros H. destruct (text_of_spec _ _ H) as (E & Hall & _).
  unfold chunk_text. rewrite E. apply Forall_app. split.
  - now apply flat_map_escape_scalar.
  - apply Forall_map. apply Forall_forall. intros b _. apply pua_scalar.
Qed.

Lemma utf8_to_bytes_loop_chunk (c : Utf8Chunk) (text : list Z) (output : list byte) :
  utf8_decode (valid c) = Ok text ->
  utf8_to_bytes_loop (chunk_text c) output = Ok (output ++ valid c ++ invalid c).
Proof.
  intros H. destruct (text_of_spec _ _ H) as (E & Hall & Henc).
  unfold chunk_text. rewrite E, utf8_to_bytes_loop_app.
  rewrite utf8_to_bytes_loop_escape, bind_Ok by assumption.
  rewrite utf8_to_bytes_loop_pua, Henc, <- app_assoc. reflexivity.
Qed.

(** The chunks of a byte string, and what [bytes_to_utf8_loop] appends
    for them. *)
Lemma bytes_to_utf8_loop_spec (fuel : nat) : forall source output,
  (length source <= fuel)%nat ->
  exists chunks,
    Utf8Chunks_list fuel source = Ok chunks
    /\ concat (map (fun c => valid c ++ invalid c) chunks) = source
    /\ Forall (fun c => exists text, utf8_decode (valid c) = Ok text) chunks
    /\ bytes_to_utf8_loop fuel source output
       = Ok (output ++ encode_text (flat_map chunk_text chunks)).
Proof.
  induction fuel as [|fuel IH]; intros source output Hlen.
  - destruct source; [|cbn in Hlen; lia].
    exists []. cbn. rewrite app_nil_r. auto.
  - destruct source as [|b0 r0] eqn:E.
    + exists []. cbn. rewrite app_nil_r. auto.
    + rewrite <- E in *.
      destruct (Utf8Chunks_next_spec source) as (c & rem & text & Hnext & Hsrc & Hdec & Hl);
        [rewrite E; discriminate|].
      destruct (IH rem (output ++ encode_text (chunk_text c)) ltac:(lia))
        as (chunks & Hlist & Hcat & Hall & Hloop).
      exists (c :: chunks). cbn [Utf8Chunks_list bytes_to_utf8_loop].
      rewrite Hnext, !bind_Ok, Hlist, bind_Ok.
      split; [reflexivity|]. split.
      { cbn [map concat]. rewrite Hcat, <- app_assoc. now symmetry. }
      split; [constructor; eauto|].
      destruct (text_of_spec _ _ Hdec) as (Etext & Hsc & _).
      rewrite Hdec, bind_Ok, extend_chars_spec, bind_Ok by assumption.
      assert (Hout : (output ++ encode_text (flat_map escape_cp text))
                     ++ encode_text (map pua (invalid c))
                     = output ++ encode_text (chunk_text c)).
      { unfold chunk_text. rewrite Etext, encode_text_app, app_assoc. reflexivity. }
      rewrite extend_escaped_spec, bind_Ok, Hout, Hloop.
      cbn [flat_map]. rewrite encode_text_app, <- app_assoc. reflexivity.
Qed.

Lemma utf8_to_bytes_loop_chunks (chunks : list Utf8Chunk) : forall output,
  Forall (fun c => exists text, utf8_decode (valid c) = Ok text) chunks ->
  utf8_to_bytes_loop (flat_map chunk_text chunks) output
  = Ok (output ++ concat (map (fun c => valid c ++ invalid c) chunks)).
Proof.
  induction chunks as [|c chunks IH]; intros output Hall; cbn [flat_map map concat].
  - cbn. now rewrite app_nil_r.
  - inversion Hall as [|x l [text Hdec] Hrest]; subst.
    rewrite utf8_to_bytes_loop_app, (utf8_to_bytes_loop_chunk c text) by assumption.
    rewrite bind_Ok, IH by assumption. now rewrite <- !app_assoc.
Qed.

Lemma chunks_text_scalar (chunks : list Utf8Chunk) :
  Forall (fun c => exists text, utf8_decode (valid c) = Ok text) chunks ->
  Forall scalar (flat_map chunk_text chunks).
Proof.
  induction 1 as [|c chunks [text Hdec] _ IH]; cbn [flat_map]; [constructor|].
  apply Forall_app. split; [now apply (chunk_text_scalar c text)|assumption].
Qed.

(** [bytes_to_utf8] returns, and what it returns decodes. *)
Lemma bytes_text_roundtrip_aux (data : list byte) :
  exists output text, bytes_to_utf8 data = Ok output /\ utf8_decode output = Ok text.
Proof.
  destruct (bytes_to_utf8_loop_spec (length data) data [] (le_n _))
    as (chunks & Hlist & Hcat & Hall & Hloop).
  eexists. exists (flat_map chunk_text chunks). split; [exact Hloop|]. cbn [app].
  rewrite <- (app_nil_r (encode_text _)).
  rewrite utf8_decode_encode_text by (now apply chunks_text_scalar).
  cbn [utf8_decode]. rewrite bind_Ok, app_nil_r. reflexivity.
Qed.

(** ** The claims about the codec *)

(** C2: for every byte string [b], [utf8_to_bytes] applied to the UTF-8
    decoding of [bytes_to_utf8 b] returns [b]. *)
Theorem bytes_text_roundtrip (data : list byte) :
  exists output text,
    bytes_to_utf8 data = Ok output
    /\ utf8_decode output = Ok text
    /\ utf8_to_bytes text = Ok data.
Proof.
  destruct (bytes_to_utf8_loop_spec (length data) data [] (le_n _))
    as (chunks & Hlist & Hcat & Hall & Hloop).
  eexists. exists (flat_map chunk_text chunks). split; [exact Hloop|]. cbn [app].
  split.
  - rewrite <- (app_nil_r (encode_text _)).
    rewrite utf8_decode_encode_text by (now apply chunks_text_scalar).
    cbn [utf8_decode]. rewrite bind_Ok, app_nil_r. reflexivity.
  - unfold utf8_to_bytes. rewrite utf8_to_bytes_loop_chunks by assumption.
    cbn [app]. now rewrite Hcat.
Qed.

(** The bytes of U+E042 followed by the raw byte 0x42, an invalid byte
    and an overlong form. *)
Example bytes_text_roundtrip_example :
  (output <- bytes_to_utf8 [xee; x81; x82; x42; xff; xc0; x80] ;;
   text <- utf8_decode output ;;
   bytes <- utf8_to_bytes text ;; Ok (text, bytes))
  = Ok ([0xE0EE; 0xE081; 0xE082; 0x42; 0xE0FF; 0xE0C0; 0xE080],
        [xee; x81; x82; x42; xff; xc0; x80]).
Proof. reflexivity. Qed.


(** ** Further properties of the codec *)

(** The text [compress] tokenizes, and the bytes it stands for. *)
Lemma escaped_text_bytes (data output : list byte) (text : list Z) :
  bytes_to_utf8 data = Ok output -> utf8_decode output = Ok text ->
  Forall scalar text /\ utf8_to_bytes text = Ok data.
Proof.
  intros Hout Hdec.
  destruct (bytes_to_utf8_loop_spec (length data) data [] (le_n _))
    as (chunks & Hlist & Hcat & Hall & Hloop).
  unfold bytes_to_utf8 in Hout. rewrite Hloop in Hout. cbn [app] in Hout.
  inversion Hout; subst output; clear Hout.
  rewrite <- (app_nil_r (encode_text _)) in Hdec.
  rewrite utf8_decode_encode_text in Hdec by (now apply chunks_text_scalar).
  cbn [utf8_decode] in Hdec. rewrite bind_Ok, app_nil_r in Hdec.
  inversion Hdec; subst text; clear Hdec.
  split; [now apply chunks_text_scalar|].
  unfold utf8_to_bytes. rewrite utf8_to_bytes_loop_chunks by assumption.
  cbn [app]. now rewrite Hcat.
Qed.

(** *** The scanner on valid input *)

Lemma scan_valid (fuel : nat) : forall source i text,
  (i <= length source)%nat -> (length source - i <= fuel)%nat ->
  utf8_decode (skipn i source) = Ok text ->
  scan fuel source i i = Ok (length source, length source).
Proof.
  induction fuel as [|fuel IH]; intros source i text Hi Hfuel Hdec.
  - cbn [scan]. destruct (Nat.ltb_spec i (length source)); [lia|].
    replace i with (length source) by lia. reflexivity.
  - cbn [scan]. destruct (Nat.ltb_spec i (length source)) as [Hlt|Hge].
    2:{ replace i with (length source) by lia. reflexivity. }
    assert (Hne : skipn i source <> []).
    { intros E. apply (f_equal (@length byte)) in E.
      rewrite length_skipn in E. cbn [length] in E. lia. }
    rewrite scan_body_skipn.
    pose proof (scan_body_spec (skipn i source) Hne) as Hbody.
    destruct (skipn i source) as [|b0 r0] eqn:Hsk; [contradiction|].
    rewrite utf8_decode_unfold in Hdec.
    destruct (decode_char (b0 :: r0)) as [[cp rest]|] eqn:Hc; [|discriminate].
    rewrite Hbody. cbn [shift_exit].
    destruct (decode_char_inv _ _ _ Hc) as (Hsc & _ & Hl & Hnil).
    apply bind_inv in Hdec. destruct Hdec as (cps & Hrest & _).
    assert (Hlen : (length (enc cp) + length rest = length source - i)%nat).
    { rewrite <- length_skipn, Hsk, Hl, length_app. reflexivity. }
    assert (Hk : (length (b0 :: r0) - length rest)%nat = length (enc cp)).
    { rewrite Hl, length_app. lia. }
    assert (Hpos : (0 < length (enc cp))%nat).
    { destruct (enc cp); [contradiction|cbn [length]; lia]. }
    rewrite Hk.
    apply (IH source (i + length (enc cp))%nat cps); try lia.
    replace (skipn (i + length (enc cp)) source)
      with (skipn (length (enc cp)) (skipn i source))
      by (rewrite skipn_skipn; f_equal; lia).
    rewrite Hsk, Hl, skipn_app, skipn_all, Nat.sub_diag. exact Hrest.
Qed.

Lemma scan_body_break (source : list byte) (i j : nat) :
  scan_body source i = Break j -> (i + 1 <= j <= i + 3)%nat.
Proof.
  unfold scan_body. split_decode; intros E; inversion E; lia.
Qed.

Lemma scan_body_completed (source : list byte) (i j : nat) :
  (i < length source)%nat -> scan_body source i = Completed j ->
  (i < j <= length source)%nat.
Proof.
  intros Hlt Hb.
  assert (Hne : skipn i source <> []).
  { intros E. apply (f_equal (@length byte)) in E.
    rewrite length_skipn in E. cbn [length] in E. lia. }
  rewrite scan_body_skipn in Hb.
  pose proof (scan_body_spec (skipn i source) Hne) as Hbody.
  destruct (decode_char (skipn i source)) as [[cp rest]|] eqn:Hc.
  - rewrite Hbody in Hb. cbn [shift_exit] in Hb. inversion Hb; subst j.
    destruct (decode_char_inv _ _ _ Hc) as (_ & _ & Hl & Hnil).
    assert (Hlen : (length (enc cp) + length rest = length source - i)%nat).
    { rewrite <- length_skipn, Hl, length_app. reflexivity. }
    assert (Hpos : (0 < length (enc cp))%nat).
    { destruct (enc cp); [contradiction|cbn [length]; lia]. }
    rewrite length_skipn. lia.
  - destruct Hbody as (k & Hk & _). rewrite Hk in Hb. discriminate.
Qed.

(** Where the scanner stops: at the end of the source with everything
    valid, or one to three bytes past the last valid position. *)
Lemma scan_shape (fuel : nat) : forall source i i' v,
  (i <= length source)%nat -> (length source - i <= fuel)%nat ->
  scan fuel source i i = Ok (i', v) ->
  (i' = length source /\ v = length source)
  \/ (v + 1 <= i' <= v + 3)%nat.
Proof.
  induction fuel as [|fuel IH]; intros source i i' v Hi Hfuel Hrun.
  - cbn [scan] in Hrun. destruct (Nat.ltb_spec i (length source)); [lia|].
    inversion Hrun; subst. left. lia.
  - cbn [scan] in Hrun. destruct (Nat.ltb_spec i (length source)) as [Hlt|Hge].
    2:{ inversion Hrun; subst. left. lia. }
    destruct (scan_body source i) as [k|k] eqn:Hb.
    + pose proof (scan_body_completed _ _ _ Hlt Hb) as Hk.
      apply (IH source k i' v); [lia|lia|exact Hrun].
    + inversion Hrun; subst. right. apply scan_body_break in Hb. lia.
Qed.

Lemma Utf8Chunks_next_valid (source : list byte) (text : list Z) :
  source <> [] -> utf8_decode source = Ok text ->
  Utf8Chunks_next source = Ok (Some ({| valid := source; invalid := [] |}, [])).
Proof.
  intros Hne Hdec.
  assert (Hnext : Utf8Chunks_next source =
                  ('(i, valid_up_to) <- scan (length source) source 0 0 ;;
                   Ok (Some ({| valid := firstn valid_up_to (firstn i source);
                                invalid := skipn valid_up_to (firstn i source) |},
                             skipn i source))))
    by (destruct source; [contradiction|reflexivity]).
  rewrite Hnext.
  rewrite (scan_valid (length source) source 0 text) by (try lia; exact Hdec).
  rewrite bind_Ok. cbv beta iota.
  now rewrite !firstn_all, !skipn_all.
Qed.

(** X17: [Utf8Chunks.__next__] on a non-empty source: the chunk is a valid
    UTF-8 part followed by an invalid run of at most three bytes; the
    run is empty exactly when the whole source is valid UTF-8, and then
    nothing remains. *)
Theorem Utf8Chunks_next_shape (source : list byte) :
  source <> [] ->
  exists chunk remaining,
    Utf8Chunks_next source = Ok (Some (chunk, remaining))
    /\ source = valid chunk ++ invalid chunk ++ remaining
    /\ (exists text, utf8_decode (valid chunk) = Ok text)
    /\ (length (invalid chunk) <= 3)%nat
    /\ (invalid chunk = [] -> remaining = [])
    /\ (invalid chunk = [] <-> exists text, utf8_decode source = Ok text).
Proof.
  intros Hne.
  assert (Hnext : Utf8Chunks_next source =
                  ('(i, valid_up_to) <- scan (length source) source 0 0 ;;
                   Ok (Some ({| valid := firstn valid_up_to (firstn i source);
                                invalid := skipn valid_up_to (firstn i source) |},
                             skipn i source))))
    by (destruct source; [contradiction|reflexivity]).
  destruct (scan_spec (length source) source 0 [])
    as (i' & v & text' & Hrun & H1 & H2 & H3 & H4 & H5); try lia; [reflexivity|].
  pose proof (scan_shape (length source) source 0 i' v
                ltac:(lia) ltac:(lia) Hrun) as Hshape.
  rewrite Hnext, Hrun, bind_Ok. cbv beta iota.
  eexists. eexists. split; [reflexivity|]. cbn [valid invalid].
  rewrite firstn_firstn, Nat.min_l by lia.
  assert (Hinv : length (skipn v (firstn i' source)) = (i' - v)%nat).
  { rewrite length_skipn, length_firstn. lia. }
  assert (Hsplit : source = firstn v source ++ skipn v (firstn i' source)
                            ++ skipn i' source).
  { rewrite app_assoc.
    replace (firstn v source) with (firstn v (firstn i' source))
      by (rewrite firstn_firstn, Nat.min_l by lia; reflexivity).
    now rewrite !firstn_skipn. }
  assert (Hrem : skipn v (firstn i' source) = [] -> skipn i' source = []).
  { intros E. rewrite E in Hinv. cbn [length] in Hinv.
    apply skipn_all2. lia. }
  split; [exact Hsplit|]. split; [exists text'; exact H4|].
  split; [lia|]. split; [exact Hrem|]. split.
  - intros E. exists text'. rewrite Hsplit, E, (Hrem E), !app_nil_r. exact H4.
  - intros (text & Hdec).
    rewrite (scan_valid (length source) source 0 text) in Hrun
      by (try lia; exact Hdec).
    inversion Hrun; subst. now rewrite firstn_all, skipn_all.
Qed.

Lemma Utf8Chunks_next_shape_witness :
  exists chunk remaining,
    Utf8Chunks_next [x41; xe2; x82; x42] = Ok (Some (chunk, remaining))
    /\ [x41; xe2; x82; x42] = valid chunk ++ invalid chunk ++ remaining
    /\ (exists text, utf8_decode (valid chunk) = Ok text)
    /\ (length (invalid chunk) <= 3)%nat
    /\ (invalid chunk = [] -> remaining = [])
    /\ (invalid chunk = []
        <-> exists text, utf8_decode [x41; xe2; x82; x42] = Ok text).
Proof.
  apply (Utf8Chunks_next_shape [x41; xe2; x82; x42]). discriminate.
Defined.

Lemma escape_cp_plain (text : list Z) :
  Forall (fun cp => is_pua cp = false) text -> flat_map escape_cp text = text.
Proof.
  induction 1 as [|cp text Hcp _ IH]; [reflexivity|].
  cbn [flat_map]. unfold escape_cp at 1. rewrite Hcp, IH. reflexivity.
Qed.

(** X18: Valid UTF-8 that holds no code point of the escape range
    U+E000..U+E0FF passes through [bytes_to_utf8] unchanged. *)
Theorem bytes_to_utf8_plain (data : list byte) (text : list Z) :
  utf8_decode data = Ok text ->
  Forall (fun cp => is_pua cp = false) text ->
  bytes_to_utf8 data = Ok data.
Proof.
  intros Hdec Hplain.
  destruct data as [|b0 r0]; [reflexivity|].
  destruct (utf8_decode_inv _ _ _ (le_n _) Hdec) as [Hsc Henc].
  unfold bytes_to_utf8. cbn [length bytes_to_utf8_loop].
  rewrite (Utf8Chunks_next_valid (b0 :: r0) text) by (try discriminate; exact Hdec).
  rewrite bind_Ok. cbv beta iota. cbn [valid invalid].
  rewrite Hdec, bind_Ok, extend_chars_spec by exact Hsc.
  rewrite bind_Ok. cbn [extend_escaped]. rewrite bind_Ok.
  rewrite escape_cp_plain by exact Hplain. rewrite Henc. cbn [app].
  destruct (length r0); reflexivity.
Qed.

Lemma bytes_to_utf8_plain_witness :
  bytes_to_utf8 [x68; xc3; xa9; xe2; x82; xac] = Ok [x68; xc3; xa9; xe2; x82; xac].
Proof.
  apply (bytes_to_utf8_plain [x68; xc3; xa9; xe2; x82; xac] [0x68; 0xE9; 0x20AC]).
  - reflexivity.
  - repeat constructor.
Defined.

(** *** Sizes *)

Lemma enc_pua_length (b : byte) : length (enc (pua b)) = 3%nat.
Proof.
  pose proof (Coder.byte_to_Z_range b) as Hb.
  unfold enc, utf8_encode_char, pua, PUA_START.
  repeat match goal with
         | |- context [if ?c then _ else _] => destruct c eqn:?
         end; bool_hyps; try lia; reflexivity.
Qed.

Lemma encode_text_pua_length (bs : list byte) :
  length (encode_text (map pua bs)) = (3 * length bs)%nat.
Proof.
  induction bs as [|b bs IH]; [reflexivity|].
  cbn [map encode_text flat_map]. fold (encode_text (map pua bs)).
  rewrite length_app, enc_pua_length, IH. cbn [length]. lia.
Qed.

Lemma encode_text_escape_length (text : list Z) :
  (length (encode_text text) <= length (encode_text (flat_map escape_cp text))
   <= 3 * length (encode_text text))%nat.
Proof.
  induction text as [|cp text IH]; [cbn; lia|].
  cbn [flat_map]. rewrite encode_text_app.
  cbn [encode_text flat_map]. fold (encode_text text).
  fold (encode_text (flat_map escape_cp text)). rewrite !length_app.
  assert (Hcp : (length (enc cp) <= length (encode_text (escape_cp cp))
                 <= 3 * length (enc cp))%nat).
  { unfold escape_cp. destruct (is_pua cp).
    - rewrite encode_text_pua_length. lia.
    - cbn [encode_text flat_map]. rewrite app_nil_r. lia. }
  fold (encode_text (escape_cp cp)). lia.
Qed.

Lemma chunks_length (chunks : list Utf8Chunk) :
  Forall (fun c => exists text, utf8_decode (valid c) = Ok text) chunks ->
  (length (concat (map (fun c => valid c ++ invalid c) chunks))
   <= length (encode_text (flat_map chunk_text chunks))
   <= 3 * length (concat (map (fun c => valid c ++ invalid c) chunks)))%nat.
Proof.
  induction 1 as [|c chunks [text Hc] _ IH]; [cbn; lia|].
  cbn [map concat flat_map]. rewrite encode_text_app, !length_app.
  unfold chunk_text at 1 3. rewrite encode_text_app, length_app.
  rewrite encode_text_pua_length.
  destruct (text_of_spec _ _ Hc) as (E & _ & Henc).
  pose proof (encode_text_escape_length (text_of (valid c))) as Hesc.
  rewrite E, Henc in Hesc. rewrite E. lia.
Qed.

(** X19: [bytes_to_utf8] never shrinks its input and at most triples it. *)
Theorem bytes_to_utf8_length (data : list byte) :
  exists output,
    bytes_to_utf8 data = Ok output
    /\ (length data <= length output <= 3 * length data)%nat.
Proof.
  destruct (bytes_to_utf8_loop_spec (length data) data [] (le_n _))
    as (chunks & _ & Hcat & Hall & Hloop).
  eexists. split; [exact Hloop|]. cbn [app].
  pose proof (chunks_length chunks Hall) as H. now rewrite Hcat in H.
Qed.

(** *** Exceptions of [utf8_to_bytes] *)

Lemma utf8_encode_char_surrogate (cp : Z) :
  0 <= cp <= 0x10FFFF -> ~ scalar cp ->
  utf8_encode_char cp = Err UnicodeEncodeError.
Proof.
  intros Hr Hs. unfold scalar in Hs. unfold utf8_encode_char.
  repeat match goal with
         | |- context [if ?c then _ else _] => destruct c eqn:?
         end; bool_hyps; try lia; reflexivity.
Qed.

Lemma is_pua_scalar (cp : Z) : is_pua cp = true -> scalar cp.
Proof.
  unfold is_pua, PUA_START, scalar. intros H. bool_hyps. lia.
Qed.

Lemma utf8_to_bytes_loop_scalar (text : list Z) : forall output,
  Forall scalar text -> exists bytes, utf8_to_bytes_loop text output = Ok bytes.
Proof.
  induction text as [|cp text IH]; intros output Hall; [eexists; reflexivity|].
  inversion Hall as [|? ? Hcp Hrest]; subst. cbn [utf8_to_bytes_loop].
  destruct (is_pua cp) eqn:Hp.
  - unfold is_pua, PUA_START in Hp. bool_hyps.
    destruct (Coder.byte_of_Z_ok (cp - PUA_START)) as (b & Hb & _);
      [unfold PUA_START; lia|].
    rewrite Hb, bind_Ok. now apply IH.
  - destruct (decode_char_enc cp [] Hcp) as [He _].
    rewrite He, bind_Ok. now apply IH.
Qed.

Lemma utf8_to_bytes_loop_surrogate (text : list Z) : forall output,
  Forall (fun cp => 0 <= cp <= 0x10FFFF) text -> ~ Forall scalar text ->
  utf8_to_bytes_loop text output = Err UnicodeEncodeError.
Proof.
  induction text as [|cp text IH]; intros output Hr Hns.
  - exfalso. apply Hns. constructor.
  - inversion Hr as [|? ? Hcp Hrest]; subst. cbn [utf8_to_bytes_loop].
    destruct (is_pua cp) eqn:Hp.
    + pose proof (is_pua_scalar cp Hp) as Hsc.
      unfold is_pua, PUA_START in Hp. bool_hyps.
      destruct (Coder.byte_of_Z_ok (cp - PUA_START)) as (b & Hb & _);
        [unfold PUA_START; lia|].
      rewrite Hb, bind_Ok. apply IH; [exact Hrest|].
      intros Hall. apply Hns. constructor; assumption.
    + destruct (utf8_encode_char cp) as [bs|e] eqn:He.
      * assert (Hsc : scalar cp).
        { unfold scalar. unfold utf8_encode_char in He.
          repeat match type of He with
                 | context [if ?c then _ else _] => destruct c eqn:?
                 end; bool_hyps; try discriminate; lia. }
        rewrite bind_Ok. apply IH; [exact Hrest|].
        intros Hall. apply Hns. constructor; assumption.
      * assert (Hsc : ~ scalar cp).
        { intros Hsc. destruct (decode_char_enc cp [] Hsc) as [He' _]. congruence. }
        rewrite (utf8_encode_char_surrogate cp Hcp Hsc) in He.
        inversion He; subst. reflexivity.
Qed.

(** X20: [utf8_to_bytes] on a string returns unless the string holds a
    surrogate code point, and then it raises [UnicodeEncodeError]. *)
Theorem utf8_to_bytes_errors (text : list Z) :
  Forall (fun cp => 0 <= cp <= 0x10FFFF) text ->
  (Forall scalar text -> exists bytes, utf8_to_bytes text = Ok bytes)
  /\ (~ Forall scalar text -> utf8_to_bytes text = Err UnicodeEncodeError).
Proof.
  intros Hr. split.
  - apply utf8_to_bytes_loop_scalar.
  - now apply utf8_to_bytes_loop_surrogate.
Qed.

Lemma utf8_to_bytes_errors_witness :
  (Forall scalar [0x41; 0xD800] -> exists bytes, utf8_to_bytes [0x41; 0xD800] = Ok bytes)
  /\ (~ Forall scalar [0x41; 0xD800]
      -> utf8_to_bytes [0x41; 0xD800] = Err UnicodeEncodeError).
Proof.
  apply (utf8_to_bytes_errors [0x41; 0xD800]).
  repeat constructor; lia.
Defined.

(** ** The chunks and the text, read on the bytes alone *)

(** ** The chunks of a byte string *)

Lemma second_of_3_continuation (x0 x1 : Z) :
  second_of_3 x0 x1 = true -> continuation x1 = true.
Proof.
  unfold second_of_3, continuation. intros H. bool_hyps;
    apply andb_true_iff; split; apply Z.leb_le; lia.
Qed.

Lemma second_of_4_continuation (x0 x1 : Z) :
  second_of_4 x0 x1 = true -> continuation x1 = true.
Proof.
  unfold second_of_4, continuation. intros H. bool_hyps;
    apply andb_true_iff; split; apply Z.leb_le; lia.
Qed.

(** No well-formed character starts with a continuation byte. *)
Lemma decode_char_continuation (b : byte) (l : list byte) :
  continuation (byte_to_Z b) = true -> decode_char (b :: l) = None.
Proof.
  unfold continuation. intros H. bool_hyps. cbn [decode_char]. cbv zeta.
  destruct (Z.ltb_spec (byte_to_Z b) 128); [lia|].
  destruct l as [|b1 [|b2 [|b3 l]]]; try reflexivity;
    repeat match goal with
           | |- context [(?a <=? ?x) && (?y <=? ?c)] =>
               replace ((a <=? x) && (y <=? c)) with false
                 by (symmetry; apply andb_false_iff;
                     first [left; apply Z.leb_gt; lia|right; apply Z.leb_gt; lia])
           end; reflexivity.
Qed.

(** Where no well-formed character starts, the scanner breaks after one
    to three bytes, and the bytes it passed over after the first are
    continuation bytes. *)
Lemma scan_body_invalid (l : list byte) :
  l <> [] -> decode_char l = None ->
  exists j, scan_body l 0 = Break j /\ (1 <= j <= length l)%nat /\ (j <= 3)%nat
            /\ forall k b, (1 <= k < j)%nat -> nth_error l k = Some b ->
                           continuation (byte_to_Z b) = true.
Proof.
  intros Hne. unfold scan_body. cbv zeta. cbn [Nat.add].
  rewrite cond_of_3, cond_of_4.
  destruct l as [|b0 [|b1 [|b2 [|b3 r]]]]; [contradiction| | | |];
    cbn [safe_get nth_error decode_char length];
    rewrite ?land_192, ?second_of_3_zero, ?second_of_4_zero;
    change (Z.land 0 192 =? TAG_CONT_U8) with false; cbn [negb];
    repeat match goal with
           | |- context [second_of_3 ?a ?b] => destruct (second_of_3 a b) eqn:?
           | |- context [second_of_4 ?a ?b] => destruct (second_of_4 a b) eqn:?
           | |- context [continuation ?a] => destruct (continuation a) eqn:?
           | |- context [(?a <? 128)] => destruct (a <? 128) eqn:?
           | |- context [(?a <=? ?b) && (?c <=? ?d)] =>
               destruct ((a <=? b) && (c <=? d)) eqn:?
           end;
    cbn [andb negb length]; intros Hnone; try discriminate;
    (eexists; split; [reflexivity|]; split; [lia|]; split; [lia|]);
    intros k b Hk Hb;
    destruct k as [|[|[|k]]]; try lia;
    cbn [nth_error] in Hb; inversion Hb; subst;
    eauto using second_of_3_continuation, second_of_4_continuation.
Qed.

Lemma scan_invalid (fuel : nat) : forall source i i' v,
  (i <= length source)%nat -> (length source - i <= fuel)%nat ->
  scan fuel source i i = Ok (i', v) -> (v < i')%nat ->
  decode_char (skipn v source) = None
  /\ forall k b, (1 <= k < i' - v)%nat -> nth_error (skipn v source) k = Some b ->
                 continuation (byte_to_Z b) = true.
Proof.
  induction fuel as [|fuel IH]; intros source i i' v Hi Hfuel Hrun Hlt.
  - cbn [scan] in Hrun. destruct (Nat.ltb_spec i (length source)); [lia|].
    inversion Hrun; subst. lia.
  - cbn [scan] in Hrun. destruct (Nat.ltb_spec i (length source)) as [Hil|Hge].
    2:{ inversion Hrun; subst. lia. }
    destruct (scan_body source i) as [k|j] eqn:Hb.
    + pose proof (scan_body_completed _ _ _ Hil Hb) as Hk.
      apply (IH source k i' v); [lia|lia|exact Hrun|exact Hlt].
    + inversion Hrun; subst i' v. clear Hrun.
      assert (Hne : skipn i source <> []).
      { intros E. apply (f_equal (@length byte)) in E.
        rewrite length_skipn in E. cbn [length] in E. lia. }
      rewrite scan_body_skipn in Hb.
      pose proof (scan_body_spec (skipn i source) Hne) as Hspec.
      destruct (decode_char (skipn i source)) as [[cp rest]|] eqn:Hc.
      { rewrite Hspec in Hb. discriminate. }
      destruct (scan_body_invalid (skipn i source) Hne Hc)
        as (j0 & Hj0 & Hr & H3 & Hcont).
      rewrite Hj0 in Hb. cbn [shift_exit] in Hb. inversion Hb; subst j.
      split; [reflexivity|]. intros k b Hk Hnth. apply (Hcont k b); [lia|exact Hnth].
Qed.

(** [__next__] in full: the valid part is valid UTF-8, and no
    well-formed character starts at any byte of the invalid run, which
    has at most three bytes and is empty only at the end of the
    source. *)
Lemma Utf8Chunks_next_canonical (source : list byte) :
  source <> [] ->
  exists chunk remaining text,
    Utf8Chunks_next source = Ok (Some (chunk, remaining))
    /\ source = valid chunk ++ invalid chunk ++ remaining
    /\ utf8_decode (valid chunk) = Ok text
    /\ (length remaining < length source)%nat
    /\ (length (invalid chunk) <= 3)%nat
    /\ (invalid chunk = [] -> remaining = [])
    /\ forall k, (k < length (invalid chunk))%nat ->
                 decode_char (skipn k (invalid chunk) ++ remaining) = None.
Proof.
  intros Hne.
  assert (Hnext : Utf8Chunks_next source =
                  ('(i, valid_up_to) <- scan (length source) source 0 0 ;;
                   Ok (Some ({| valid := firstn valid_up_to (firstn i source);
                                invalid := skipn valid_up_to (firstn i source) |},
                             skipn i source))))
    by (destruct source; [contradiction|reflexivity]).
  destruct (scan_spec (length source) source 0 [])
    as (i' & v & text' & Hrun & H1 & H2 & H3 & H4 & H5); try lia; [reflexivity|].
  pose proof (scan_shape (length source) source 0 i' v
                ltac:(lia) ltac:(lia) Hrun) as Hshape.
  rewrite Hnext, Hrun, bind_Ok. cbv beta iota.
  eexists. eexists. exists text'. split; [reflexivity|]. cbn [valid invalid].
  rewrite firstn_firstn, Nat.min_l by lia.
  assert (Hinv : length (skipn v (firstn i' source)) = (i' - v)%nat).
  { rewrite length_skipn, length_firstn. lia. }
  assert (Htail : skipn v (firstn i' source) ++ skipn i' source = skipn v source).
  { rewrite <- (firstn_skipn i' source) at 3. rewrite skipn_app.
    rewrite length_firstn, Nat.min_l by lia.
    replace (v - i')%nat with O by lia. reflexivity. }
  split.
  { rewrite Htail. symmetry. apply firstn_skipn. }
  split; [exact H4|]. split.
  { rewrite length_skipn.
    assert (0 < length source)%nat by (destruct source; [contradiction|cbn; lia]).
    lia. }
  split; [lia|]. split.
  { intros E. rewrite E in Hinv. cbn [length] in Hinv. apply skipn_all2. lia. }
  intros k Hk. rewrite Hinv in Hk.
  destruct (scan_invalid (length source) source 0 i' v ltac:(lia) ltac:(lia) Hrun
              ltac:(lia)) as [Hnone Hcont].
  assert (Hsk : skipn k (skipn v (firstn i' source)) ++ skipn i' source
                = skipn k (skipn v source)).
  { rewrite <- Htail, skipn_app. rewrite Hinv.
    replace (k - (i' - v))%nat with O by lia. reflexivity. }
  rewrite Hsk. destruct k as [|k]; [exact Hnone|].
  destruct (nth_error (skipn v source) (S k)) as [b|] eqn:Hnth.
  - pose proof (Hcont (S k) b ltac:(lia) Hnth) as Hc.
    destruct (nth_error_split _ _ Hnth) as (l1 & l2 & E & Hl1).
    rewrite E, skipn_app, Hl1, skipn_all2, Nat.sub_diag by lia. cbn [app skipn].
    now apply decode_char_continuation.
  - apply nth_error_None in Hnth. rewrite length_skipn in Hnth. lia.
Qed.

(** A byte string cut into chunks the way [Utf8Chunks] cuts it. *)
Fixpoint chunked (chunks : list Utf8Chunk) (data : list byte) : Prop :=
  match chunks with
  | [] => data = []
  | c :: chunks' =>
      exists rest,
        data = valid c ++ invalid c ++ rest
        /\ (exists text, utf8_decode (valid c) = Ok text)
        /\ valid c ++ invalid c <> []
        /\ (length (invalid c) <= 3)%nat
        /\ (invalid c = [] -> rest = [])
        /\ (forall k, (k < length (invalid c))%nat ->
                      decode_char (skipn k (invalid c) ++ rest) = None)
        /\ chunked chunks' rest
  end.

Lemma Utf8Chunks_list_chunked (fuel : nat) : forall source,
  (length source <= fuel)%nat ->
  exists chunks, Utf8Chunks_list fuel source = Ok chunks /\ chunked chunks source.
Proof.
  induction fuel as [|fuel IH]; intros source Hlen.
  - destruct source; [|cbn in Hlen; lia]. exists []. split; reflexivity.
  - destruct source as [|b0 r0] eqn:Es; [exists []; split; reflexivity|].
    rewrite <- Es in *.
    assert (Hne : source <> []) by (rewrite Es; discriminate).
    destruct (Utf8Chunks_next_canonical source Hne)
      as (c & rest & text & Hnext & Hsplit & Hdec & Hlt & H3 & Hend & Hinv).
    destruct (IH rest ltac:(lia)) as (chunks & Hlist & Hch).
    exists (c :: chunks). cbn [Utf8Chunks_list].
    rewrite Hnext, bind_Ok, Hlist, bind_Ok. split; [reflexivity|].
    cbn [chunked]. exists rest. split; [exact Hsplit|].
    split; [exists text; exact Hdec|]. split.
    { intros E. apply (f_equal (@length byte)) in Hsplit.
      rewrite app_assoc, length_app, E in Hsplit. cbn [length] in Hsplit. lia. }
    auto.
Qed.

(** The claim's words read on the bytes alone, without the chunks:
    where a well-formed character starts it is taken, and passes
    through unless it lies in U+E000..U+E0FF, in which case each of its
    bytes x gives U+E000+x; where none starts, the byte x gives
    U+E000+x and the reading goes on at the next byte. *)
Fixpoint escaped_text (fuel : nat) (bs : list byte) : list Z :=
  match fuel with
  | O => []
  | S fuel' =>
      match decode_char bs with
      | Some (cp, rest) =>
          (if (0xE000 <=? cp) && (cp <=? 0xE0FF)
           then map (fun x => 0xE000 + byte_to_Z x)
                    (firstn (length bs - length rest) bs)
           else [cp])
          ++ escaped_text fuel' rest
      | None =>
          match bs with
          | [] => []
          | b :: bs' => (0xE000 + byte_to_Z b) :: escaped_text fuel' bs'
          end
      end
  end.

Lemma decode_char_shorter (bs : list byte) (cp : Z) (rest : list byte) :
  decode_char bs = Some (cp, rest) ->
  (length rest < length bs)%nat /\ firstn (length bs - length rest) bs = enc cp.
Proof.
  intros H. destruct (decode_char_inv _ _ _ H) as (_ & _ & E & Hne).
  subst bs. rewrite length_app.
  assert (0 < length (enc cp))%nat by (destruct (enc cp); [contradiction|cbn; lia]).
  split; [lia|].
  replace (length (enc cp) + length rest - length rest)%nat
    with (length (enc cp) + 0)%nat by lia.
  rewrite firstn_app_2. cbn [firstn]. apply app_nil_r.
Qed.

Lemma escaped_text_fuel (n : nat) : forall m bs,
  (length bs <= n)%nat -> (length bs <= m)%nat ->
  escaped_text n bs = escaped_text m bs.
Proof.
  induction n as [|n IH]; intros m bs Hn Hm.
  - destruct bs; [|cbn in Hn; lia]. destruct m; reflexivity.
  - destruct m as [|m].
    + destruct bs; [|cbn in Hm; lia]. reflexivity.
    + cbn [escaped_text]. destruct (decode_char bs) as [[cp rest]|] eqn:Hc.
      * destruct (decode_char_shorter _ _ _ Hc) as [Hlt _].
        f_equal. apply IH; lia.
      * destruct bs as [|b bs']; [reflexivity|]. cbn [length] in Hn, Hm.
        f_equal. apply IH; lia.
Qed.

Lemma escaped_text_valid (text : list Z) : forall fuel tail,
  Forall scalar text ->
  (length (encode_text text ++ tail) <= fuel)%nat ->
  escaped_text fuel (encode_text text ++ tail)
  = flat_map escape_cp text ++ escaped_text fuel tail.
Proof.
  induction text as [|cp text IH]; intros fuel tail Hsc Hlen; [reflexivity|].
  inversion Hsc as [|? ? Hcp Hrest]; subst.
  unfold encode_text in *. cbn [flat_map] in *. rewrite <- app_assoc in *.
  destruct (decode_char_enc cp (flat_map enc text ++ tail) Hcp) as [_ Hdec].
  destruct (decode_char_shorter _ _ _ Hdec) as [Hlt Hfirst].
  destruct fuel as [|fuel]; [lia|].
  rewrite (escaped_text_fuel (S fuel) fuel tail)
    by (rewrite !length_app in *; lia).
  cbn [escaped_text]. rewrite Hdec, Hfirst.
  rewrite (IH fuel tail Hrest) by lia. rewrite <- app_assoc. reflexivity.
Qed.

Lemma escaped_text_invalid (inv : list byte) : forall fuel rest,
  (forall k, (k < length inv)%nat -> decode_char (skipn k inv ++ rest) = None) ->
  (length (inv ++ rest) <= fuel)%nat ->
  escaped_text fuel (inv ++ rest) = map pua inv ++ escaped_text fuel rest.
Proof.
  induction inv as [|b inv IH]; intros fuel rest Hinv Hlen; [reflexivity|].
  cbn [length app] in Hlen. destruct fuel as [|fuel]; [lia|].
  pose proof (Hinv 0%nat ltac:(cbn; lia)) as H0. cbn [skipn app] in H0.
  rewrite (escaped_text_fuel (S fuel) fuel rest)
    by (rewrite length_app in Hlen; lia).
  cbn [app escaped_text map]. rewrite H0. unfold pua at 1. f_equal.
  apply (IH fuel rest); [|lia].
  intros k Hk. apply (Hinv (S k)). cbn [length]. lia.
Qed.

(** The chunks of [Utf8Chunks] give the text of the direct reading. *)
Lemma escaped_text_chunked (chunks : list Utf8Chunk) : forall data fuel,
  chunked chunks data -> (length data <= fuel)%nat ->
  flat_map chunk_text chunks = escaped_text fuel data.
Proof.
  induction chunks as [|c chunks IH]; intros data fuel Hch Hlen.
  - cbn [chunked] in Hch. subst data. destruct fuel; reflexivity.
  - cbn [chunked] in Hch.
    destruct Hch as (rest & Hsplit & [text Hdec] & _ & _ & _ & Hinv & Hrest).
    destruct (text_of_spec _ _ Hdec) as (Htext & Hsc & Henc).
    cbn [flat_map]. unfold chunk_text. rewrite Htext. subst data.
    rewrite <- Henc, !length_app in Hlen.
    rewrite <- Henc.
    rewrite escaped_text_valid by (rewrite ?length_app; auto; lia).
    rewrite escaped_text_invalid by (rewrite ?length_app; auto; lia).
    rewrite <- app_assoc. f_equal. f_equal. apply IH; [exact Hrest|lia].
Qed.

(** C3: for every byte string, [bytes_to_utf8] returns valid UTF-8.  The
    input is cut into chunks, each a valid UTF-8 part followed by an
    invalid run of at most three bytes at none of which a well-formed
    character starts, so that a valid part ends only at an invalid byte
    or at the end of the input.  The output decodes to: for each code
    point of a valid part, the code point itself, or, when it lies in
    U+E000..U+E0FF, the code points U+E000+x of its UTF-8 bytes x; then
    U+E000+x for each byte x of the invalid run.  Read on the bytes
    alone this is [escaped_text]. *)
Theorem bytes_to_utf8_spec (data : list byte) :
  exists chunks output,
    Utf8Chunks_list (length data) data = Ok chunks
    /\ concat (map (fun c => valid c ++ invalid c) chunks) = data
    /\ Forall (fun c => exists text, utf8_decode (valid c) = Ok text) chunks
    /\ chunked chunks data
    /\ bytes_to_utf8 data = Ok output
    /\ utf8_decode output
       = Ok (flat_map
               (fun c =>
                  flat_map (fun cp => if is_pua cp
                                      then map (fun x => PUA_START + byte_to_Z x) (enc cp)
                                      else [cp])
                           (text_of (valid c))
                  ++ map (fun x => PUA_START + byte_to_Z x) (invalid c))
               chunks)
    /\ utf8_decode output = Ok (escaped_text (length data) data).
Proof.
  destruct (bytes_to_utf8_loop_spec (length data) data [] (le_n _))
    as (chunks & Hlist & Hcat & Hall & Hloop).
  destruct (Utf8Chunks_list_chunked (length data) data (le_n _))
    as (chunks' & Hlist' & Hch).
  rewrite Hlist in Hlist'. inversion Hlist'; subst chunks'.
  assert (Hdec : utf8_decode (encode_text (flat_map chunk_text chunks))
                 = Ok (flat_map chunk_text chunks)).
  { rewrite <- (app_nil_r (encode_text _)).
    rewrite utf8_decode_encode_text by (now apply chunks_text_scalar).
    cbn [utf8_decode]. rewrite bind_Ok, app_nil_r. reflexivity. }
  exists chunks. eexists. split; [exact Hlist|]. split; [exact Hcat|].
  split; [exact Hall|]. split; [exact Hch|]. split; [exact Hloop|]. cbn [app].
  split; [exact Hdec|].
  rewrite Hdec. f_equal. apply escaped_text_chunked; [exact Hch|apply le_n].
Qed.

(** An ASCII letter passes through, an escape-range character is
    escaped byte by byte, and a lone lead byte, a stray continuation
    byte and an overlong form are escaped one byte at a time. *)
Example escaped_text_example :
  escaped_text 9 [x41; xee; x81; x82; xe2; x82; x41; xc0; x80]
  = [0x41; 0xE0EE; 0xE081; 0xE082; 0xE0E2; 0xE082; 0x41; 0xE0C0; 0xE080].
Proof. reflexivity. Qed.

End Utf8.

Module Base64.

(** ** Constants *)

Definition BASE64 : list byte :=
  [
   "A"; "B"; "C"; "D"; "E"; "F"; "G"; "H";
   "I"; "J"; "K"; "L"; "M"; "N"; "O"; "P";
   "Q"; "R"; "S"; "T"; "U"; "V"; "W"; "X";
   "Y"; "Z"; "a"; "b"; "c"; "d"; "e"; "f";
   "g"; "h"; "i"; "j"; "k"; "l"; "m"; "n";
   "o"; "p"; "q"; "r"; "s"; "t"; "u"; "v";
   "w"; "x"; "y"; "z"; "0"; "1"; "2"; "3";
   "4"; "5"; "6"; "7"; "8"; "9"; "+"; "/"
  ]%byte.


(** [byte in BASE64] *)
Definition in_BASE64 (b : byte) : bool := existsb (Byte.eqb b) BASE64.

(** ** Python's base64 module

    [base64.b64encode] and [base64.b64decode] are library code, modelled
    after RFC 4648 with the standard alphabet. *)

(** The character of a 6-bit value. *)
Definition b64_char (v : Z) : byte := nth (Z.to_nat v) BASE64 x00.

Fixpoint index_from (b : byte) (l : list byte) (i : Z) : option Z :=
  match l with
  | [] => None
  | x :: l' => if Byte.eqb b x then Some i else index_from b l' (i + 1)
  end.

(** The 6-bit value of a character of the alphabet. *)
Definition b64_value (b : byte) : option Z := index_from b BASE64 0.

(** [base64.b64encode] *)
Fixpoint b64encode (s : list byte) : list byte :=
  match s with
  | [] => []
  | [a] =>
      let a := byte_to_Z a in
      [b64_char (a / 4); b64_char (a mod 4 * 16); "="%byte; "="%byte]
  | [a; b] =>
      let a := byte_to_Z a in
      let b := byte_to_Z b in
      [b64_char (a / 4); b64_char (a mod 4 * 16 + b / 16);
       b64_char (b mod 16 * 4); "="%byte]
  | a :: b :: c :: s' =>
      let a := byte_to_Z a in
      let b := byte_to_Z b in
      let c := byte_to_Z c in
      b64_char (a / 4) :: b64_char (a mod 4 * 16 + b / 16)
        :: b64_char (b mod 16 * 4 + c / 64) :: b64_char (c mod 64)
        :: b64encode s'
  end.

(** Four 6-bit values at a time to three bytes; a remainder is
    [binascii.Error] ("Incorrect padding"). *)
Fixpoint decode_quads (vs : list Z) : result (list byte) :=
  match vs with
  | [] => Ok []
  | v0 :: v1 :: v2 :: v3 :: vs' =>
      rest <- decode_quads vs' ;;
      Ok (Utf8.Z_to_byte (v0 * 4 + v1 / 16)
            :: Utf8.Z_to_byte (v1 mod 16 * 16 + v2 / 4)
            :: Utf8.Z_to_byte (v2 mod 4 * 64 + v3) :: rest)
  | _ => Err BinasciiError
  end.

Fixpoint b64_values (s : list byte) : list Z :=
  match s with
  | [] => []
  | b :: s' =>
      match b64_value b with
      | Some v => v :: b64_values s'
      | None => b64_values s'
      end
  end.

(** [base64.b64decode(s)] with the default [validate=False], for [s]
    without ['=']: characters outside the alphabet are discarded.  The
    padding rules for ['='] are not modelled; [robust_b64decode] never
    passes one. *)
Definition b64decode (s : list byte) : result (list byte) :=
  decode_quads (b64_values s).

(** ** robust_b64decode *)

Definition robust_b64decode (input_bytes : list byte) : result (list byte) :=
  let filtered_base64 := filter in_BASE64 input_bytes in
  let padded_base64 :=
    filtered_base64
      ++ repeat "A"%byte (Z.to_nat ((- Z.of_nat (length filtered_base64)) mod 4)) in
  b64decode padded_base64.


(** ** The alphabet *)

Lemma b64_char_value_nat (n : nat) :
  (n < 64)%nat ->
  in_BASE64 (b64_char (Z.of_nat n)) = true
  /\ b64_value (b64_char (Z.of_nat n)) = Some (Z.of_nat n).
Proof.
  intros Hn. do 64 (destruct n as [|n]; [split; reflexivity|]). lia.
Qed.

Lemma b64_char_value (v : Z) :
  0 <= v < 64 ->
  in_BASE64 (b64_char v) = true /\ b64_value (b64_char v) = Some v.
Proof.
  intros Hv. rewrite <- (Z2Nat.id v) by lia. apply b64_char_value_nat. lia.
Qed.

Lemma in_BASE64_char (v : Z) : 0 <= v < 64 -> in_BASE64 (b64_char v) = true.
Proof. intros Hv. apply b64_char_value, Hv. Qed.

Lemma b64_value_char (v : Z) : 0 <= v < 64 -> b64_value (b64_char v) = Some v.
Proof. intros Hv. apply b64_char_value, Hv. Qed.

Lemma in_BASE64_value (b : byte) :
  in_BASE64 b = false -> b64_value b = None.
Proof.
  unfold in_BASE64, b64_value. generalize 0. induction BASE64 as [|x l IH];
    intros i H; [reflexivity|].
  cbn [existsb index_from] in *. apply orb_false_iff in H. destruct H as [H1 H2].
  rewrite H1. now apply IH.
Qed.

(** ** Noise *)

(** [garbled s t]: [t] is [s] with bytes outside the alphabet inserted
    anywhere and ['='] characters removed. *)
Inductive garbled : list byte -> list byte -> Prop :=
| garbled_nil : garbled [] []
| garbled_keep (b : byte) (s t : list byte) :
    garbled s t -> garbled (b :: s) (b :: t)
| garbled_insert (b : byte) (s t : list byte) :
    in_BASE64 b = false -> garbled s t -> garbled s (b :: t)
| garbled_unpad (s t : list byte) :
    garbled s t -> garbled ("="%byte :: s) t.

Lemma garbled_filter (s t : list byte) :
  garbled s t -> filter in_BASE64 t = filter in_BASE64 s.
Proof.
  induction 1 as [|b s t _ IH|b s t Hb _ IH|s t _ IH]; cbn [filter].
  - reflexivity.
  - now rewrite IH.
  - now rewrite Hb.
  - exact IH.
Qed.

(** ** Decoding what was encoded *)

Definition zero_fill (s : list byte) : list byte :=
  s ++ repeat x00 (Z.to_nat ((- Z.of_nat (length s)) mod 3)).

Definition A_fill (s : list byte) : list byte :=
  s ++ repeat "A"%byte (Z.to_nat ((- Z.of_nat (length s)) mod 4)).

Ltac b64_chars :=
  repeat match goal with
         | |- context [in_BASE64 (b64_char ?v)] =>
             rewrite (in_BASE64_char v) by Utf8.dm_lia
         | |- context [b64_value (b64_char ?v)] =>
             rewrite (b64_value_char v) by Utf8.dm_lia
         end.

Ltac byte_eq x :=
  transitivity (Utf8.Z_to_byte (byte_to_Z x));
  [f_equal; Utf8.dm_lia|apply Utf8.Z_to_byte_to_Z].

Ltac byte_zero :=
  transitivity (Utf8.Z_to_byte 0); [f_equal; Utf8.dm_lia|reflexivity].

Lemma decode_A_fill (n : nat) : forall s,
  (length s <= n)%nat ->
  b64decode (A_fill (filter in_BASE64 (b64encode s))) = Ok (zero_fill s).
Proof.
  induction n as [|n IH]; intros s Hlen.
  - destruct s; [reflexivity|cbn in Hlen; lia].
  - destruct s as [|a [|b [|c s]]].
    + reflexivity.
    + pose proof (Coder.byte_to_Z_range a).
      unfold A_fill, zero_fill, b64decode. cbn [b64encode filter].
      b64_chars. cbn [filter length app repeat b64_values].
      change (in_BASE64 "="%byte) with false. cbv iota. cbn [length app].
      change (Z.to_nat (- Z.of_nat 2 mod 4)) with 2%nat.
      change (Z.to_nat (- Z.of_nat 1 mod 3)) with 2%nat.
      cbn [repeat app b64_values]. b64_chars.
      change (b64_value "A"%byte) with (Some 0). cbn [decode_quads].
      rewrite bind_Ok. repeat f_equal; first [byte_eq a|byte_zero].
    + pose proof (Coder.byte_to_Z_range a). pose proof (Coder.byte_to_Z_range b).
      unfold A_fill, zero_fill, b64decode. cbn [b64encode filter].
      b64_chars. cbn [filter length app repeat b64_values].
      change (in_BASE64 "="%byte) with false. cbv iota. cbn [length app].
      change (Z.to_nat (- Z.of_nat 3 mod 4)) with 1%nat.
      change (Z.to_nat (- Z.of_nat 2 mod 3)) with 1%nat.
      cbn [repeat app b64_values]. b64_chars.
      change (b64_value "A"%byte) with (Some 0). cbn [decode_quads].
      rewrite bind_Ok. repeat f_equal; first [byte_eq a|byte_eq b|byte_zero].
    + pose proof (Coder.byte_to_Z_range a). pose proof (Coder.byte_to_Z_range b).
      pose proof (Coder.byte_to_Z_range c).
      cbn [length] in Hlen. specialize (IH s ltac:(lia)).
      unfold A_fill, zero_fill, b64decode in *. cbn [b64encode filter].
      b64_chars. cbn [length app b64_values]. b64_chars.
      cbn [decode_quads].
      replace (Z.to_nat
                 (- Z.of_nat (S (S (S (S (length (filter in_BASE64 (b64encode s)))))))
                  mod 4))
        with (Z.to_nat (- Z.of_nat (length (filter in_BASE64 (b64encode s))) mod 4))
        by (f_equal; Utf8.dm_lia).
      rewrite IH, bind_Ok.
      replace (Z.to_nat (- Z.of_nat (S (S (S (length s)))) mod 3))
        with (Z.to_nat (- Z.of_nat (length s) mod 3)) by (f_equal; Utf8.dm_lia).
      repeat f_equal; first [byte_eq a|byte_eq b|byte_eq c].
Qed.

(** ** The claim about base64 ingestion *)

(** C9, amended: [robust_b64decode] drops every byte outside the
    alphabet, pads with ['A'] to a multiple of four and decodes; applied
    to the base64 encoding of [c] with noise inserted and ['='] removed
    it returns [c] followed by [(-len(c)) mod 3] zero bytes. *)
Theorem robust_b64decode_recovers (c noisy : list byte) :
  garbled (b64encode c) noisy ->
  Z.of_nat (length (A_fill (filter in_BASE64 noisy))) mod 4 = 0
  /\ robust_b64decode noisy = b64decode (A_fill (filter in_BASE64 noisy))
  /\ robust_b64decode noisy
     = Ok (c ++ repeat x00 (Z.to_nat ((- Z.of_nat (length c)) mod 3))).
Proof.
  intros Hg. split; [|split].
  - unfold A_fill. rewrite length_app, repeat_length.
    set (k := length (filter in_BASE64 noisy)).
    rewrite Nat2Z.inj_add, Z2Nat.id by (apply Z.mod_pos_bound; lia).
    Utf8.dm_lia.
  - reflexivity.
  - change (robust_b64decode noisy) with (b64decode (A_fill (filter in_BASE64 noisy))).
    rewrite (garbled_filter _ _ Hg).
    exact (decode_A_fill (length c) c (le_n _)).
Qed.

(** ["aGVs\nbG8"]: the encoding ["aGVsbG8="] of ["hello"] with a newline
    inserted and the padding removed. *)
Lemma robust_b64decode_recovers_witness :
  robust_b64decode ["a"; "G"; "V"; "s"; "010"; "b"; "G"; "8"]%byte
  = Ok ["h"; "e"; "l"; "l"; "o"; "000"]%byte.
Proof.
  apply (robust_b64decode_recovers ["h"; "e"; "l"; "l"; "o"]%byte
           ["a"; "G"; "V"; "s"; "010"; "b"; "G"; "8"]%byte).
  cbn [b64encode]. repeat apply garbled_keep.
  apply garbled_insert; [reflexivity|]. repeat apply garbled_keep.
  apply garbled_unpad. apply garbled_nil.
Defined.

(** C9 as stated fails: the one byte [0xFF] encodes to ["/w=="]; without
    the padding, ["/w"] is filled up to ["/wAA"], three bytes. *)
Lemma robust_b64decode_not_exact :
  exists c noisy,
    garbled (b64encode c) noisy /\ robust_b64decode noisy <> Ok c.
Proof.
  exists [xff], ["/"; "010"; "w"]%byte. split.
  - cbn [b64encode]. apply garbled_keep. apply garbled_insert; [reflexivity|].
    apply garbled_keep. do 2 apply garbled_unpad. apply garbled_nil.
  - discriminate.
Qed.


(** ** Further properties of the ingestion *)


(** What [robust_b64decode] makes of a garbled encoding. *)
Lemma robust_b64decode_garbled (c noisy : list byte) :
  garbled (b64encode c) noisy -> robust_b64decode noisy = Ok (zero_fill c).
Proof.
  intros Hg. unfold robust_b64decode. cbv zeta. fold (A_fill (filter in_BASE64 noisy)).
  rewrite (garbled_filter _ _ Hg). apply (decode_A_fill (length c)). lia.
Qed.

Lemma index_from_found (b : byte) (l : list byte) : forall i,
  existsb (Byte.eqb b) l = true -> exists v, index_from b l i = Some v.
Proof.
  induction l as [|x l IH]; intros i H; [discriminate|].
  cbn [existsb index_from] in *. destruct (Byte.eqb b x); [eauto|].
  now apply IH.
Qed.

Lemma b64_values_length (s : list byte) :
  forallb in_BASE64 s = true -> length (b64_values s) = length s.
Proof.
  induction s as [|b s IH]; [reflexivity|]. cbn [forallb b64_values]. intros H.
  apply andb_true_iff in H. destruct H as [Hb Hs].
  destruct (index_from_found b BASE64 0 Hb) as (v & Hv).
  unfold b64_value. rewrite Hv. cbn [length]. now rewrite IH.
Qed.

Lemma decode_quads_total (n : nat) : forall vs,
  length vs = (4 * n)%nat ->
  exists out, decode_quads vs = Ok out /\ length out = (3 * n)%nat.
Proof.
  induction n as [|n IH]; intros vs Hlen.
  - destruct vs; [|discriminate]. exists []. split; reflexivity.
  - destruct vs as [|v0 [|v1 [|v2 [|v3 vs]]]]; cbn [length] in Hlen; try lia.
    destruct (IH vs ltac:(lia)) as (out & Hout & Hl).
    cbn [decode_quads]. rewrite Hout, bind_Ok. eexists. split; [reflexivity|].
    cbn [length]. lia.
Qed.

Lemma forallb_filter {A : Type} (f : A -> bool) (l : list A) :
  forallb f (filter f l) = true.
Proof.
  induction l as [|a l IH]; [reflexivity|]. cbn [filter].
  destruct (f a) eqn:E; [cbn [forallb]; now rewrite E|exact IH].
Qed.

(** X21: [robust_b64decode] never raises: whatever bytes it is given, the
    alphabet characters among them, filled up with ['A'] to a multiple
    of four, decode to three bytes per group of four. *)
Theorem robust_b64decode_total (input_bytes : list byte) :
  exists out,
    robust_b64decode input_bytes = Ok out
    /\ length out
       = (3 * ((length (filter in_BASE64 input_bytes) + 3) / 4))%nat.
Proof.
  unfold robust_b64decode. cbv zeta. unfold b64decode.
  set (f := filter in_BASE64 input_bytes).
  set (k := Z.to_nat ((- Z.of_nat (length f)) mod 4)).
  assert (Hk : (length f + k = 4 * ((length f + 3) / 4))%nat).
  { subst k. pose proof (Nat.div_mod_eq (length f + 3) 4) as Hd.
    pose proof (Nat.mod_upper_bound (length f + 3) 4 ltac:(lia)) as Hm.
    remember ((length f + 3) / 4)%nat as q. remember ((length f + 3) mod 4)%nat as r.
    assert (E : (- Z.of_nat (length f)) mod 4 = 3 - Z.of_nat r).
    { symmetry. apply (Z.mod_unique _ _ (- Z.of_nat q)); lia. }
    rewrite E. lia. }
  apply decode_quads_total.
  rewrite b64_values_length.
  - rewrite length_app, repeat_length. exact Hk.
  - rewrite forallb_app. subst f. rewrite forallb_filter. cbn [andb].
    clear. induction k as [|k IH]; [reflexivity|]. cbn [repeat forallb].
    rewrite IH. reflexivity.
Qed.






End Base64.

Module Driver.

(** ** The external collaborators

    The tokenizer and the model are objects of the [transformers]
    library.  A tokenizer is what [compress] and [decompress] use of it;
    the model is the oracle that maps the input ids to the CDF of the
    next token ([compute_cdf] of the logits at the last position, each
    entry as [int] reads it; [Cdf.compute_cdf] is its arithmetic).  A
    [str] is the list of its code points. *)

Record Tokenizer : Type := mkTokenizer {
  eos_token_id : option Z;
  sep_token_id : option Z;
  bos_token_id : Z;
  tok_encode : list Z -> list Z;
  tok_decode : list Z -> list Z
}.

Record Model : Type := mkModel {
  next_cdf : list Z -> list Z;
  max_position_embeddings : Z
}.

Record LlamaZip : Type := mkLlamaZip {
  verbose : bool;
  tokenizer : Tokenizer;
  model : Model
}.

(** [LlamaZip.__init__] with [load_model] inlined: [pretrained_tokenizer]
    and [pretrained_model] are what the two [from_pretrained] calls
    return. *)
Definition LlamaZip_init (pretrained_tokenizer : Tokenizer)
           (pretrained_model : Model) (n_ctx : Z) (verbose : bool)
  : result LlamaZip :=
  let model :=
    if n_ctx >? 0 then
      {| next_cdf := next_cdf pretrained_model; max_position_embeddings := n_ctx |}
    else pretrained_model in
  Ok {| verbose := verbose; tokenizer := pretrained_tokenizer; model := model |}.

(** The end marker, looked up the same way by [compress] and
    [decompress]. *)
Definition end_marker (t : Tokenizer) : result Z :=
  match eos_token_id t with
  | Some e => Ok e
  | None =>
      match sep_token_id t with
      | Some e => Ok e
      | None => Err ValueError
      end
  end.

(** [xs[start:]] *)
Definition slice_from {A : Type} (xs : list A) (start : Z) : list A :=
  if start <? 0 then skipn (Z.to_nat (Z.of_nat (length xs) + start)) xs
  else skipn (Z.to_nat start) xs.

(** [xs[start:stop]] for non-negative bounds. *)
Definition slice {A : Type} (xs : list A) (start stop : Z) : list A :=
  firstn (Z.to_nat (stop - start)) (skipn (Z.to_nat start) xs).

(** The model input for a context, truncated to the context length. *)
Definition model_input (lz : LlamaZip) (context_tokens : list Z) : list Z :=
  let input_ids := bos_token_id (tokenizer lz) :: context_tokens in
  let max_context_length := max_position_embeddings (model lz) in
  if Z.of_nat (length input_ids) >=? max_context_length
  then slice_from input_ids (- max_context_length)
  else input_ids.

(** [while next_token_idx < len(tokens): ...] of [compress] (no
    interrupt arrives). *)
Fixpoint compress_loop (fuel : nat) (lz : LlamaZip) (tokens : list Z)
         (window_overlap : Z) (next_token_idx : Z) (token_encoder : Coder.Encoder)
  : result Coder.Encoder :=
  if next_token_idx <? Z.of_nat (length tokens) then
    match fuel with
    | O => Err OutOfFuel
    | S fuel' =>
        let start_idx := Z.max 0 (next_token_idx - window_overlap) in
        let context_tokens := slice tokens start_idx next_token_idx in
        let cdf := next_cdf (model lz) (model_input lz context_tokens) in
        next_token <- py_index 0 tokens next_token_idx ;;
        token_encoder' <- Coder.encode_symbol cdf next_token token_encoder ;;
        compress_loop fuel' lz tokens window_overlap (next_token_idx + 1)
                      token_encoder'
    end
  else Ok token_encoder.

(** [LlamaZip.compress] *)
Definition compress (lz : LlamaZip) (uncompressed : list byte) (window_overlap : Z)
  : result (list byte) :=
  escaped <- Utf8.bytes_to_utf8 uncompressed ;;
  uncompressed_text <- Utf8.utf8_decode escaped ;;
  let tokens := tok_encode (tokenizer lz) uncompressed_text in
  eos_token_id <- end_marker (tokenizer lz) ;;
  let tokens := tokens ++ [eos_token_id] in
  token_encoder <- compress_loop (length tokens) lz tokens window_overlap 0
                                 Coder.Encoder_init ;;
  token_encoder <- Coder.finish token_encoder ;;
  Ok (Coder.get_encoded token_encoder).

(** [LlamaZip.tokenizer_adds_space_prefix] *)
Definition tokenizer_adds_space_prefix (lz : LlamaZip) : bool :=
  let tokenized := tok_encode (tokenizer lz) [32] in
  let detokenized := tok_decode (tokenizer lz) tokenized in
  match detokenized with
  | [32; 32] => true
  | _ => false
  end.

(** [while not done: ...] of [decompress]; the loop ends when the end
    marker is decoded, [fuel] bounds the number of tokens. *)
Fixpoint decompress_loop (fuel : nat) (lz : LlamaZip) (eos_token_id : Z)
         (window_overlap : Z) (seen_tokens : list Z) (decompressed : list byte)
         (token_decoder : Coder.Decoder) : result (list byte) :=
  match fuel with
  | O => Err OutOfFuel
  | S fuel' =>
      let start_idx := Z.max 0 (Z.of_nat (length seen_tokens) - window_overlap) in
      let context_tokens := slice_from seen_tokens start_idx in
      let cdf := next_cdf (model lz) (model_input lz context_tokens) in
      '(next_token, token_decoder') <- Coder.decode_symbol cdf token_decoder ;;
      if next_token =? eos_token_id then Ok decompressed
      else
        let seen_tokens := seen_tokens ++ [next_token] in
        let next_utf8 := tok_decode (tokenizer lz) [next_token] in
        let next_utf8 :=
          if (length seen_tokens =? 1)%nat
             && match next_utf8 with 32 :: _ => true | _ => false end
             && tokenizer_adds_space_prefix lz
          then tl next_utf8 else next_utf8 in
        next_bytes <- Utf8.utf8_to_bytes next_utf8 ;;
        decompress_loop fuel' lz eos_token_id window_overlap seen_tokens
                        (decompressed ++ next_bytes) token_decoder'
  end.

(** [LlamaZip.decompress] *)
Definition decompress (fuel : nat) (lz : LlamaZip) (compressed : list byte)
           (window_overlap : Z) : result (list byte) :=
  token_decoder <- Coder.Decoder_init compressed ;;
  eos_token_id <- end_marker (tokenizer lz) ;;
  decompress_loop fuel lz eos_token_id window_overlap [] [] token_decoder.

(** ** The claim about the missing end marker *)

(** C8, amended: when the tokenizer declares neither an EOS nor a
    separator token, constructing the compressor succeeds; every call
    of [compress] and of [decompress] then raises [ValueError] before
    any symbol is coded. *)
Theorem missing_end_marker (t : Tokenizer) (m : Model) (n_ctx : Z) (v : bool) :
  eos_token_id t = None -> sep_token_id t = None ->
  exists lz,
    LlamaZip_init t m n_ctx v = Ok lz
    /\ (forall uncompressed window_overlap,
          compress lz uncompressed window_overlap = Err ValueError)
    /\ (forall fuel compressed window_overlap,
          decompress fuel lz compressed window_overlap = Err ValueError).
Proof.
  intros Heos Hsep. eexists. split; [reflexivity|].
  assert (Hend : end_marker t = Err ValueError).
  { unfold end_marker. now rewrite Heos, Hsep. }
  split.
  - intros uncompressed w. unfold compress. cbn [tokenizer].
    destruct (Utf8.bytes_text_roundtrip_aux uncompressed)
      as (escaped & text & Hesc & Hdec).
    rewrite Hesc, bind_Ok, Hdec, bind_Ok, Hend. reflexivity.
  - intros fuel compressed w. unfold decompress. cbn [tokenizer].
    destruct (Coder.Decoder_init_spec compressed) as (d & Hinit & _).
    rewrite Hinit, bind_Ok, Hend. reflexivity.
Qed.

Definition bare_tokenizer : Tokenizer :=
  {| eos_token_id := None; sep_token_id := None; bos_token_id := 0;
     tok_encode := fun text => text; tok_decode := fun ids => ids |}.

Definition flat_model : Model :=
  {| next_cdf := fun _ => [1; 2; 3]; max_position_embeddings := 8 |}.

Lemma missing_end_marker_witness :
  exists lz,
    LlamaZip_init bare_tokenizer flat_model 0 false = Ok lz
    /\ (forall uncompressed window_overlap,
          compress lz uncompressed window_overlap = Err ValueError)
    /\ (forall fuel compressed window_overlap,
          decompress fuel lz compressed window_overlap = Err ValueError).
Proof.
  apply (missing_end_marker bare_tokenizer flat_model 0 false); reflexivity.
Defined.

(** C8 as stated fails: construction does not check for an end marker. *)
Lemma init_without_end_marker :
  exists t m n_ctx v lz,
    eos_token_id t = None /\ sep_token_id t = None
    /\ LlamaZip_init t m n_ctx v = Ok lz.
Proof.
  exists bare_tokenizer, flat_model, 0, false. eexists.
  split; [reflexivity|]. split; reflexivity.
Qed.


(** ** The coder run of a compression *)

(** The CDF under which [compress] codes the token at index [i]. *)
Definition compress_cdf (lz : LlamaZip) (tokens : list Z) (window_overlap : Z)
           (i : nat) : list Z :=
  next_cdf (model lz)
    (model_input lz (slice tokens (Z.max 0 (Z.of_nat i - window_overlap))
                           (Z.of_nat i))).

(** The (CDF, token) pairs of the tokens at indices [i, i + n). *)
Definition coding_pairs (lz : LlamaZip) (tokens : list Z) (window_overlap : Z)
           (i n : nat) : list (list Z * Z) :=
  map (fun j => (compress_cdf lz tokens window_overlap j, nth j tokens 0)) (seq i n).

Lemma py_index_nat {A : Type} (d : A) (xs : list A) (i : nat) :
  (i < length xs)%nat -> py_index d xs (Z.of_nat i) = Ok (nth i xs d).
Proof.
  intros Hi. unfold py_index.
  destruct (Z.leb_spec 0 (Z.of_nat i)); [|lia].
  destruct (Z.ltb_spec (Z.of_nat i) (Z.of_nat (length xs))); [|lia].
  cbn [andb]. now rewrite Nat2Z.id.
Qed.

Lemma compress_loop_encode (lz : LlamaZip) (tokens : list Z) (w : Z) (fuel : nat) :
  forall i token_encoder,
    (i <= length tokens)%nat -> (length tokens - i <= fuel)%nat ->
    compress_loop fuel lz tokens w (Z.of_nat i) token_encoder
    = Coder.encode_symbols (coding_pairs lz tokens w i (length tokens - i))
                           token_encoder.
Proof.
  induction fuel as [|fuel IH]; intros i e Hi Hfuel.
  - replace (length tokens - i)%nat with O by lia.
    cbn [compress_loop].
    destruct (Z.ltb_spec (Z.of_nat i) (Z.of_nat (length tokens))); [lia|].
    reflexivity.
  - cbn [compress_loop].
    destruct (Z.ltb_spec (Z.of_nat i) (Z.of_nat (length tokens))) as [Hlt|Hge].
    + replace (length tokens - i)%nat with (S (length tokens - S i)) by lia.
      unfold coding_pairs. cbn [seq map Coder.encode_symbols].
      fold (coding_pairs lz tokens w (S i) (length tokens - S i)).
      rewrite py_index_nat, bind_Ok by lia.
      fold (compress_cdf lz tokens w i).
      destruct (Coder.encode_symbol _ _ e) as [e'|err]; [|reflexivity].
      rewrite !bind_Ok.
      replace (Z.of_nat i + 1) with (Z.of_nat (S i)) by lia.
      apply IH; lia.
    + replace (length tokens - i)%nat with O by lia. reflexivity.
Qed.

(** [compress] is the coder run over the tokens of the escaped text and
    the end marker, each under the CDF of its context. *)
Lemma compress_encode (lz : LlamaZip) (data escaped : list byte) (text : list Z)
      (eos w : Z) :
  Utf8.bytes_to_utf8 data = Ok escaped -> Utf8.utf8_decode escaped = Ok text ->
  end_marker (tokenizer lz) = Ok eos ->
  compress lz data w
  = Coder.encode (coding_pairs lz (tok_encode (tokenizer lz) text ++ [eos]) w 0
                               (length (tok_encode (tokenizer lz) text ++ [eos]))).
Proof.
  intros Hesc Hdec Hend. unfold compress.
  rewrite Hesc, bind_Ok, Hdec, bind_Ok, Hend, bind_Ok.
  change 0 with (Z.of_nat 0) at 1.
  rewrite compress_loop_encode by lia. rewrite Nat.sub_0_r. reflexivity.
Qed.

(** *** The context window *)

Lemma slice_seen (seen rest : list Z) (start : Z) :
  0 <= start ->
  slice (seen ++ rest) start (Z.of_nat (length seen)) = slice_from seen start.
Proof.
  intros Hs. unfold slice, slice_from.
  destruct (Z.ltb_spec start 0); [lia|].
  destruct (Z.le_gt_cases start (Z.of_nat (length seen))) as [Hle|Hgt].
  - rewrite skipn_app.
    replace (Z.to_nat (Z.of_nat (length seen) - start))
      with (length (skipn (Z.to_nat start) seen))
      by (rewrite length_skipn; lia).
    rewrite firstn_app, Nat.sub_diag, firstn_O, app_nil_r.
    apply firstn_all.
  - replace (Z.to_nat (Z.of_nat (length seen) - start)) with O by lia.
    rewrite firstn_O. symmetry. apply skipn_all2. lia.
Qed.

Lemma compress_cdf_seen (lz : LlamaZip) (seen rest : list Z) (w : Z) :
  compress_cdf lz (seen ++ rest) w (length seen)
  = next_cdf (model lz)
      (model_input lz (slice_from seen
                         (Z.max 0 (Z.of_nat (length seen) - w)))).
Proof.
  unfold compress_cdf. rewrite slice_seen by lia. reflexivity.
Qed.

(** ** Decompressing what [compress] returns *)

(** The text [decompress] appends for the token [t], [n] being the
    number of tokens seen once [t] is appended. *)
Definition token_text (lz : LlamaZip) (n : nat) (t : Z) : list Z :=
  let next_utf8 := tok_decode (tokenizer lz) [t] in
  if (n =? 1)%nat
     && match next_utf8 with 32 :: _ => true | _ => false end
     && tokenizer_adds_space_prefix lz
  then tl next_utf8 else next_utf8.

(** The text [decompress] builds from [tokens], [n] tokens having been
    seen before. *)
Fixpoint detokenize_from (lz : LlamaZip) (n : nat) (tokens : list Z) : list Z :=
  match tokens with
  | [] => []
  | t :: tokens' => token_text lz (S n) t ++ detokenize_from lz (S n) tokens'
  end.

(** A model whose CDFs are what [compute_cdf] is meant to return:
    strictly increasing, one entry per token of the vocabulary, with a
    total far below the coder's range. *)
Definition model_ok (m : Model) (vocab_size : Z) : Prop :=
  forall input_ids,
    Coder.cdf_increasing (next_cdf m input_ids)
    /\ last (next_cdf m input_ids) 0 <= 2 ^ 62
    /\ Z.of_nat (length (next_cdf m input_ids)) = vocab_size.

Lemma utf8_to_bytes_loop_acc (text : list Z) : forall output,
  Utf8.utf8_to_bytes_loop text output
  = (next_bytes <- Utf8.utf8_to_bytes_loop text [] ;; Ok (output ++ next_bytes)).
Proof.
  induction text as [|char text IH]; intros output.
  - cbn [Utf8.utf8_to_bytes_loop]. now rewrite bind_Ok, app_nil_r.
  - cbn [Utf8.utf8_to_bytes_loop]. destruct (Utf8.is_pua char).
    + destruct (byte_of_Z (char - PUA_START)) as [b|e]; [|reflexivity].
      rewrite !bind_Ok, (IH (output ++ [b])), (IH ([] ++ [b])).
      destruct (Utf8.utf8_to_bytes_loop text []) as [nb|e]; [|reflexivity].
      rewrite !bind_Ok. cbn [app]. now rewrite <- app_assoc.
    + destruct (Utf8.utf8_encode_char char) as [bs|e]; [|reflexivity].
      rewrite !bind_Ok, (IH (output ++ bs)), (IH ([] ++ bs)).
      destruct (Utf8.utf8_to_bytes_loop text []) as [nb|e]; [|reflexivity].
      rewrite !bind_Ok. cbn [app]. now rewrite <- app_assoc.
Qed.

Lemma coding_pairs_S (lz : LlamaZip) (tokens : list Z) (w : Z) (i n : nat) :
  coding_pairs lz tokens w i (S n)
  = (compress_cdf lz tokens w i, nth i tokens 0) :: coding_pairs lz tokens w (S i) n.
Proof. reflexivity. Qed.

Lemma pairs_ok (lz : LlamaZip) (tokens : list Z) (w vocab_size : Z) :
  model_ok (model lz) vocab_size ->
  Forall (fun t => 0 <= t < vocab_size) tokens ->
  forall n i, (i + n <= length tokens)%nat ->
              Forall Coder.pair_ok (coding_pairs lz tokens w i n).
Proof.
  intros Hm Htok. induction n as [|n IH]; intros i Hi; [constructor|].
  rewrite coding_pairs_S. constructor; [|apply IH; lia].
  unfold compress_cdf.
  destruct (Hm (model_input lz (slice tokens (Z.max 0 (Z.of_nat i - w)) (Z.of_nat i))))
    as (Hinc & Hb & Hlen).
  split; cbn [fst snd].
  - split; [now apply Coder.cdf_increasing_wf|exact Hb].
  - apply Coder.increasing_in_support; [exact Hinc|]. rewrite Hlen.
    rewrite Forall_forall in Htok. apply Htok. apply nth_In. lia.
Qed.

(** The decompression loop on the bytes of an encoder run: it decodes
    the tokens up to the first end marker, stops there and returns the
    bytes of their text. *)
Lemma decompress_loop_follows (lz : LlamaZip) (eos w : Z) (data : list byte)
      (all after : list Z) (c_f : Coder.Coder) (t_f : Coder.TraceState) :
  forall rest seen c t d decompressed out fuel,
    all = seen ++ rest ++ eos :: after ->
    Coder.normalized c ->
    Forall Coder.pair_ok
      (coding_pairs lz all w (length seen) (S (length rest + length after))) ->
    @Coder.update_all _ Coder.Trace_hooks
       (coding_pairs lz all w (length seen) (S (length rest + length after))) (c, t)
    = Ok (c_f, t_f) ->
    Coder.agrees (Coder.bit_at data) (fst t_f ++ [true]) ->
    (forall i, (length (fst t_f) < i)%nat -> Coder.bit_at data i = false) ->
    Coder.dec_follows data c t d ->
    ~ In eos rest ->
    Utf8.utf8_to_bytes_loop (detokenize_from lz (length seen) rest) decompressed
    = Ok out ->
    (length rest < fuel)%nat ->
    decompress_loop fuel lz eos w seen decompressed (c, d) = Ok out.
Proof.
  induction rest as [|tk rest IH];
    intros seen c t d decompressed out fuel Hall Hn Hok Hrun Hag Hzero Hfol
           Hnoeos Hbytes Hfuel.
  - destruct fuel as [|fuel]; [cbn [length] in Hfuel; lia|].
    cbn [length Nat.add] in Hok, Hrun. rewrite coding_pairs_S in Hok, Hrun.
    destruct (Coder.decode_head_follows data _ _ _ c t d c_f t_f Hn Hok Hrun
                Hag Hzero Hfol) as (c1 & t1 & d1 & Hdec & _).
    rewrite Hall, compress_cdf_seen in Hdec.
    cbn [app] in Hdec. rewrite nth_middle in Hdec.
    cbn [decompress_loop]. cbv zeta. rewrite Hdec, bind_Ok. cbv beta iota.
    rewrite Z.eqb_refl. cbn [detokenize_from Utf8.utf8_to_bytes_loop] in Hbytes.
    exact Hbytes.
  - destruct fuel as [|fuel]; [cbn [length] in Hfuel; lia|].
    cbn [length Nat.add] in Hok, Hrun, Hfuel.
    rewrite coding_pairs_S in Hok, Hrun.
    destruct (Coder.decode_head_follows data _ _ _ c t d c_f t_f Hn Hok Hrun
                Hag Hzero Hfol) as (c1 & t1 & d1 & Hdec & Hn1 & Hrun1 & Hfol1).
    inversion Hok as [|? ? _ Hok1]; subst.
    rewrite compress_cdf_seen in Hdec.
    cbn [app] in Hdec. rewrite nth_middle in Hdec.
    cbn [decompress_loop]. cbv zeta. rewrite Hdec, bind_Ok. cbv beta iota.
    destruct (Z.eqb_spec tk eos) as [E|_].
    { exfalso. apply Hnoeos. left. now symmetry. }
    cbn [detokenize_from] in Hbytes.
    rewrite Utf8.utf8_to_bytes_loop_app in Hbytes.
    apply bind_inv in Hbytes. destruct Hbytes as (o & Hpiece & Hrest).
    rewrite utf8_to_bytes_loop_acc in Hpiece.
    apply bind_inv in Hpiece. destruct Hpiece as (next_bytes & Hnb & Ho).
    inversion Ho; subst o; clear Ho.
    assert (Hlen : length (seen ++ [tk]) = S (length seen))
      by (rewrite length_app; cbn [length]; lia).
    rewrite Hlen. fold (token_text lz (S (length seen)) tk).
    unfold Utf8.utf8_to_bytes. rewrite Hnb, bind_Ok.
    apply (IH (seen ++ [tk]) c1 t1 d1 _ out fuel).
    + now rewrite <- app_assoc.
    + exact Hn1.
    + rewrite Hlen. exact Hok1.
    + rewrite Hlen. exact Hrun1.
    + exact Hag.
    + exact Hzero.
    + exact Hfol1.
    + intros Hin. apply Hnoeos. now right.
    + rewrite Hlen. exact Hrest.
    + lia.
Qed.

(** [compress] returns, and [decompress] of what it returns stops at the
    first end marker among the tokens and the end marker appended to
    them. *)
Lemma decompress_compress (lz : LlamaZip) (data escaped : list byte) (text : list Z)
      (eos vocab_size w : Z) (before after : list Z) (out : list byte) :
  Utf8.bytes_to_utf8 data = Ok escaped -> Utf8.utf8_decode escaped = Ok text ->
  end_marker (tokenizer lz) = Ok eos ->
  model_ok (model lz) vocab_size ->
  Forall (fun t => 0 <= t < vocab_size) (tok_encode (tokenizer lz) text ++ [eos]) ->
  tok_encode (tokenizer lz) text ++ [eos] = before ++ eos :: after ->
  ~ In eos before ->
  Utf8.utf8_to_bytes (detokenize_from lz 0 before) = Ok out ->
  exists compressed,
    compress lz data w = Ok compressed
    /\ forall fuel, (length before < fuel)%nat ->
                    decompress fuel lz compressed w = Ok out.
Proof.
  intros Hesc Hdec Hend Hm Htok Hsplit Hnoeos Hbytes.
  set (tokens := tok_encode (tokenizer lz) text) in *.
  rewrite (compress_encode lz data escaped text eos w Hesc Hdec Hend).
  fold tokens.
  assert (Hlen : length (tokens ++ [eos]) = S (length before + length after)).
  { rewrite Hsplit, length_app. cbn [length]. lia. }
  assert (Hok : Forall Coder.pair_ok
                  (coding_pairs lz (tokens ++ [eos]) w 0
                                (S (length before + length after)))).
  { apply (pairs_ok lz _ w vocab_size Hm Htok). rewrite Hlen. lia. }
  rewrite Hlen.
  destruct (Coder.encode_decoder_start _ Hok)
    as (compressed & c_f & t_f & d0 & Henc & Hrun & Hag & Hzero & Hinit & Hfol).
  exists compressed. split; [exact Henc|]. intros fuel Hfuel.
  unfold decompress. rewrite Hinit, bind_Ok, Hend, bind_Ok.
  apply (decompress_loop_follows lz eos w compressed (tokens ++ [eos]) after c_f t_f
           before [] Coder.Coder_init ([], O) d0 [] out fuel).
  - exact Hsplit.
  - exact Coder.Coder_init_normalized.
  - exact Hok.
  - exact Hrun.
  - exact Hag.
  - exact Hzero.
  - exact Hfol.
  - exact Hnoeos.
  - exact Hbytes.
  - exact Hfuel.
Qed.

Lemma roundtrip (lz : LlamaZip) (data escaped : list byte) (text : list Z)
      (eos vocab_size w : Z) :
  Utf8.bytes_to_utf8 data = Ok escaped -> Utf8.utf8_decode escaped = Ok text ->
  end_marker (tokenizer lz) = Ok eos ->
  model_ok (model lz) vocab_size ->
  Forall (fun t => 0 <= t < vocab_size) (tok_encode (tokenizer lz) text ++ [eos]) ->
  ~ In eos (tok_encode (tokenizer lz) text) ->
  detokenize_from lz 0 (tok_encode (tokenizer lz) text) = text ->
  exists compressed,
    compress lz data w = Ok compressed
    /\ forall fuel, (length (tok_encode (tokenizer lz) text) < fuel)%nat ->
                    decompress fuel lz compressed w = Ok data.
Proof.
  intros Hesc Hdec Hend Hm Htok Hnoeos Hdetok.
  destruct (Utf8.escaped_text_bytes data escaped text Hesc Hdec) as [_ Hbytes].
  apply (decompress_compress lz data escaped text eos vocab_size w
           (tok_encode (tokenizer lz) text) [] data Hesc Hdec Hend Hm Htok
           eq_refl Hnoeos).
  rewrite Hdetok. exact Hbytes.
Qed.

(** X1: Round trip: when the model's CDFs are strictly increasing over the
    vocabulary, the tokens of the escaped text lie in the vocabulary
    and do not contain the end marker, and the texts of the tokens spell
    the escaped text, [compress] returns and [decompress] of what it
    returns is the input, for any window overlap. *)
Theorem compress_decompress_roundtrip (lz : LlamaZip) (data escaped : list byte)
        (text : list Z) (eos vocab_size w : Z) :
  Utf8.bytes_to_utf8 data = Ok escaped -> Utf8.utf8_decode escaped = Ok text ->
  end_marker (tokenizer lz) = Ok eos ->
  model_ok (model lz) vocab_size ->
  Forall (fun t => 0 <= t < vocab_size) (tok_encode (tokenizer lz) text ++ [eos]) ->
  ~ In eos (tok_encode (tokenizer lz) text) ->
  detokenize_from lz 0 (tok_encode (tokenizer lz) text) = text ->
  exists compressed,
    compress lz data w = Ok compressed
    /\ forall fuel, (length (tok_encode (tokenizer lz) text) < fuel)%nat ->
                    decompress fuel lz compressed w = Ok data.
Proof.
  intros Hesc Hdec Hend Hm Htok Hnoeos Hdetok.
  destruct (Utf8.escaped_text_bytes data escaped text Hesc Hdec) as [_ Hbytes].
  apply (decompress_compress lz data escaped text eos vocab_size w
           (tok_encode (tokenizer lz) text) [] data Hesc Hdec Hend Hm Htok
           eq_refl Hnoeos).
  rewrite Hdetok. exact Hbytes.
Qed.

(** A tokenizer over the letters a, b, ... (token [k] is the letter
    [97 + k]) with end marker 2, and a model whose CDF depends on the
    number of ids it is given. *)
Definition letter_tokenizer : Tokenizer :=
  {| eos_token_id := Some 2; sep_token_id := None; bos_token_id := 7;
     tok_encode := map (fun cp => cp - 97); tok_decode := map (fun t => t + 97) |}.

Definition parity_model : Model :=
  {| next_cdf := fun input_ids =>
                   if Nat.even (length input_ids) then [3; 4; 9] else [1; 6; 7];
     max_position_embeddings := 8 |}.

Definition letter_zip : LlamaZip :=
  {| verbose := false; tokenizer := letter_tokenizer; model := parity_model |}.

Lemma parity_model_ok : model_ok parity_model 3.
Proof.
  intros input_ids. cbn [next_cdf parity_model].
  destruct (Nat.even (length input_ids));
    (split; [split; [discriminate|reflexivity]|split; [discriminate|reflexivity]]).
Qed.

Lemma compress_decompress_roundtrip_witness :
  exists compressed,
    compress letter_zip [x61; x62; x62; x61] 2 = Ok compressed
    /\ forall fuel, (4 < fuel)%nat ->
                    decompress fuel letter_zip compressed 2
                    = Ok [x61; x62; x62; x61].
Proof.
  apply (compress_decompress_roundtrip letter_zip [x61; x62; x62; x61]
           [x61; x62; x62; x61] [97; 98; 98; 97] 2 3 2).
  - reflexivity.
  - reflexivity.
  - reflexivity.
  - exact parity_model_ok.
  - cbn. repeat constructor; lia.
  - cbn. intros [H|[H|[H|[H|[]]]]]; discriminate.
  - reflexivity.
Defined.

(** X2: When the tokens of the text contain the end marker, [decompress]
    stops at its first occurrence: it returns the bytes of the text of
    the tokens before it, and nothing of what follows. *)
Theorem decompress_stops_at_end_marker (lz : LlamaZip) (data escaped : list byte)
        (text : list Z) (eos vocab_size w : Z) (before after : list Z)
        (out : list byte) :
  Utf8.bytes_to_utf8 data = Ok escaped -> Utf8.utf8_decode escaped = Ok text ->
  end_marker (tokenizer lz) = Ok eos ->
  model_ok (model lz) vocab_size ->
  Forall (fun t => 0 <= t < vocab_size) (tok_encode (tokenizer lz) text ++ [eos]) ->
  tok_encode (tokenizer lz) text = before ++ eos :: after ->
  ~ In eos before ->
  Utf8.utf8_to_bytes (detokenize_from lz 0 before) = Ok out ->
  exists compressed,
    compress lz data w = Ok compressed
    /\ forall fuel, (length before < fuel)%nat ->
                    decompress fuel lz compressed w = Ok out.
Proof.
  intros Hesc Hdec Hend Hm Htok Hsplit Hnoeos Hbytes.
  apply (decompress_compress lz data escaped text eos vocab_size w
           before (after ++ [eos]) out Hesc Hdec Hend Hm Htok); try assumption.
  rewrite Hsplit, <- app_assoc. reflexivity.
Qed.

Lemma decompress_stops_at_end_marker_witness :
  exists compressed,
    compress letter_zip [x61; x63; x62; x61] 2 = Ok compressed
    /\ forall fuel, (1 < fuel)%nat ->
                    decompress fuel letter_zip compressed 2 = Ok [x61].
Proof.
  apply (decompress_stops_at_end_marker letter_zip [x61; x63; x62; x61]
           [x61; x63; x62; x61] [97; 99; 98; 97] 2 3 2 [0] [1; 0] [x61]).
  - reflexivity.
  - reflexivity.
  - reflexivity.
  - exact parity_model_ok.
  - cbn. repeat constructor; lia.
  - reflexivity.
  - cbn. intros [H|[]]; discriminate.
  - reflexivity.
Defined.

(** X22: [compress] returns whenever the end marker exists and the tokens lie
    in the vocabulary of a well-formed model; what it returns is never
    empty and never ends in a zero byte. *)
Theorem compress_returns (lz : LlamaZip) (data escaped : list byte) (text : list Z)
        (eos vocab_size w : Z) :
  Utf8.bytes_to_utf8 data = Ok escaped -> Utf8.utf8_decode escaped = Ok text ->
  end_marker (tokenizer lz) = Ok eos ->
  model_ok (model lz) vocab_size ->
  Forall (fun t => 0 <= t < vocab_size) (tok_encode (tokenizer lz) text ++ [eos]) ->
  exists compressed,
    compress lz data w = Ok compressed
    /\ compressed <> [] /\ last compressed x00 <> x00.
Proof.
  intros Hesc Hdec Hend Hm Htok.
  rewrite (compress_encode lz data escaped text eos w Hesc Hdec Hend).
  apply Coder.encode_nonzero.
  apply (pairs_ok lz _ w vocab_size Hm Htok). cbn [Nat.add]. lia.
Qed.

Lemma compress_returns_witness :
  exists compressed,
    compress letter_zip [x61; x63; x62; x61] 1 = Ok compressed
    /\ compressed <> [] /\ last compressed x00 <> x00.
Proof.
  apply (compress_returns letter_zip [x61; x63; x62; x61]
           [x61; x63; x62; x61] [97; 99; 98; 97] 2 3 1).
  - reflexivity.
  - reflexivity.
  - reflexivity.
  - exact parity_model_ok.
  - cbn. repeat constructor; lia.
Defined.

(** ** Zero bytes after the compressed data *)

Lemma decompress_loop_same (lz : LlamaZip) (eos w : Z) (fuel : nat) :
  forall seen decompressed s1 s2,
    Coder.same_decoder s1 s2 ->
    decompress_loop fuel lz eos w seen decompressed s1
    = decompress_loop fuel lz eos w seen decompressed s2.
Proof.
  induction fuel as [|fuel IH]; intros seen decompressed s1 s2 H; [reflexivity|].
  cbn [decompress_loop]. cbv zeta.
  pose proof (Coder.decode_symbol_same
                (next_cdf (model lz)
                   (model_input lz
                      (slice_from seen (Z.max 0 (Z.of_nat (length seen) - w)))))
                s1 s2 H) as Hd.
  destruct (Coder.decode_symbol _ s1) as [[t1 s1']|e1],
           (Coder.decode_symbol _ s2) as [[t2 s2']|e2];
    cbn [Coder.result_sim] in Hd; try contradiction.
  - destruct Hd as [Et H']. cbn [fst snd] in Et, H'. subst t2.
    rewrite !bind_Ok. cbv beta iota.
    destruct (t1 =? eos); [reflexivity|].
    destruct (Utf8.utf8_to_bytes _) as [next_bytes|e]; [|reflexivity].
    rewrite !bind_Ok. now apply IH.
  - subst. reflexivity.
Qed.

Lemma decompress_zeros (fuel : nat) (lz : LlamaZip) (compressed : list byte)
      (k : nat) (w : Z) :
  decompress fuel lz (compressed ++ repeat x00 k) w = decompress fuel lz compressed w.
Proof.
  unfold decompress.
  destruct (Coder.Decoder_init_zeros compressed k) as (s1 & s2 & E1 & E2 & H).
  rewrite E1, E2, !bind_Ok.
  destruct (end_marker (tokenizer lz)) as [eos|e]; [|reflexivity].
  rewrite !bind_Ok. now apply decompress_loop_same.
Qed.

(** X6: [decompress] does not see zero bytes appended to its input: it
    returns the same bytes, raises the same exception, or runs as long. *)
Theorem decompress_trailing_zeros (fuel : nat) (lz : LlamaZip)
        (compressed : list byte) (k : nat) (w : Z) :
  decompress fuel lz (compressed ++ repeat x00 k) w = decompress fuel lz compressed w.
Proof.
  unfold decompress.
  destruct (Coder.Decoder_init_zeros compressed k) as (s1 & s2 & E1 & E2 & H).
  rewrite E1, E2, !bind_Ok.
  destruct (end_marker (tokenizer lz)) as [eos|e]; [|reflexivity].
  rewrite !bind_Ok. now apply decompress_loop_same.
Qed.

(** X5: Base64 transport: what [robust_b64decode] recovers from a garbled
    encoding of the compressed bytes (inserted non-alphabet characters,
    padding removed) decompresses exactly as the compressed bytes do. *)
Theorem decompress_robust_b64decode (fuel : nat) (lz : LlamaZip)
        (compressed noisy : list byte) (w : Z) :
  Base64.garbled (Base64.b64encode compressed) noisy ->
  exists recovered,
    Base64.robust_b64decode noisy = Ok recovered
    /\ decompress fuel lz recovered w = decompress fuel lz compressed w.
Proof.
  intros Hg. exists (Base64.zero_fill compressed).
  split; [now apply Base64.robust_b64decode_garbled|].
  unfold Base64.zero_fill. apply decompress_zeros.
Qed.

Lemma decompress_robust_b64decode_witness :
  exists recovered,
    Base64.robust_b64decode ["/"; "010"; "w"]%byte = Ok recovered
    /\ decompress 5 letter_zip recovered 1 = decompress 5 letter_zip [xff] 1.
Proof.
  apply (decompress_robust_b64decode 5 letter_zip [xff] ["/"; "010"; "w"]%byte 1).
  cbn [Base64.b64encode].
  apply Base64.garbled_keep. apply Base64.garbled_insert; [reflexivity|].
  apply Base64.garbled_keep. apply Base64.garbled_unpad, Base64.garbled_unpad.
  apply Base64.garbled_nil.
Defined.

(** ** Arbitrary input *)

Lemma token_text_scalar (lz : LlamaZip) (n : nat) (t : Z) :
  Forall Utf8.scalar (tok_decode (tokenizer lz) [t]) ->
  Forall Utf8.scalar (token_text lz n t).
Proof.
  intros H. unfold token_text. cbv zeta.
  destruct (_ && _ && _); [|exact H].
  destruct (tok_decode (tokenizer lz) [t]); [exact H|].
  inversion H; assumption.
Qed.

Lemma decompress_loop_safe (lz : LlamaZip) (eos w : Z) (fuel : nat) :
  (forall input_ids, Coder.cdf_increasing (next_cdf (model lz) input_ids)
                     /\ last (next_cdf (model lz) input_ids) 0 < 2 ^ 63) ->
  (forall t, Forall Utf8.scalar (tok_decode (tokenizer lz) [t])) ->
  forall seen decompressed c d,
    Coder.in_range c -> Coder.dec_tracks (Coder.input d) c d ->
    (exists out, decompress_loop fuel lz eos w seen decompressed (c, d) = Ok out)
    \/ decompress_loop fuel lz eos w seen decompressed (c, d) = Err OutOfFuel.
Proof.
  intros Hm Htok. induction fuel as [|fuel IH]; intros seen decompressed c d Hc Htr.
  - right. reflexivity.
  - cbn [decompress_loop]. cbv zeta.
    destruct (Hm (model_input lz
                    (slice_from seen (Z.max 0 (Z.of_nat (length seen) - w)))))
      as [Hinc Hb63].
    destruct (Coder.decode_symbol_spec _ c d
                (Coder.cdf_increasing_wf _ Hinc) Hb63 Hc Htr)
      as (symbol & c' & d' & E & _ & _ & _ & Hn' & Htr').
    rewrite E, bind_Ok. cbv beta iota.
    destruct (symbol =? eos); [left; eexists; reflexivity|].
    fold (token_text lz (length (seen ++ [symbol])) symbol).
    destruct (Utf8.utf8_to_bytes_loop_scalar
                (token_text lz (length (seen ++ [symbol])) symbol) []
                (token_text_scalar lz _ symbol (Htok symbol))) as (nb & Hnb).
    unfold Utf8.utf8_to_bytes. rewrite Hnb, bind_Ok.
    apply IH.
    + apply Coder.split_in_range, Hn'.
    + destruct Htr' as (Hin & Hrest). unfold Coder.dec_tracks. rewrite Hin.
      split; [reflexivity|exact Hrest].
Qed.

(** X7: On any bytes whatever, [decompress] raises nothing when the
    CDFs are strictly increasing with entries below [2^63]: it returns,
    or it goes on decoding tokens (the loop has no other exit than the
    end marker). *)
Theorem decompress_never_raises (lz : LlamaZip) (eos : Z) :
  end_marker (tokenizer lz) = Ok eos ->
  (forall input_ids, Coder.cdf_increasing (next_cdf (model lz) input_ids)
                     /\ last (next_cdf (model lz) input_ids) 0 < 2 ^ 63) ->
  (forall t, Forall Utf8.scalar (tok_decode (tokenizer lz) [t])) ->
  forall fuel compressed w,
    (exists out, decompress fuel lz compressed w = Ok out)
    \/ decompress fuel lz compressed w = Err OutOfFuel.
Proof.
  intros Hend Hm Htok fuel compressed w. unfold decompress.
  destruct (Coder.Decoder_init_spec compressed) as (d & Hinit & Hat & Hin & Hcode).
  rewrite Hinit, bind_Ok, Hend, bind_Ok.
  apply decompress_loop_safe; try assumption.
  - apply Coder.split_in_range, Coder.Coder_init_normalized.
  - split; [reflexivity|]. split; [apply Coder.cursor_ok_dec_at; eauto|].
    rewrite Hcode. pose proof (Coder.window_range (Coder.bit_at compressed) 64) as HW.
    unfold Coder.Coder_init; cbn [Coder.low Coder.high].
    change Coder.state_mask with (2 ^ 64 - 1).
    change (2 ^ Z.of_nat 64) with (2 ^ 64) in HW. lia.
Qed.

Lemma letter_text_scalar (t : Z) :
  0 <= t < 1000 -> Forall Utf8.scalar (tok_decode letter_tokenizer [t]).
Proof.
  intros Ht. cbn. constructor; [|constructor]. unfold Utf8.scalar. lia.
Qed.

(** A tokenizer whose every token is the letter a. *)
Definition a_tokenizer : Tokenizer :=
  {| eos_token_id := Some 2; sep_token_id := None; bos_token_id := 7;
     tok_encode := map (fun _ => 0); tok_decode := map (fun _ => 97) |}.

Definition a_zip : LlamaZip :=
  {| verbose := false; tokenizer := a_tokenizer; model := parity_model |}.

Lemma decompress_never_raises_witness :
  (exists out, decompress 3 a_zip [x12; x34] 1 = Ok out)
  \/ decompress 3 a_zip [x12; x34] 1 = Err OutOfFuel.
Proof.
  apply (decompress_never_raises a_zip 2).
  - reflexivity.
  - intros input_ids. cbn [next_cdf model a_zip parity_model].
    destruct (Nat.even (length input_ids));
      (split; [split; [discriminate|reflexivity]|reflexivity]).
  - intros t. cbn. constructor; [|constructor]. unfold Utf8.scalar. lia.
Defined.

(** Without the bound the property fails: with the CDF [[1, 2**63]],
    searched as a [float64] array, [decompress] of eight [0xFF] bytes
    raises [IndexError]. *)
Lemma decompress_float64_raises :
  exists lz : LlamaZip,
    end_marker (tokenizer lz) = Ok 2
    /\ (forall input_ids, Coder.cdf_increasing (next_cdf (model lz) input_ids))
    /\ (forall t, Forall Utf8.scalar (tok_decode (tokenizer lz) [t]))
    /\ decompress 1 lz (repeat xff 8) 0 = Err IndexError.
Proof.
  exists {| verbose := false; tokenizer := a_tokenizer;
            model := {| next_cdf := fun _ => [1; 2 ^ 63];
                        max_position_embeddings := 8 |} |}.
  split; [reflexivity|]. split; [intros; split; [discriminate|reflexivity]|].
  split.
  - intros t. cbn. constructor; [|constructor]. unfold Utf8.scalar. lia.
  - vm_compute. reflexivity.
Qed.

Lemma decompress_loop_zero (lz : LlamaZip) (eos w vocab_size : Z) (fuel : nat) :
  model_ok (model lz) vocab_size -> eos <> 0 ->
  Forall Utf8.scalar (tok_decode (tokenizer lz) [0]) ->
  forall seen decompressed c d,
    Coder.normalized c -> Coder.zero_state c d ->
    decompress_loop fuel lz eos w seen decompressed (c, d) = Err OutOfFuel.
Proof.
  intros Hm Heos Htok.
  induction fuel as [|fuel IH]; intros seen decompressed c d Hn Hz; [reflexivity|].
  cbn [decompress_loop]. cbv zeta.
  destruct (Hm (model_input lz
                  (slice_from seen (Z.max 0 (Z.of_nat (length seen) - w)))))
    as (Hinc & Hb & _).
  destruct (Coder.decode_symbol_zero _ c d Hinc Hb Hn Hz) as (c' & d' & E & Hn' & Hz').
  rewrite E, bind_Ok. cbv beta iota.
  destruct (Z.eqb_spec 0 eos) as [E0|_]; [congruence|].
  fold (token_text lz (length (seen ++ [0])) 0).
  destruct (Utf8.utf8_to_bytes_loop_scalar
              (token_text lz (length (seen ++ [0])) 0) []
              (token_text_scalar lz _ 0 Htok)) as (nb & Hnb).
  unfold Utf8.utf8_to_bytes. rewrite Hnb, bind_Ok.
  now apply IH.
Qed.

(** X8: [decompress] of the empty byte string, or of zero bytes only, never
    ends when the end marker is not token 0: every step decodes token 0
    again. *)
Theorem decompress_zero_input_diverges (lz : LlamaZip) (eos vocab_size : Z) :
  end_marker (tokenizer lz) = Ok eos -> eos <> 0 ->
  model_ok (model lz) vocab_size ->
  Forall Utf8.scalar (tok_decode (tokenizer lz) [0]) ->
  forall fuel k w, decompress fuel lz (repeat x00 k) w = Err OutOfFuel.
Proof.
  intros Hend Heos Hm Htok fuel k w. unfold decompress.
  destruct (Coder.Decoder_init_zero k) as (d & Hinit & Hz).
  rewrite Hinit, bind_Ok, Hend, bind_Ok.
  apply (decompress_loop_zero lz eos w vocab_size fuel Hm Heos Htok).
  - exact Coder.Coder_init_normalized.
  - exact Hz.
Qed.

Lemma decompress_zero_input_diverges_witness :
  decompress 7 letter_zip (repeat x00 3) 1 = Err OutOfFuel.
Proof.
  apply (decompress_zero_input_diverges letter_zip 2 3).
  - reflexivity.
  - discriminate.
  - exact parity_model_ok.
  - apply letter_text_scalar. lia.
Defined.

(** ** The context window *)

Lemma model_input_fits (lz : LlamaZip) (context_tokens : list Z) :
  Z.of_nat (length context_tokens) < max_position_embeddings (model lz) ->
  model_input lz context_tokens = bos_token_id (tokenizer lz) :: context_tokens.
Proof.
  intros Hlen. unfold model_input. cbv zeta. cbn [length].
  destruct (Z.geb_spec (Z.of_nat (S (length context_tokens)))
              (max_position_embeddings (model lz))) as [Hge|Hlt]; [|reflexivity].
  unfold slice_from. cbn [length].
  destruct (Z.ltb_spec (- max_position_embeddings (model lz)) 0); [|lia].
  replace (Z.to_nat (Z.of_nat (S (length context_tokens))
                     + - max_position_embeddings (model lz))) with O by lia.
  reflexivity.
Qed.

Lemma slice_window (tokens : list Z) (w : Z) (i : nat) :
  0 <= w -> (i <= length tokens)%nat ->
  slice tokens (Z.max 0 (Z.of_nat i - w)) (Z.of_nat i)
  = skipn (i - Z.to_nat w) (firstn i tokens)
  /\ length (skipn (i - Z.to_nat w) (firstn i tokens)) = Nat.min i (Z.to_nat w).
Proof.
  intros Hw Hi. split.
  - unfold slice.
    replace (Z.to_nat (Z.max 0 (Z.of_nat i - w))) with (i - Z.to_nat w)%nat by lia.
    replace (Z.to_nat (Z.of_nat i - Z.max 0 (Z.of_nat i - w)))
      with (i - (i - Z.to_nat w))%nat by lia.
    rewrite skipn_firstn_comm. reflexivity.
  - rewrite length_skipn, length_firstn. lia.
Qed.

Lemma compress_cdf_context (lz : LlamaZip) (tokens : list Z) (w : Z) (i : nat) :
  0 <= w < max_position_embeddings (model lz) -> (i <= length tokens)%nat ->
  compress_cdf lz tokens w i
  = next_cdf (model lz)
      (bos_token_id (tokenizer lz) :: skipn (i - Z.to_nat w) (firstn i tokens))
  /\ length (skipn (i - Z.to_nat w) (firstn i tokens)) = Nat.min i (Z.to_nat w).
Proof.
  intros Hw Hi. destruct (slice_window tokens w i ltac:(lia) Hi) as [Hs Hl].
  split; [|exact Hl]. unfold compress_cdf. rewrite Hs.
  rewrite model_input_fits by lia. reflexivity.
Qed.

(** X10: For a window overlap in [0, max_context_length), which is what
    [main] accepts, the CDF for the token at index [i] is the model's on
    [bos] followed by the last [min(i, window_overlap)] tokens before
    [i]; the truncation to the context length never removes anything. *)
Theorem compress_cdf_window (lz : LlamaZip) (tokens : list Z) (w : Z) (i : nat) :
  0 <= w < max_position_embeddings (model lz) -> (i <= length tokens)%nat ->
  compress_cdf lz tokens w i
  = next_cdf (model lz)
      (bos_token_id (tokenizer lz) :: skipn (i - Z.to_nat w) (firstn i tokens))
  /\ length (skipn (i - Z.to_nat w) (firstn i tokens)) = Nat.min i (Z.to_nat w).
Proof.
  intros Hw Hi. destruct (slice_window tokens w i ltac:(lia) Hi) as [Hs Hl].
  split; [|exact Hl]. unfold compress_cdf. rewrite Hs.
  rewrite model_input_fits by lia. reflexivity.
Qed.

Lemma compress_cdf_window_witness :
  compress_cdf letter_zip [0; 1; 1; 0; 2] 2 3
  = next_cdf (model letter_zip)
      (bos_token_id (tokenizer letter_zip)
         :: skipn (3 - Z.to_nat 2) (firstn 3 [0; 1; 1; 0; 2]))
  /\ length (skipn (3 - Z.to_nat 2) (firstn 3 [0; 1; 1; 0; 2]))
     = Nat.min 3 (Z.to_nat 2).
Proof.
  apply (compress_cdf_window letter_zip [0; 1; 1; 0; 2] 2 3).
  - cbn. lia.
  - cbn. lia.
Defined.

Lemma map_seq_nth {A B : Type} (f : A -> B) (l : list A) (d : A) :
  map (fun j => f (nth j l d)) (seq 0 (length l)) = map f l.
Proof.
  induction l as [|a l IH]; [reflexivity|].
  cbn [length seq map nth]. rewrite <- seq_shift, map_map. cbn [nth].
  now rewrite IH.
Qed.

Lemma coding_pairs_no_overlap (lz : LlamaZip) (tokens : list Z) :
  0 < max_position_embeddings (model lz) ->
  coding_pairs lz tokens 0 0 (length tokens)
  = map (fun t => (next_cdf (model lz) [bos_token_id (tokenizer lz)], t)) tokens.
Proof.
  intros Hmax. rewrite <- (map_seq_nth _ tokens 0). unfold coding_pairs.
  apply map_ext_in. intros j Hj. apply in_seq in Hj. f_equal.
  destruct (compress_cdf_context lz tokens 0 j) as [E _]; [lia|lia|].
  rewrite E. f_equal. f_equal. apply skipn_all2. rewrite length_firstn. lia.
Qed.

(** X9: With a window overlap of 0, the default, the model never sees an
    earlier token: [compress] codes every token, and the end marker,
    under one and the same CDF, the model's on [bos] alone. *)
Theorem compress_no_overlap (lz : LlamaZip) (data escaped : list byte)
        (text : list Z) (eos : Z) :
  Utf8.bytes_to_utf8 data = Ok escaped -> Utf8.utf8_decode escaped = Ok text ->
  end_marker (tokenizer lz) = Ok eos ->
  0 < max_position_embeddings (model lz) ->
  compress lz data 0
  = Coder.encode
      (map (fun t => (next_cdf (model lz) [bos_token_id (tokenizer lz)], t))
           (tok_encode (tokenizer lz) text ++ [eos])).
Proof.
  intros Hesc Hdec Hend Hmax.
  rewrite (compress_encode lz data escaped text eos 0 Hesc Hdec Hend).
  now rewrite coding_pairs_no_overlap.
Qed.

Lemma compress_no_overlap_witness :
  compress letter_zip [x61; x62; x62; x61] 0
  = Coder.encode
      (map (fun t => (next_cdf (model letter_zip)
                        [bos_token_id (tokenizer letter_zip)], t))
           (tok_encode (tokenizer letter_zip) [97; 98; 98; 97] ++ [2])).
Proof.
  apply (compress_no_overlap letter_zip [x61; x62; x62; x61]
           [x61; x62; x62; x61] [97; 98; 98; 97] 2); reflexivity.
Defined.

(** X11: The model is never given more ids than the context length: its
    input is [bos] and the context, cut from the front down to the last
    [max_context_length] ids when there are that many or more. *)
Theorem model_input_length (lz : LlamaZip) (context_tokens : list Z) :
  1 <= max_position_embeddings (model lz) ->
  model_input lz context_tokens
  = skipn (S (length context_tokens)
           - Z.to_nat (max_position_embeddings (model lz)))
          (bos_token_id (tokenizer lz) :: context_tokens)
  /\ length (model_input lz context_tokens)
     = Nat.min (S (length context_tokens))
               (Z.to_nat (max_position_embeddings (model lz))).
Proof.
  intros Hmax.
  assert (E : model_input lz context_tokens
              = skipn (S (length context_tokens)
                       - Z.to_nat (max_position_embeddings (model lz)))
                      (bos_token_id (tokenizer lz) :: context_tokens)).
  { unfold model_input. cbv zeta. cbn [length].
    destruct (Z.geb_spec (Z.of_nat (S (length context_tokens)))
                (max_position_embeddings (model lz))) as [Hge|Hlt].
    - unfold slice_from. cbn [length].
      destruct (Z.ltb_spec (- max_position_embeddings (model lz)) 0); [|lia].
      f_equal. lia.
    - replace (S (length context_tokens)
               - Z.to_nat (max_position_embeddings (model lz)))%nat with O by lia.
      reflexivity. }
  split; [exact E|]. rewrite E, length_skipn. cbn [length]. lia.
Qed.

Lemma model_input_length_witness :
  model_input letter_zip [1; 2; 3; 4; 5; 6; 7; 8; 9]
  = skipn (S (length [1; 2; 3; 4; 5; 6; 7; 8; 9])
           - Z.to_nat (max_position_embeddings (model letter_zip)))
          (bos_token_id (tokenizer letter_zip) :: [1; 2; 3; 4; 5; 6; 7; 8; 9])
  /\ length (model_input letter_zip [1; 2; 3; 4; 5; 6; 7; 8; 9])
     = Nat.min (S (length [1; 2; 3; 4; 5; 6; 7; 8; 9]))
               (Z.to_nat (max_position_embeddings (model letter_zip))).
Proof.
  apply (model_input_length letter_zip [1; 2; 3; 4; 5; 6; 7; 8; 9]).
  cbn. lia.
Defined.

(** ** [main] *)

(** The window overlap given as a number of tokens ([n] is
    [int(args.overlap)]): a negative number counts from the context
    length; [None] is [parser.error]. *)
Definition window_overlap_tokens (n max_context_length : Z) : option Z :=
  let window_overlap := if n <? 0 then n + max_context_length else n in
  if negb ((0 <=? window_overlap) && (window_overlap <? max_context_length))
  then None
  else Some window_overlap.

Inductive compressed_format : Type :=
| binary
| base64.

(** The [--compress] mode: what is written to standard output. *)
Definition main_compress (lz : LlamaZip) (format : compressed_format)
           (window_overlap : Z) (uncompressed : list byte) : result (list byte) :=
  compressed <- compress lz uncompressed window_overlap ;;
  Ok (match format with
      | base64 => Base64.b64encode compressed
      | binary => compressed
      end).

(** The [--decompress] mode. *)
Definition main_decompress (fuel : nat) (lz : LlamaZip) (format : compressed_format)
           (window_overlap : Z) (compressed : list byte) : result (list byte) :=
  compressed <- match format with
                | base64 => Base64.robust_b64decode compressed
                | binary => Ok compressed
                end ;;
  decompress fuel lz compressed window_overlap.


(** X12: [main] accepts a number of tokens exactly in the range its error
    message names, [-max_context_length, max_context_length - 1], and a
    negative number [n] stands for [n + max_context_length]. *)
Theorem window_overlap_tokens_range (n max_context_length w : Z) :
  window_overlap_tokens n max_context_length = Some w
  <-> - max_context_length <= n <= max_context_length - 1
      /\ w = (if n <? 0 then n + max_context_length else n)
      /\ 0 <= w < max_context_length.
Proof.
  unfold window_overlap_tokens. cbv zeta.
  set (w0 := if n <? 0 then n + max_context_length else n).
  assert (Hw0 : (n < 0 /\ w0 = n + max_context_length) \/ (0 <= n /\ w0 = n)).
  { subst w0. destruct (Z.ltb_spec n 0); [left|right]; lia. }
  destruct (Z.leb_spec 0 w0) as [H1|H1], (Z.ltb_spec w0 max_context_length) as [H2|H2];
    cbn [andb negb]; split;
    try discriminate;
    try (intros E; inversion E; subst w; lia);
    try (intros (Hr & Hw & Hb); first [f_equal; lia|lia]).
Qed.

Example window_overlap_tokens_examples :
  window_overlap_tokens (-3) 8 = Some 5 /\ window_overlap_tokens 8 8 = None
  /\ window_overlap_tokens (-9) 8 = None /\ window_overlap_tokens 0 0 = None.
Proof. repeat split. Qed.

(** X3: Through the command line: what [--compress] writes, in either
    format, and for base64 even with characters outside the alphabet
    inserted and the padding removed, is turned back into the input by
    [--decompress]. *)
Theorem main_roundtrip (lz : LlamaZip) (data escaped : list byte) (text : list Z)
        (eos vocab_size w : Z) (format : compressed_format) :
  Utf8.bytes_to_utf8 data = Ok escaped -> Utf8.utf8_decode escaped = Ok text ->
  end_marker (tokenizer lz) = Ok eos ->
  model_ok (model lz) vocab_size ->
  Forall (fun t => 0 <= t < vocab_size) (tok_encode (tokenizer lz) text ++ [eos]) ->
  ~ In eos (tok_encode (tokenizer lz) text) ->
  detokenize_from lz 0 (tok_encode (tokenizer lz) text) = text ->
  exists written,
    main_compress lz format w data = Ok written
    /\ forall fuel received,
         (length (tok_encode (tokenizer lz) text) < fuel)%nat ->
         match format with
         | base64 => Base64.garbled written received
         | binary => received = written
         end ->
         main_decompress fuel lz format w received = Ok data.
Proof.
  intros Hesc Hdec Hend Hm Htok Hnoeos Hdetok.
  destruct (roundtrip lz data escaped text eos vocab_size w Hesc Hdec Hend Hm Htok
              Hnoeos Hdetok) as (compressed & Hc & Hd).
  unfold main_compress, main_decompress. rewrite Hc, bind_Ok.
  eexists. split; [reflexivity|]. intros fuel received Hfuel Hrecv.
  destruct format.
  - subst received. rewrite bind_Ok. now apply Hd.
  - rewrite (Base64.robust_b64decode_garbled compressed received Hrecv), bind_Ok.
    unfold Base64.zero_fill. rewrite decompress_zeros. now apply Hd.
Qed.

Lemma main_roundtrip_witness :
  exists written,
    main_compress letter_zip base64 2 [x61; x62; x62; x61] = Ok written
    /\ forall fuel received,
         (4 < fuel)%nat -> Base64.garbled written received ->
         main_decompress fuel letter_zip base64 2 received
         = Ok [x61; x62; x62; x61].
Proof.
  apply (main_roundtrip letter_zip [x61; x62; x62; x61]
           [x61; x62; x62; x61] [97; 98; 98; 97] 2 3 2 base64).
  - reflexivity.
  - reflexivity.
  - reflexivity.
  - exact parity_model_ok.
  - cbn. repeat constructor; lia.
  - cbn. intros [H|[H|[H|[H|[]]]]]; discriminate.
  - reflexivity.
Defined.





End Driver.
